(** * lua-json: the serializer [format] and the deserializer [luaAstToJson]

    A shallow embedding of [src/index.js].  JavaScript values are a tagged
    union [jsval]; a thrown exception is a [Throw] result; the one object the
    code writes to, the options object of [format], is threaded as state.

    Boundaries of the model, fixed here once:
    - a Number is an integer or NaN ([number]); fractions and infinities are
      not represented, and [number_toString] is the decimal numeral (what
      JavaScript prints below 1e21);
    - a string is a [string] of 8-bit characters;
    - an object is the ordered list of its own enumerable string-keyed
      properties; the prototype link is not represented, so every property
      read is an own-property read, and there are no function values;
    - the Lua parser [luaparse] is not part of the repository: the
      deserializer is modelled on the tree ([ast]) it hands over;
    - the conversion of a string to a number, which the code reaches only
      by negating a value that is not a number, is a parameter of the
      deserializer. *)

From Stdlib Require Import String Ascii List ZArith NArith Bool Lia Btauto DecimalString Sorted.
Import ListNotations.
Open Scope string_scope.
Set Warnings "-register-all".

(** * Part I: definitions *)

(** ** Characters and strings *)

Definition backslash : ascii := "092"%char.
Definition dquote : ascii := "034"%char.
Definition squote : ascii := "039"%char.
Definition newline : ascii := "010"%char.
Definition creturn : ascii := "013"%char.

Definition str1 (c : ascii) : string := String c EmptyString.

(** [Array.prototype.join] on an array of strings. *)
Fixpoint join (sep : string) (l : list string) : string :=
  match l with
  | [] => ""
  | [x] => x
  | x :: rest => x ++ sep ++ join sep rest
  end.

(** [String.prototype.repeat]-like repetition of a whole string. *)
Fixpoint repeat_string (s : string) (n : nat) : string :=
  match n with
  | O => ""
  | S n' => s ++ repeat_string s n'
  end.

(** [s.replace(/pat/g, rep)] for a pattern that is a literal, non-empty
    string and a replacement without [$]: scanning from the left, every
    occurrence that does not overlap an earlier one is replaced.  [skip]
    counts the characters of a matched occurrence still to be passed over. *)
Fixpoint replace_from (pat rep : string) (skip : nat) (s : string) : string :=
  match s with
  | EmptyString => EmptyString
  | String c s' =>
      match skip with
      | S k => replace_from pat rep k s'
      | O =>
          if prefix pat s
          then rep ++ replace_from pat rep (Nat.pred (String.length pat)) s'
          else String c (replace_from pat rep O s')
      end
  end.

Definition replace_all (pat rep : string) (s : string) : string :=
  replace_from pat rep O s.

(** ** Regular expressions

    The one regular expression the code tests a string against is
    [/^[a-zA-Z_][a-zA-Z_0-9]*$/]; it is written with the constructors below
    and matched by derivatives.  Both anchors are implied: [regex_test]
    decides whether the whole string is in the language. *)

Inductive regex : Type :=
| ReEmpty                                (* matches nothing *)
| ReEps                                  (* matches the empty string *)
| ReClass (p : ascii -> bool)            (* one character of a class *)
| ReSeq (r1 r2 : regex)
| ReAlt (r1 r2 : regex)
| ReStar (r : regex).

Fixpoint nullable (r : regex) : bool :=
  match r with
  | ReEmpty => false
  | ReEps => true
  | ReClass _ => false
  | ReSeq r1 r2 => nullable r1 && nullable r2
  | ReAlt r1 r2 => nullable r1 || nullable r2
  | ReStar _ => true
  end.

Fixpoint deriv (a : ascii) (r : regex) : regex :=
  match r with
  | ReEmpty => ReEmpty
  | ReEps => ReEmpty
  | ReClass p => if p a then ReEps else ReEmpty
  | ReSeq r1 r2 =>
      if nullable r1
      then ReAlt (ReSeq (deriv a r1) r2) (deriv a r2)
      else ReSeq (deriv a r1) r2
  | ReAlt r1 r2 => ReAlt (deriv a r1) (deriv a r2)
  | ReStar r1 => ReSeq (deriv a r1) (ReStar r1)
  end.

Fixpoint regex_test (r : regex) (s : string) : bool :=
  match s with
  | EmptyString => nullable r
  | String a s' => regex_test (deriv a r) s'
  end.

Definition in_range (lo hi : ascii) (c : ascii) : bool :=
  (nat_of_ascii lo <=? nat_of_ascii c)%nat && (nat_of_ascii c <=? nat_of_ascii hi)%nat.

(** [[a-zA-Z_]] *)
Definition class_head (c : ascii) : bool :=
  in_range "a" "z" c || in_range "A" "Z" c || Ascii.eqb c "_".

(** [[a-zA-Z_0-9]] *)
Definition class_tail (c : ascii) : bool :=
  in_range "a" "z" c || in_range "A" "Z" c || Ascii.eqb c "_" || in_range "0" "9" c.

(** [/^[a-zA-Z_][a-zA-Z_0-9]*$/] *)
Definition key_regex : regex :=
  ReSeq (ReClass class_head) (ReStar (ReClass class_tail)).

(** ** Numbers *)

(** The numbers the model holds: NaN and the integers.  Fractions, the
    two infinities and the negative zero are numbers of the program that
    the model does not hold; the theorems say nothing of them. *)
Inductive number : Type :=
| NaN
| Int (z : Z).

(** [Number.prototype.toString] and the conversion of a number to a
    string, on NaN and on the safe integers (see [MAX_SAFE_INTEGER]
    below). *)
Definition number_toString (n : number) : string :=
  match n with
  | NaN => "NaN"
  | Int z => NilZero.string_of_int (Z.to_int z)
  end.

Definition number_neg (n : number) : number :=
  match n with
  | NaN => NaN
  | Int z => Int (- z)
  end.

(** The integers every one of which is a number of the program, and which
    its number-to-string conversion writes as their plain decimal numeral:
    those up to [Number.MAX_SAFE_INTEGER] in magnitude.  Beyond, not every
    integer is a number, and the conversion rounds the digits or, from
    10^21 on, uses an exponent; [number_toString] is meant for this range
    only. *)
Definition MAX_SAFE_INTEGER : Z := 9007199254740991.

Definition safe_integer (z : Z) : Prop := (Z.abs z <= MAX_SAFE_INTEGER)%Z.

(** ** Values *)

(** The values the model holds: [undefined], [null], booleans, numbers,
    strings, arrays, and plain objects as the lists of their own
    enumerable properties, in the order the runtime keeps them.  An
    object of the model has the prototype of an object literal, which the
    program does not change and from which it reads nothing but
    [toString].  Functions, symbols, BigInts, dates and other objects with
    a prototype of their own are no values of the model, and the theorems
    say nothing of them.  Neither has the model a bound on the depth of
    the calls or on the memory a run takes. *)
Inductive jsval : Type :=
| JUndefined
| JNull
| JBool (b : bool)
| JNum (n : number)
| JStr (s : string)
| JArr (elems : list jsval)
| JObj (props : list (string * jsval)).

(** Every number inside the value is NaN or a safe integer: the numbers
    that [number_toString] writes as the program's conversion does. *)
Fixpoint safe_numbers (v : jsval) : bool :=
  match v with
  | JNum (Int z) => (Z.abs z <=? MAX_SAFE_INTEGER)%Z
  | JArr elems => forallb safe_numbers elems
  | JObj props => forallb (fun kv => safe_numbers (snd kv)) props
  | _ => true
  end.

(** ** Exceptions *)

(** How a run ends when it returns nothing.  [NotFollowed] is no exception
    of the program: it ends a run of the model at a step whose effect the
    model does not hold (the assignment of [fromPairs] to the key
    [__proto__], which defines an own property, replaces the prototype or
    does nothing, depending on the version of lodash and on the value).
    Of such a run the theorems say nothing. *)
Inductive exn : Type :=
| Error (message : string)     (* [throw new Error(message)] *)
| TypeError                    (* raised by the runtime *)
| NotFollowed.

Inductive result (A : Type) : Type :=
| Ok (a : A)
| Throw (e : exn).
Arguments Ok {A} a.
Arguments Throw {A} e.

Definition bind {A B : Type} (r : result A) (k : A -> result B) : result B :=
  match r with
  | Ok a => k a
  | Throw e => Throw e
  end.

Notation "'do' x <- r ; k" := (bind r (fun x => k))
  (at level 10, x pattern, r at level 100, k at level 200).

(** [l.map(f)] where [f] may throw: the elements are visited in order and the
    first exception ends the walk. *)
Definition mapM {A B : Type} (f : A -> result B) : list A -> result (list B) :=
  fix go (l : list A) : result (list B) :=
    match l with
    | [] => Ok []
    | x :: rest => do y <- f x; do ys <- go rest; Ok (y :: ys)
    end.

(** ** Runtime and lodash predicates *)

Definition isNull (v : jsval) : bool := match v with JNull => true | _ => false end.
Definition isBoolean (v : jsval) : bool := match v with JBool _ => true | _ => false end.
Definition isNumber (v : jsval) : bool := match v with JNum _ => true | _ => false end.
Definition isString (v : jsval) : bool := match v with JStr _ => true | _ => false end.
Definition isArray (v : jsval) : bool := match v with JArr _ => true | _ => false end.
Definition isObject (v : jsval) : bool :=
  match v with JArr _ | JObj _ => true | _ => false end.

(** ToBoolean. *)
Definition truthy (v : jsval) : bool :=
  match v with
  | JUndefined | JNull => false
  | JBool b => b
  | JNum NaN => false
  | JNum (Int z) => negb (z =? 0)%Z
  | JStr s => negb (s =? "")
  | JArr _ | JObj _ => true
  end.

(** Own-property lookup in an object's property list. *)
Fixpoint lookup {A : Type} (k : string) (props : list (string * A)) : option A :=
  match props with
  | [] => None
  | (k', v) :: rest => if k' =? k then Some v else lookup k rest
  end.

(** [value.name]: reading a property.  On [undefined] and [null] the read
    throws; a string, number, boolean or array has none of the names the
    code reads as a data property ([type], [key], [value],
    [__internal_table_key]). *)
Definition get (v : jsval) (name : string) : result jsval :=
  match v with
  | JUndefined | JNull => Throw TypeError
  | JObj props => Ok (match lookup name props with Some x => x | None => JUndefined end)
  | _ => Ok JUndefined
  end.

(** ToString, as a template literal and a property key apply it.  An array
    joins its elements with a comma, [null] and [undefined] elements giving
    the empty string; an object gives ["[object Object]"] unless it has an
    own [toString] property, which here is never callable, and then the
    conversion throws. *)
Fixpoint ToString (v : jsval) : result string :=
  match v with
  | JUndefined => Ok "undefined"
  | JNull => Ok "null"
  | JBool b => Ok (if b then "true" else "false")
  | JNum n => Ok (number_toString n)
  | JStr s => Ok s
  | JArr elems =>
      do parts <- mapM (fun e => match e with
                                 | JUndefined | JNull => Ok ""
                                 | _ => ToString e
                                 end) elems;
      Ok (join "," parts)
  | JObj props =>
      match lookup "toString" props with
      | Some _ => Throw TypeError
      | None => Ok "[object Object]"
      end
  end.

(** lodash [repeat(string, n)] for a numeric [n]: nothing below 1 or above
    [Number.MAX_SAFE_INTEGER].  A string of the model has no largest
    length; the runs in which the runtime has one to refuse are set apart
    by [text_fits] below. *)
Definition repeat_count (s : string) (n : number) : string :=
  match n with
  | NaN => ""
  | Int z => if ((z <? 1) || (z >? 9007199254740991))%Z then ""
             else repeat_string s (Z.to_nat z)
  end.

Definition number_mul_nat (n : number) (k : nat) : number :=
  match n with
  | NaN => NaN
  | Int z => Int (z * Z.of_nat k)
  end.

(** ** The serializer *)

(** [formatLuaString] (line 4). *)
Definition formatLuaString (string : string) (singleQuote : bool) : String.string :=
  if singleQuote
  then str1 squote ++ replace_all (str1 squote) (String backslash (str1 squote)) string
       ++ str1 squote
  else str1 dquote ++ replace_all (str1 dquote) (String backslash (str1 dquote)) string
       ++ str1 dquote.

(** [formatLuaKey] (line 6). *)
Definition formatLuaKey (string : string) (singleQuote : bool) : String.string :=
  if regex_test key_regex string
  then string
  else "[" ++ formatLuaString string singleQuote ++ "]".

(** The options object: a field the caller left out reads [JUndefined]. *)
Record Options : Type := mkOptions {
  eol : jsval;
  singleQuote : jsval;
  spaces : jsval
}.

(** The default value of the [options] parameter (line 8). *)
Definition default_options : Options :=
  {| eol := JStr (str1 newline); singleQuote := JBool true; spaces := JNum (Int 2) |}.

(** Lines 10 to 12: the three assignments to the options object. *)
Definition normalize (options : Options) : Options :=
  {| eol := if isString (eol options) then eol options else JStr (str1 newline);
     singleQuote := if isBoolean (singleQuote options) then singleQuote options
                    else JBool true;
     spaces := if isNull (spaces options) || isNumber (spaces options)
                  || isString (spaces options)
               then spaces options else JNum (Int 2) |}.

(** The [const eol] of line 10: the string stored in the options object. *)
Definition eol_string (options : Options) : string :=
  match eol options with
  | JStr s => s
  | _ => str1 newline
  end.

(** Lines 29, 30, 42 and 43: the indentation in front of a line at nesting
    [k].  [format] stores only [null], a number or a string in
    [options.spaces], and this is evaluated only when it is truthy. *)
Definition indentation (spaces : jsval) (k : nat) : string :=
  match spaces with
  | JNum n => repeat_count " " (number_mul_nat n k)
  | JStr s => repeat_string s k
  | _ => ""
  end.

Definition cant_format : exn := Error "can't format undefined".

(** [value.type === 'property'] (line 49). *)
Definition is_property (props : list (string * jsval)) : bool :=
  match lookup "type" props with
  | Some (JStr s) => s =? "property"
  | _ => false
  end.

(** [rec] (lines 14 to 58).  In the indented object branch the source calls
    [rec(value.value, i + 1)] a second time for a property entry: the call
    repeats, at the same depth, the one made for the own key [value] while
    building [res], so its outcome is read from there; when the object has
    no own [value], the call is [rec(undefined, i + 1)] and throws. *)
Fixpoint rec (options : Options) (value : jsval) (i : nat) {struct value}
  : result string :=
  let sq := truthy (singleQuote options) in
  let nl := eol_string options in
  let pad := indentation (spaces options) (S i) in
  let padEnd := indentation (spaces options) i in
  match value with
  | JUndefined => Throw cant_format
  | JNull => Ok "nil"
  | JBool b => Ok (if b then "true" else "false")
  | JNum n => Ok (number_toString n)
  | JStr s => Ok (formatLuaString s sq)
  | JArr [] => Ok "{}"
  | JArr elems =>
      if truthy (spaces options) then
        do items <- mapM (fun e => do r <- rec options e (S i);
                                   Ok (pad ++ r ++ ",")) elems;
        Ok ("{" ++ nl ++ join nl items ++ nl ++ padEnd ++ "}")
      else
        do items <- mapM (fun e => do r <- rec options e (S i); Ok (r ++ ",")) elems;
        Ok ("{" ++ join "" items ++ "}")
  | JObj [] => Ok "{}"
  | JObj props =>
      if truthy (spaces options) then
        do rendered <- mapM (fun kv => do r <- rec options (snd kv) (S i);
                                       Ok (fst kv, r)) props;
        let res := nl ++ join nl
                     (map (fun kr => pad ++ formatLuaKey (fst kr) sq ++ " = "
                                     ++ snd kr ++ ",") rendered)
                   ++ nl ++ padEnd in
        if is_property props then
          let key := match lookup "key" props with Some k => k | None => JUndefined end in
          do keytext <- (if isString key
                         then do k <- ToString key; Ok ("'" ++ k ++ "'")
                         else ToString key);
          do r <- match lookup "value" rendered with
                  | Some r => Ok r
                  | None => Throw cant_format
                  end;
          Ok ("[" ++ keytext ++ "] = " ++ r)
        else Ok ("{" ++ res ++ "}")
      else
        do rendered <- mapM (fun kv => do r <- rec options (snd kv) (S i);
                                       Ok (fst kv, r)) props;
        Ok ("{" ++ join "" (map (fun kr => formatLuaKey (fst kr) sq ++ "="
                                          ++ snd kr ++ ",") rendered) ++ "}")
  end.

(** The two objects a call of [format] is handed.  A call without options
    gets the default object of line 8. *)
Record call_state : Type := mkCall {
  arg_value : jsval;
  arg_options : Options
}.

(** [format] (lines 8 to 61), as a step on the objects of the call: their
    state after the call, and the text returned or the exception thrown.
    The only writes are the three assignments of lines 10 to 12; they come
    before [rec] runs and stay when it throws. *)
Definition format_step (st : call_state) : call_state * result string :=
  let options := normalize (arg_options st) in
  ({| arg_value := arg_value st; arg_options := options |},
   do r <- rec options (arg_value st) 0;
   Ok ("return" ++ (if truthy (spaces options) then " " else "") ++ r)).

Definition format (value : jsval) (options : option Options) : result string :=
  snd (format_step
         {| arg_value := value;
            arg_options := match options with
                           | Some o => o
                           | None => default_options
                           end |}).

(** ** Objects as the deserializer builds them *)

Definition digit_value (c : ascii) : option N :=
  if in_range "0" "9" c then Some (N.of_nat (nat_of_ascii c - 48)) else None.

Fixpoint digits_value (acc : N) (s : string) : option N :=
  match s with
  | EmptyString => Some acc
  | String c s' =>
      match digit_value c with
      | Some d => digits_value (acc * 10 + d) s'
      | None => None
      end
  end.

(** An array index: the canonical decimal numeral of an integer below
    2^32 - 1.  Own properties with such keys are enumerated first, in
    ascending order, before the other keys in the order of their creation. *)
Definition array_index (s : string) : option N :=
  match s with
  | EmptyString => None
  | _ =>
      match digits_value 0 s with
      | Some n =>
          if (NilZero.string_of_uint (N.to_uint n) =? s) && (n <? 4294967295)%N
          then Some n else None
      | None => None
      end
  end.

Definition has_own {A : Type} (k : string) (props : list (string * A)) : bool :=
  match lookup k props with Some _ => true | None => false end.

Fixpoint update (k : string) (v : jsval) (props : list (string * jsval))
  : list (string * jsval) :=
  match props with
  | [] => []
  | (k', v') :: rest =>
      if k' =? k then (k', v) :: rest else (k', v') :: update k v rest
  end.

Fixpoint insert_index (n : N) (k : string) (v : jsval) (props : list (string * jsval))
  : list (string * jsval) :=
  match props with
  | [] => [(k, v)]
  | (k', v') :: rest =>
      match array_index k' with
      | Some m => if (m <? n)%N then (k', v') :: insert_index n k v rest
                  else (k, v) :: props
      | None => (k, v) :: props
      end
  end.

(** [object[k] = v] on an ordinary object made by an object literal.  The
    key [__proto__] reaches the prototype setter and creates no own
    property; an existing key keeps its place; a new array index goes to
    its place among the indices and any other new key to the end. *)
Definition obj_set (props : list (string * jsval)) (k : string) (v : jsval)
  : list (string * jsval) :=
  if k =? "__proto__" then props
  else if has_own k props then update k v props
  else match array_index k with
       | Some n => insert_index n k v props
       | None => props ++ [(k, v)]
       end.

(** lodash [fromPairs]: [result[pair[0]] = pair[1]] for each pair in turn,
    the key converted to a property key.  A pair whose key is [__proto__]
    ends the run of the model: what the assignment does to the prototype of
    [result], and so to what [isEmpty], [escape] and [rec] later read from
    it, is not held by a list of own properties. *)
Fixpoint fromPairs_into (object : list (string * jsval)) (pairs : list (jsval * jsval))
  : result (list (string * jsval)) :=
  match pairs with
  | [] => Ok object
  | (k, v) :: rest =>
      do name <- ToString k;
      if name =? "__proto__" then Throw NotFollowed
      else fromPairs_into (obj_set object name v) rest
  end.

Definition fromPairs (pairs : list (jsval * jsval)) : result (list (string * jsval)) :=
  fromPairs_into [] pairs.

(** lodash [isEmpty] on a plain object: no own enumerable key. *)
Definition isEmpty {A : Type} (l : list A) : bool :=
  match l with [] => true | _ => false end.

(** ** The deserializer *)

(** [escape] (lines 117 to 123).  The guard [value && value.replace] holds
    for a non-empty string; it also holds for an object with a truthy own
    property [replace], and calling that property throws, since it is not a
    function.  The empty string is falsy and returned as it is. *)
Definition escape (value : jsval) : result jsval :=
  match value with
  | JStr s =>
      if truthy value then
        let bs := str1 backslash in
        Ok (JStr (replace_all (str1 newline) (bs ++ "n")
                 (replace_all (bs ++ "n") (bs ++ bs ++ "n")
                 (replace_all (bs ++ "r") (bs ++ bs ++ "r")
                 (replace_all (bs ++ bs) (bs ++ bs ++ bs ++ bs) s)))))
      else Ok value
  | JObj props =>
      match lookup "replace" props with
      | Some r => if truthy r then Throw TypeError else Ok value
      | None => Ok value
      end
  | _ => Ok value
  end.

(** The tree handed over by the parser, one constructor per node type the
    code reads, with the fields it reads.  [OtherNode] is a node of which
    only the type tag is there to read. *)
Inductive ast : Type :=
| NilLiteral
| BooleanLiteral (value : bool)
| NumericLiteral (value : number)
| StringLiteral (value : string)
| UnaryExpression (operator : string) (argument : ast)
| Identifier (name : string)
| TableKey (key value : ast)
| TableKeyString (key value : ast)
| TableValue (value : ast)
| TableConstructorExpression (fields : list ast)
| LocalStatement (init : list ast)
| ReturnStatement (arguments : list ast)
| Chunk (body : list ast)
| OtherNode (type : string).


Definition mem (s : string) (l : list string) : bool := existsb (String.eqb s) l.

Definition literal_types : list string :=
  ["NilLiteral"; "BooleanLiteral"; "NumericLiteral"; "StringLiteral"].

(** The type tags whose branch reads a field of the node that holds a
    child: on a node without that field the read throws. *)
Definition parent_types : list string :=
  ["TableKey"; "TableKeyString"; "TableValue"; "TableConstructorExpression";
   "LocalStatement"; "ReturnStatement"; "Chunk"].

(** [ast.fields[0] && ast.fields[0].key] (line 83). *)
Definition first_has_key (fields : list ast) : bool :=
  match fields with
  | TableKey _ _ :: _ | TableKeyString _ _ :: _ => true
  | _ => false
  end.

Definition cant_parse (type : string) : exn := Error ("can't parse " ++ type).

Definition internal_pair (key value : jsval) : jsval :=
  JObj [("__internal_table_key", JBool true); ("key", key); ("value", value)].

Definition property_entry (key value : jsval) : jsval :=
  JObj [("type", JStr "property"); ("key", key); ("value", value)].

(** The callback of line 85: one field of a keyed table to a pair. *)
Definition field_pair (r : jsval) : result (jsval * jsval) :=
  do key <- get r "key";
  do value <- get r "value";
  do e <- escape value;
  Ok (key, e).

(** The callback of line 94: one kept field of an unkeyed table. *)
Definition sequence_element (value : jsval) : result jsval :=
  do flag <- get value "__internal_table_key";
  if truthy flag
  then do key <- get value "key";
       do v <- get value "value";
       do e <- escape v;
       Ok (property_entry key e)
  else escape value.

(** [values.length === 1 ? values[0] : values] (lines 103 and 107). *)
Definition unwrap_single (values : list jsval) : jsval :=
  match values with
  | [v] => v
  | _ => JArr values
  end.

Section Deserializer.

(** ECMAScript's StringToNumber, taken as given: it is applied only when a
    unary minus meets an operand that is not a number. *)
Variable StringToNumber : string -> number.

(** ToNumber.  An array or object goes through its string form. *)
Definition ToNumber (v : jsval) : result number :=
  match v with
  | JUndefined => Ok NaN
  | JNull => Ok (Int 0)
  | JBool b => Ok (Int (if b then 1 else 0))
  | JNum n => Ok n
  | JStr s => Ok (StringToNumber s)
  | JArr _ | JObj _ => do s <- ToString v; Ok (StringToNumber s)
  end.

(** [luaAstToJson] (lines 63 to 113).  The unkeyed branch of a table calls
    [luaAstToJson] on each field twice, in [filter] and again in [map]; the
    function has no effect, so the second call returns what the first did
    and the results of the first walk are used for both. *)
Fixpoint luaAstToJson (ast : ast) : result jsval :=
  match ast with
  | NilLiteral => Ok JNull
  | BooleanLiteral value => Ok (JBool value)
  | NumericLiteral value => Ok (JNum value)
  | StringLiteral value => Ok (JStr value)
  | UnaryExpression operator argument =>
      if operator =? "-"
      then do v <- luaAstToJson argument;
           do n <- ToNumber v;
           Ok (JNum (number_neg n))
      else Throw (cant_parse "UnaryExpression")
  | Identifier name => Ok (JStr name)
  | TableKey key value | TableKeyString key value =>
      do k <- luaAstToJson key;
      do v <- luaAstToJson value;
      Ok (internal_pair k v)
  | TableValue value => luaAstToJson value
  | TableConstructorExpression fields =>
      if first_has_key fields then
        do pairs <- mapM (fun field => do r <- luaAstToJson field; field_pair r) fields;
        do object <- fromPairs pairs;
        Ok (if isEmpty object then JArr [] else JObj object)
      else
        do values <- mapM luaAstToJson fields;
        do elems <- mapM sequence_element (filter (fun v => negb (isNull v)) values);
        Ok (JArr elems)
  | LocalStatement init =>
      do values <- mapM luaAstToJson init; Ok (unwrap_single values)
  | ReturnStatement arguments =>
      do values <- mapM luaAstToJson arguments; Ok (unwrap_single values)
  | Chunk body =>
      match body with
      | [] => Throw TypeError
      | statement :: _ => luaAstToJson statement
      end
  | OtherNode type =>
      if mem type literal_types then Ok JUndefined
      else if type =? "Identifier" then Ok JUndefined
      else if mem type parent_types then Throw TypeError
      else Throw (cant_parse type)
  end.

End Deserializer.

(** StringToNumber on the strings that hold a numeral of the number model
    (optional white space, an optional sign and decimal digits, the empty
    string being 0), and on the strings that hold no numeral at all, which
    it sends to NaN.  A string with another numeral of the program (a
    fraction, an exponent, a hexadecimal, octal or binary numeral,
    [Infinity]) stands for a number that the model does not hold or writes
    otherwise: the general theorems take the conversion as a parameter,
    and this one serves at inputs without such a string. *)
Definition is_space (c : ascii) : bool :=
  Ascii.eqb c " " || in_range "009" "013" c.

Fixpoint trim_left (s : string) : string :=
  match s with
  | String c s' => if is_space c then trim_left s' else s
  | EmptyString => EmptyString
  end.

Fixpoint trim_right (s : string) : string :=
  match s with
  | EmptyString => EmptyString
  | String c s' =>
      match trim_right s' with
      | EmptyString => if is_space c then EmptyString else str1 c
      | t => String c t
      end
  end.

Definition unsigned_decimal (s : string) : number :=
  match s with
  | EmptyString => NaN
  | _ => match digits_value 0 s with
         | Some n => Int (Z.of_N n)
         | None => NaN
         end
  end.

Definition StringToNumber_decimal (s : string) : number :=
  match trim_right (trim_left s) with
  | EmptyString => Int 0
  | String "-" s' => number_neg (unsigned_decimal s')
  | String "+" s' => unsigned_decimal s'
  | t => unsigned_decimal t
  end.

(** [parse] (line 115) once the parser has produced the tree. *)
Definition deserialize (tree : ast) : result jsval :=
  luaAstToJson StringToNumber_decimal tree.

(** * What the specification says, in its own words

    Definitions that follow the wording of [spec.md]; the theorems below
    compare them with the code. *)

(** "that quote character escaped wherever it occurs": a backslash goes in
    front of every [q], and no other character is touched. *)
Fixpoint escape_quote (q : ascii) (s : string) : string :=
  match s with
  | EmptyString => EmptyString
  | String c s' =>
      if Ascii.eqb c q
      then String backslash (String c (escape_quote q s'))
      else String c (escape_quote q s')
  end.

Definition quote_text (q : ascii) (s : string) : string :=
  str1 q ++ escape_quote q s ++ str1 q.

(** "quoted using the configured quote character": double quotes only when
    [singleQuote] was given as [false]. *)
Definition configured_quote (options : Options) : ascii :=
  match singleQuote options with
  | JBool false => dquote
  | _ => squote
  end.

Definition is_letter (c : ascii) : bool :=
  in_range "a" "z" c || in_range "A" "Z" c.

Definition is_digit (c : ascii) : bool := in_range "0" "9" c.

Fixpoint all_chars (p : ascii -> bool) (s : string) : bool :=
  match s with
  | EmptyString => true
  | String c s' => p c && all_chars p s'
  end.

(** "a letter or underscore followed by letters, digits, or underscores". *)
Definition identifier_shaped (s : string) : bool :=
  match s with
  | EmptyString => false
  | String c s' =>
      (is_letter c || Ascii.eqb c "_")
      && all_chars (fun d => is_letter d || is_digit d || Ascii.eqb d "_") s'
  end.

(** A key as the specification renders it under quote character [q]. *)
Definition rendered_key (q : ascii) (key : string) : string :=
  if identifier_shaped key then key else "[" ++ quote_text q key ++ "]".

(** Every occurrence of the two characters [a b], scanned from the left,
    becomes [rep]; the rest stays. *)
Fixpoint rewrite_pairs (a b : ascii) (rep : string) (s : string) : string :=
  match s with
  | EmptyString => EmptyString
  | String c s' =>
      match s' with
      | String d s'' =>
          if Ascii.eqb c a && Ascii.eqb d b
          then rep ++ rewrite_pairs a b rep s''
          else String c (rewrite_pairs a b rep s')
      | EmptyString => s
      end
  end.

(** Every character [a] becomes [rep]. *)
Fixpoint rewrite_chars (a : ascii) (rep : string) (s : string) : string :=
  match s with
  | EmptyString => EmptyString
  | String c s' =>
      if Ascii.eqb c a then rep ++ rewrite_chars a rep s'
      else String c (rewrite_chars a rep s')
  end.

(** "doubling backslashes", read as the words say: every backslash. *)
Definition double_backslashes (s : string) : string :=
  rewrite_chars backslash (String backslash (str1 backslash)) s.

(** The four steps as the specification lists them. *)
Definition escape_as_specified (s : string) : string :=
  let bs := backslash in
  rewrite_chars newline (String bs "n")
    (rewrite_pairs bs "n" (String bs (String bs "n"))
      (rewrite_pairs bs "r" (String bs (String bs "r"))
        (double_backslashes s))).

(** The four steps as the code takes them: the first rewrites pairs of
    backslashes, so a backslash left without a partner stays single. *)
Definition escape_text (s : string) : string :=
  let bs := backslash in
  rewrite_chars newline (String bs "n")
    (rewrite_pairs bs "n" (String bs (String bs "n"))
      (rewrite_pairs bs "r" (String bs (String bs "r"))
        (rewrite_pairs bs bs (String bs (String bs (String bs (str1 bs)))) s))).

(** * The options in force *)

(** The options object [rec] reads: the caller's, or the default one,
    after lines 10 to 12. *)
Definition effective (options : option Options) : Options :=
  normalize (match options with Some o => o | None => default_options end).

Definition supplied (options : option Options) : Options :=
  match options with Some o => o | None => default_options end.

(** What follows [return]: a space when indentation is on. *)
Definition lead (o : Options) : string :=
  if truthy (spaces o) then " " else "".

(** * Induction on values *)

Section ValueInduction.

Variable P : jsval -> Prop.
Hypothesis P_undefined : P JUndefined.
Hypothesis P_null : P JNull.
Hypothesis P_bool : forall b, P (JBool b).
Hypothesis P_num : forall n, P (JNum n).
Hypothesis P_str : forall s, P (JStr s).
Hypothesis P_arr : forall elems, Forall P elems -> P (JArr elems).
Hypothesis P_obj : forall props, Forall (fun kv => P (snd kv)) props -> P (JObj props).

Fixpoint jsval_nested_ind (v : jsval) : P v :=
  match v with
  | JUndefined => P_undefined
  | JNull => P_null
  | JBool b => P_bool b
  | JNum n => P_num n
  | JStr s => P_str s
  | JArr elems =>
      P_arr elems
        ((fix all (l : list jsval) : Forall P l :=
            match l with
            | [] => Forall_nil P
            | x :: rest => Forall_cons x (jsval_nested_ind x) (all rest)
            end) elems)
  | JObj props =>
      P_obj props
        ((fix all (l : list (string * jsval)) : Forall (fun kv => P (snd kv)) l :=
            match l with
            | [] => Forall_nil _
            | kv :: rest => Forall_cons kv (jsval_nested_ind (snd kv)) (all rest)
            end) props)
  end.

End ValueInduction.

(** * Compact output (C6) *)




(** The values of [spaces] that switch indentation off: a falsy value that
    line 12 keeps, which is [null], zero, NaN or the empty string. *)
Definition compact_spaces (sp : jsval) : bool :=
  negb (truthy sp) && (isNull sp || isNumber sp || isString sp).

(** The values of [spaces] that line 12 keeps. *)
Definition kept_spaces (sp : jsval) : bool :=
  isNull sp || isNumber sp || isString sp.


Definition concat_all (l : list string) : string := fold_right append "" l.


(** * Property entries (C3) *)


(** * Failures (C9) *)




(** "a value that is none of Nil/Boolean/Number/Text/Sequence/Mapping/
    PropertyEntry": among the values of the model, [undefined], at any
    depth. *)
Fixpoint contains_undefined (v : jsval) : bool :=
  match v with
  | JUndefined => true
  | JArr elems => existsb contains_undefined elems
  | JObj props => existsb (fun kv => contains_undefined (snd kv)) props
  | _ => false
  end.

Definition primitive (v : jsval) : bool :=
  match v with JArr _ | JObj _ => false | _ => true end.

(** Every object tagged [type: 'property'] has a [value], and a key that
    is not a container. *)
Fixpoint entries_well_formed (v : jsval) : bool :=
  match v with
  | JArr elems => forallb entries_well_formed elems
  | JObj props =>
      forallb (fun kv => entries_well_formed (snd kv)) props
      && (if is_property props
          then has_own "value" props
               && match lookup "key" props with Some k => primitive k | None => true end
          else true)
  | _ => true
  end.

Section NodeInduction.

Variable P : ast -> Prop.
Hypothesis P_nil : P NilLiteral.
Hypothesis P_bool : forall b, P (BooleanLiteral b).
Hypothesis P_num : forall n, P (NumericLiteral n).
Hypothesis P_str : forall s, P (StringLiteral s).
Hypothesis P_unary : forall op a, P a -> P (UnaryExpression op a).
Hypothesis P_ident : forall s, P (Identifier s).
Hypothesis P_key : forall k v, P k -> P v -> P (TableKey k v).
Hypothesis P_keystring : forall k v, P k -> P v -> P (TableKeyString k v).
Hypothesis P_value : forall v, P v -> P (TableValue v).
Hypothesis P_table : forall fields, Forall P fields -> P (TableConstructorExpression fields).
Hypothesis P_local : forall init, Forall P init -> P (LocalStatement init).
Hypothesis P_return : forall args, Forall P args -> P (ReturnStatement args).
Hypothesis P_chunk : forall body, Forall P body -> P (Chunk body).
Hypothesis P_other : forall t, P (OtherNode t).

Fixpoint ast_nested_ind (a : ast) : P a :=
  let all := fix all (l : list ast) : Forall P l :=
               match l with
               | [] => Forall_nil P
               | x :: rest => Forall_cons x (ast_nested_ind x) (all rest)
               end in
  match a with
  | NilLiteral => P_nil
  | BooleanLiteral b => P_bool b
  | NumericLiteral n => P_num n
  | StringLiteral s => P_str s
  | UnaryExpression op x => P_unary op x (ast_nested_ind x)
  | Identifier s => P_ident s
  | TableKey k v => P_key k v (ast_nested_ind k) (ast_nested_ind v)
  | TableKeyString k v => P_keystring k v (ast_nested_ind k) (ast_nested_ind v)
  | TableValue v => P_value v (ast_nested_ind v)
  | TableConstructorExpression fields => P_table fields (all fields)
  | LocalStatement init => P_local init (all init)
  | ReturnStatement args => P_return args (all args)
  | Chunk body => P_chunk body (all body)
  | OtherNode t => P_other t
  end.

End NodeInduction.

(** * Tables without a key on the first field (C4) *)

(** "string-escaping applied": on a Text the four steps, on any other value
    nothing. *)
Definition escape_value (v : jsval) : jsval :=
  match v with
  | JStr s => JStr (escape_text s)
  | _ => v
  end.

Definition field_of (v : jsval) (name : string) : jsval :=
  match v with
  | JObj props => match lookup name props with Some x => x | None => JUndefined end
  | _ => JUndefined
  end.

(** "fields that carried an internal key/value pair construct": the
    construct is recognized by its truthy [__internal_table_key]. *)
Definition is_pair_construct (v : jsval) : bool :=
  truthy (field_of v "__internal_table_key").

(** A PropertyEntry of the value model, as the serializer knows one
    (line 49): a Mapping tagged [type: 'property'] that carries a key and a
    value. *)
Definition PropertyEntry (key value : jsval) : jsval :=
  JObj [("type", JStr "property"); ("key", key); ("value", value)].

(** The element a kept field contributes to the Sequence. *)
Definition sequence_member (v : jsval) : jsval :=
  if is_pair_construct v
  then PropertyEntry (field_of v "key") (escape_value (field_of v "value"))
  else escape_value v.

(** "fields that themselves carried an internal key/value pair construct":
    the fields with a key, whose nodes yield the construct. *)
Definition carries_pair (field : ast) : bool :=
  match field with
  | TableKey _ _ | TableKeyString _ _ => true
  | _ => false
  end.

(** "skipping any field whose deserialized value is Nil": the fields that
    are kept, each with its deserialized value. *)
Definition kept_fields (fields : list ast) (values : list jsval) : list (ast * jsval) :=
  filter (fun fv => negb (isNull (snd fv))) (combine fields values).

(** The element the claim gives a kept field: a PropertyEntry of the pair
    when the field carried one, and otherwise the field's value with the
    escaping applied. *)
Definition claimed_element (fv : ast * jsval) : jsval :=
  if carries_pair (fst fv)
  then PropertyEntry (field_of (snd fv) "key") (escape_value (field_of (snd fv) "value"))
  else escape_value (snd fv).

(** [escape] returns on [v]: it is not an object with a truthy [replace]. *)
Definition escapable (v : jsval) : bool :=
  negb (isObject v && negb (isArray v) && truthy (field_of v "replace")).

(** The kept field can be turned into an element: it is not [undefined],
    and what is escaped, the value of the pair or the field's own value,
    is escapable. *)
Definition member_ok (v : jsval) : bool :=
  match v with
  | JUndefined => false
  | _ => escapable (if is_pair_construct v then field_of v "value" else v)
  end.

(** The same element with the escaping step as the code has it, which
    can throw. *)
Definition member_step (v : jsval) : result jsval :=
  if is_pair_construct v
  then do e <- escape (field_of v "value"); Ok (property_entry (field_of v "key") e)
  else escape v.

(** * Tables with a key on the first field (C1) *)

(** The pair of line 87 with its key turned into a property key. *)
Definition key_name (pair : jsval * jsval) : result (string * jsval) :=
  do name <- ToString (fst pair); Ok (name, snd pair).

(** The assignments of [fromPairs], one after the other. *)
Definition assign_all (object named : list (string * jsval)) : list (string * jsval) :=
  fold_left (fun o kv => obj_set o (fst kv) (snd kv)) named object.

Definition keys (object : list (string * jsval)) : list string := map fst object.

Definition is_index (k : string) : bool :=
  match array_index k with Some _ => true | None => false end.

(** The order of the own keys of an object: array indices ascending, then
    the other keys. *)
Definition key_before (a b : string) : Prop :=
  match array_index a, array_index b with
  | Some m, Some n => (m < n)%N
  | Some _, None => True
  | None, Some _ => False
  | None, None => True
  end.

Definition names (ks : list string) : list string :=
  filter (fun k => negb (is_index k)) ks.

(** The keys that get a property of their own and are not array indices,
    in the order in which they are first assigned. *)
Fixpoint first_assigned (seen : list string) (ks : list string) : list string :=
  match ks with
  | [] => []
  | k :: rest =>
      if (k =? "__proto__") || is_index k || mem k seen
      then first_assigned seen rest
      else k :: first_assigned (seen ++ [k]) rest
  end.

(** The pair a deserialized field gives: its key as it is, its value
    through the escaping step. *)
Definition pair_of (r : jsval) : jsval * jsval :=
  (field_of r "key", escape_value (field_of r "value")).

(** The field can be taken apart: it is neither [null] nor [undefined],
    and the escaping step returns on its value. *)
Definition pair_ok (r : jsval) : bool :=
  match r with
  | JUndefined | JNull => false
  | _ => escapable (field_of r "value")
  end.

(** * The round trip (C2) *)

(** [parse] (line 115), with the parser of [luaparse] as a parameter. *)
Definition parse (parseLua : string -> ast) (S : string -> number) (value : string)
  : result jsval :=
  luaAstToJson S (parseLua value).

Definition number_eqb (a b : number) : bool :=
  match a, b with
  | NaN, NaN => true
  | Int x, Int y => (x =? y)%Z
  | _, _ => false
  end.

(** "structurally equal ... for Sequence/Mapping shape and for
    Nil/Boolean/Number leaves": the same containers with the same keys,
    the same leaves, the content of a Text apart. *)
Fixpoint same_shape (v r : jsval) {struct v} : bool :=
  match v, r with
  | JNull, JNull => true
  | JBool a, JBool b => Bool.eqb a b
  | JNum a, JNum b => number_eqb a b
  | JStr _, JStr _ => true
  | JArr l, JArr l' =>
      (fix go (l l' : list jsval) : bool :=
         match l, l' with
         | [], [] => true
         | x :: xs, y :: ys => same_shape x y && go xs ys
         | _, _ => false
         end) l l'
  | JObj p, JObj p' =>
      (fix go (p p' : list (string * jsval)) : bool :=
         match p, p' with
         | [], [] => true
         | kx :: xs, ky :: ys =>
             (fst kx =? fst ky) && same_shape (snd kx) (snd ky) && go xs ys
         | _, _ => false
         end) p p'
  | _, _ => false
  end.

(** The tree a Lua parser is taken to read from the literal that [format]
    writes for a value: [luaparse] is not part of the repository, and this
    is the one assumption made about it, stated as a hypothesis where it is
    used.  A negative number is written with a minus sign and read as a
    negation; an identifier-shaped key is written bare and read as a
    [TableKeyString], any other as a [TableKey] on a string. *)
Fixpoint lua_tree (v : jsval) : ast :=
  match v with
  | JUndefined => Identifier "undefined"
  | JNull => NilLiteral
  | JBool b => BooleanLiteral b
  | JNum NaN => Identifier "NaN"
  | JNum (Int z) =>
      if (z <? 0)%Z then UnaryExpression "-" (NumericLiteral (Int (- z)))
      else NumericLiteral (Int z)
  | JStr s => StringLiteral s
  | JArr elems => TableConstructorExpression (map (fun e => TableValue (lua_tree e)) elems)
  | JObj props =>
      TableConstructorExpression
        (map (fun kv => if identifier_shaped (fst kv)
                        then TableKeyString (Identifier (fst kv)) (lua_tree (snd kv))
                        else TableKey (StringLiteral (fst kv)) (lua_tree (snd kv)))
             props)
  end.

(** A string that a Lua string literal gives back as it is once the quote
    is unescaped: no backslash and no line break. *)
Definition simple_text (s : string) : bool :=
  all_chars (fun c => negb (Ascii.eqb c backslash || Ascii.eqb c newline
                            || Ascii.eqb c creturn)) s.

Definition lua_keywords : list string :=
  ["and"; "break"; "do"; "else"; "elseif"; "end"; "false"; "for"; "function";
   "goto"; "if"; "in"; "local"; "nil"; "not"; "or"; "repeat"; "return"; "then";
   "true"; "until"; "while"].

Definition key_beforeb (a b : string) : bool :=
  match array_index a, array_index b with
  | Some m, Some n => (m <? n)%N
  | Some _, None => true
  | None, Some _ => false
  | None, None => true
  end.

(** The keys of an object in the order the runtime keeps them, each once. *)
Fixpoint key_order_ok (ks : list string) : bool :=
  match ks with
  | [] => true
  | k :: rest => forallb (key_beforeb k) rest && negb (mem k rest) && key_order_ok rest
  end.

Definition key_ok (k : string) : bool :=
  negb (k =? "__proto__") && simple_text k && negb (mem k lua_keywords).

(** The values for which the round trip is shown: no [undefined]; for
    Numbers the safe integers, so no NaN; Texts and keys that a Lua literal
    gives back unchanged; no Nil as
    an element of a Sequence; no empty Mapping; no Mapping tagged as a
    property entry or holding a truthy [replace] or
    [__internal_table_key]; no key [__proto__] and no key that is a Lua
    keyword. *)
Fixpoint round_trip_value (v : jsval) : bool :=
  match v with
  | JUndefined => false
  | JNull | JBool _ => true
  | JNum NaN => false
  | JNum (Int z) => (Z.abs z <=? MAX_SAFE_INTEGER)%Z
  | JStr s => simple_text s
  | JArr elems => forallb (fun e => negb (isNull e) && round_trip_value e) elems
  | JObj props =>
      negb (isEmpty props)
      && key_order_ok (keys props)
      && negb (is_property props)
      && negb (truthy (field_of v "replace"))
      && negb (truthy (field_of v "__internal_table_key"))
      && forallb (fun kv => key_ok (fst kv) && round_trip_value (snd kv)) props
  end.

(** ** Properties of deserialized tables *)

(** A string without line feed. *)
Definition line_free (s : string) : bool :=
  all_chars (fun c => negb (Ascii.eqb c newline)) s.

(** What can be said of every value that sits in a deserialized table: it
    is not a Text that holds a line feed. *)
Definition text_line_free (v : jsval) : Prop :=
  forall s, v = JStr s -> line_free s = true.

(** A positional field that is the literal [nil]. *)
Definition is_nil_field (f : ast) : bool :=
  match f with
  | TableValue NilLiteral => true
  | _ => false
  end.

Definition drop_nil_fields (fields : list ast) : list ast :=
  filter (fun f => negb (is_nil_field f)) fields.

(** The characters of the numeral of an integer. *)
Definition numeral_char (c : ascii) : bool := is_digit c || Ascii.eqb c "-".

(** A key between brackets and quotes, as [formatLuaKey] writes a key that
    is not identifier-shaped and holds no quote. *)
Definition bracketed (sq : bool) (key : string) : string :=
  "[" ++ str1 (if sq then squote else dquote) ++ key
  ++ str1 (if sq then squote else dquote) ++ "]".

(** The two characters [a b] occur in [s], one after the other. *)
Fixpoint has_pair (a b : ascii) (s : string) : bool :=
  match s with
  | EmptyString => false
  | String c s' =>
      match s' with
      | String d _ => (Ascii.eqb c a && Ascii.eqb d b) || has_pair a b s'
      | EmptyString => false
      end
  end.

(** A Text on which one of the four steps of [escape] finds something to
    rewrite: two backslashes in a row, a backslash before [r] or [n], or a
    line feed. *)
Definition escape_changes (s : string) : bool :=
  has_pair backslash backslash s || has_pair backslash "r" s
  || has_pair backslash "n" s || negb (line_free s).

(** ** Trees of plain data *)

(** The property names that the two functions read off a value on their
    own account: [type] (line 49), [replace] (line 117) and
    [__internal_table_key] (line 96); and [__proto__], whose assignment
    reaches the prototype of the object under construction. *)
Definition reserved_keys : list string :=
  ["type"; "replace"; "__internal_table_key"; "__proto__"].

(** An expression without a table: a literal, a name, or the negation of
    such an expression. *)
Fixpoint scalar (a : ast) : bool :=
  match a with
  | NilLiteral | BooleanLiteral _ | NumericLiteral _ | StringLiteral _
  | Identifier _ => true
  | UnaryExpression operator argument => (operator =? "-") && scalar argument
  | _ => false
  end.

(** A key of a keyed table: a scalar whose text is not a reserved name. *)
Definition key_allowed (key : ast) : bool :=
  scalar key
  && match key with
     | StringLiteral s | Identifier s => negb (mem s reserved_keys)
     | _ => true
     end.

(** An expression made of scalars and of tables.  A table whose first
    field has a key has a key on every field; a table whose first field
    has none may have keys, of any text, on later fields. *)
Fixpoint data (a : ast) : bool :=
  match a with
  | NilLiteral | BooleanLiteral _ | NumericLiteral _ | StringLiteral _
  | Identifier _ => true
  | UnaryExpression operator argument => (operator =? "-") && scalar argument
  | TableConstructorExpression fields =>
      if first_has_key fields
      then forallb (fun field => match field with
                                 | TableKey k v | TableKeyString k v =>
                                     key_allowed k && data v
                                 | _ => false
                                 end) fields
      else forallb (fun field => match field with
                                 | TableKey k v | TableKeyString k v =>
                                     scalar k && data v
                                 | TableValue v => data v
                                 | _ => false
                                 end) fields
  | _ => false
  end.

(** A [return] or [local] statement over such expressions. *)
Definition data_statement (a : ast) : bool :=
  match a with
  | LocalStatement values | ReturnStatement values => forallb data values
  | _ => false
  end.

(** A tree of plain data: a chunk whose first statement is one, or such a
    statement or expression on its own. *)
Definition data_tree (tree : ast) : bool :=
  match tree with
  | Chunk (first :: _) => data_statement first
  | _ => data_statement tree || data tree
  end.

(** What [rec] asks of a value. *)
Definition serializable (v : jsval) : Prop :=
  contains_undefined v = false /\ entries_well_formed v = true.

(** What a table asks of the value of a field. *)
Definition nestable (v : jsval) : Prop :=
  serializable v /\ escapable v = true /\ is_pair_construct v = false.

(** ** Nesting *)

(** The number of containers around the innermost value: the largest [k]
    at which [rec] works out an indentation for the value at nesting 0. *)
Fixpoint depth (v : jsval) : nat :=
  match v with
  | JArr elems => S (fold_right (fun e m => Nat.max (depth e) m) 0 elems)
  | JObj props => S (fold_right (fun kv m => Nat.max (depth (snd kv)) m) 0 props)
  | _ => 0
  end.

(** The runtime refuses to build a string beyond a length that depends on
    the engine, with a RangeError; the model has unbounded strings and no
    such exception.  A small input reaches the limit through the
    indentation that line 29 asks lodash's [repeat] for, which is then
    copied in front of every line.  [string_limit] is the smallest limit
    of the engines in use (V8 on a 32-bit platform, 2^28 - 16). *)
Definition string_limit : Z := 268435440.

Definition text_of (r : result string) : string :=
  match r with
  | Ok s => s
  | Throw _ => ""
  end.

Definition largest (l : list Z) : Z := fold_right Z.max 0%Z l.

(** The length of the longest string that a call of [rec] builds, the
    calls inside it included.  For a Sequence that is the brace block of
    lines 31 and 33, of which the indentations, the items and the joined
    text are parts; for a Mapping it is the block of lines 45 to 47 and 52,
    which with indentation on is built for a property entry as well, or
    the text returned for the entry.  An element that makes [rec] throw
    counts with the strings built inside it and an empty text. *)
Fixpoint longest (options : Options) (value : jsval) (i : nat) {struct value} : Z :=
  let sq := truthy (singleQuote options) in
  let nl := eol_string options in
  let pad := indentation (spaces options) (S i) in
  let padEnd := indentation (spaces options) i in
  let len := fun s : string => Z.of_nat (String.length s) in
  match value with
  | JArr [] => 2%Z
  | JArr elems =>
      let texts := map (fun e => text_of (rec options e (S i))) elems in
      let block :=
        if truthy (spaces options)
        then "{" ++ nl ++ join nl (map (fun r => pad ++ r ++ ",") texts)
                 ++ nl ++ padEnd ++ "}"
        else "{" ++ join "" (map (fun r => r ++ ",") texts) ++ "}" in
      largest (len block :: map (fun e => longest options e (S i)) elems)
  | JObj [] => 2%Z
  | JObj props =>
      let rendered := map (fun kv => (fst kv, text_of (rec options (snd kv) (S i))))
                          props in
      let block :=
        if truthy (spaces options)
        then "{" ++ nl ++ join nl
                   (map (fun kr => pad ++ formatLuaKey (fst kr) sq ++ " = "
                                   ++ snd kr ++ ",") rendered)
                 ++ nl ++ padEnd ++ "}"
        else "{" ++ join "" (map (fun kr => formatLuaKey (fst kr) sq ++ "="
                                            ++ snd kr ++ ",") rendered) ++ "}" in
      largest (len block :: len (text_of (rec options value i))
                   :: map (fun kv => longest options (snd kv) (S i)) props)
  | _ => len (text_of (rec options value i))
  end.

(** No string of the call [format(value, options)] outgrows the limit: the
    text returned is [return], at most one blank and the text of [rec]. *)
Definition text_fits (o : Options) (v : jsval) : Prop :=
  (7 + longest o v 0 <= string_limit)%Z.


(** No Mapping without an entry, at any depth. *)
Fixpoint no_empty_mapping (v : jsval) : bool :=
  match v with
  | JArr elems => forallb no_empty_mapping elems
  | JObj [] => false
  | JObj props => forallb (fun kv => no_empty_mapping (snd kv)) props
  | _ => true
  end.

(** ** The call of [format] on the objects of a store *)

(** [format_step] above takes the value as a tree and the options as an
    object apart from it.  Here the two arguments are what the program is
    handed: references into a store of objects, where the options object
    may be the value or a part of it. *)
Definition loc : Type := nat.

(** What a variable or a property holds: a primitive, or a reference. *)
Inductive sval : Type :=
| SUndefined
| SNull
| SBool (b : bool)
| SNum (n : number)
| SStr (s : string)
| SRef (l : loc).

(** An object of the store: an array with its elements, or an object with
    its own properties in order.  An object that is [frozen] takes no
    write: the module is not in strict mode, and an assignment to a
    property of such an object does nothing and goes unnoticed. *)
Inductive cell : Type :=
| Arr (elems : list sval)
| Obj (frozen : bool) (props : list (string * sval)).

Definition store : Type := loc -> option cell.

Fixpoint replace_prop (k : string) (v : sval) (props : list (string * sval))
  : list (string * sval) :=
  match props with
  | [] => []
  | (k', v') :: rest =>
      if k' =? k then (k', v) :: rest else (k', v') :: replace_prop k v rest
  end.

(** [object[k] = v] for a key that is neither an array index nor
    [__proto__], as the three keys of lines 10 to 12 are: an existing
    property keeps its place, a new one goes to the end. *)
Definition assign (props : list (string * sval)) (k : string) (v : sval)
  : list (string * sval) :=
  if has_own k props then replace_prop k v props else (props ++ [(k, v)])%list.

Definition write (st : store) (l : loc) (k : string) (v : sval) : store :=
  fun l' =>
    if Nat.eqb l' l
    then match st l with
         | Some (Obj false props) => Some (Obj false (assign props k v))
         | other => other
         end
    else st l'.

(** [object.k] on the object at [l]. *)
Definition field (st : store) (l : loc) (k : string) : sval :=
  match st l with
  | Some (Obj _ props) =>
      match lookup k props with Some x => x | None => SUndefined end
  | _ => SUndefined
  end.

(** The right-hand sides of lines 10 to 12. *)
Definition eol_written (v : sval) : sval :=
  match v with SStr _ => v | _ => SStr (str1 newline) end.

Definition singleQuote_written (v : sval) : sval :=
  match v with SBool _ => v | _ => SBool true end.

Definition spaces_written (v : sval) : sval :=
  match v with SNull | SNum _ | SStr _ => v | _ => SNum (Int 2) end.

Definition omap {A B : Type} (f : A -> option B) : list A -> option (list B) :=
  fix go (l : list A) : option (list B) :=
    match l with
    | [] => Some []
    | x :: rest =>
        match f x, go rest with
        | Some y, Some ys => Some (y :: ys)
        | _, _ => None
        end
    end.

(** The tree [rec] walks when it is handed [v]: the objects are read from
    the store.  The walk of the model ends without a tree, after [fuel]
    nested objects, on a value that holds itself. *)
Fixpoint read (fuel : nat) (st : store) (v : sval) : option jsval :=
  match v with
  | SUndefined => Some JUndefined
  | SNull => Some JNull
  | SBool b => Some (JBool b)
  | SNum n => Some (JNum n)
  | SStr s => Some (JStr s)
  | SRef l =>
      match fuel with
      | O => None
      | S fuel' =>
          match st l with
          | None => None
          | Some (Arr elems) => option_map JArr (omap (read fuel' st) elems)
          | Some (Obj _ props) =>
              option_map JObj
                (omap (fun kv => option_map (pair (fst kv)) (read fuel' st (snd kv)))
                      props)
          end
      end
  end.

(** The object at [l] is not met on that walk. *)
Fixpoint avoids (fuel : nat) (st : store) (l : loc) (v : sval) : bool :=
  match v with
  | SRef l' =>
      negb (Nat.eqb l' l)
      && match fuel with
         | O => true
         | S fuel' =>
             match st l' with
             | None => true
             | Some (Arr elems) => forallb (avoids fuel' st l) elems
             | Some (Obj _ props) => forallb (fun kv => avoids fuel' st l (snd kv)) props
             end
         end
  | _ => true
  end.

(** A primitive as a value of the tree model. *)
Definition prim (v : sval) : option jsval :=
  match v with
  | SUndefined => Some JUndefined
  | SNull => Some JNull
  | SBool b => Some (JBool b)
  | SNum n => Some (JNum n)
  | SStr s => Some (JStr s)
  | SRef _ => None
  end.

(** What lines 10 to 12 see of an option: a primitive, or some object. *)
Definition kind_of (v : sval) : jsval :=
  match prim v with Some p => p | None => JObj [] end.

(** The options [rec] reads, once the three assignments are done: [eol] is
    the constant of line 10, [singleQuote] and [spaces] are read from the
    object each time.  On an object that took the writes they are a
    boolean and [null], a number or a string.  On a frozen object they are
    what they were; the model follows the run when they are primitives
    and [spaces] is not [true], for which [indentation] has no text. *)
Definition options_read (st : store) (l : loc) (e : sval) : option Options :=
  match prim e, prim (field st l "singleQuote"), prim (field st l "spaces") with
  | Some e', Some q, Some p =>
      if kept_spaces p || negb (truthy p) then Some (mkOptions e' q p) else None
  | _, _, _ => None
  end.

(** Lines 10 to 12: the store after the three assignments to the options
    object at [l].  Nothing else in [format] writes, so this is the store
    the call leaves, whether it returns, throws or does not come back. *)
Definition options_written (st : store) (l : loc) : store :=
  let st1 := write st l "eol" (eol_written (field st l "eol")) in
  let st2 := write st1 l "singleQuote"
                   (singleQuote_written (field st1 l "singleQuote")) in
  write st2 l "spaces" (spaces_written (field st2 l "spaces")).

(** [format(value, options)] (lines 8 to 61) for an options object at [l]:
    the store after the call, and the text or the exception.  There is no
    outcome when the walk of the value does not end within [fuel] nested
    objects. *)
Definition format_in_store (fuel : nat) (st : store) (value : sval) (l : loc)
  : option (store * result string) :=
  match st l with
  | Some (Obj _ _) =>
      let e := eol_written (field st l "eol") in
      let st3 := options_written st l in
      match options_read st3 l e, read fuel st3 value with
      | Some o, Some tree =>
          Some (st3, do r <- rec o tree 0; Ok ("return" ++ lead o ++ r))
      | _, _ => None
      end
  | _ => None
  end.

(** The options object at [l] as [format_step] takes it: of a field that
    holds an object, lines 10 to 12 see only that it is no string, boolean,
    number or [null]. *)
Definition options_given (st : store) (l : loc) : Options :=
  mkOptions (kind_of (field st l "eol")) (kind_of (field st l "singleQuote"))
            (kind_of (field st l "spaces")).

(** ** The Lua text of a literal *)

(** What the parser is taken to do: it reads a chunk as the grammar of
    Lua has it, and hands over the tree with the node shapes of the
    deserializer.  The relations below give that grammar for the texts of
    literals: which text stands for which tree.  White space, which may
    be empty, goes between any two tokens; a name, a number or a keyword
    needs some where it follows the keyword [return]. *)
Definition lua_blank (w : string) : bool := all_chars is_space w.

(** The body of a quoted string and the string it stands for: a character
    other than the quote, the backslash and the line breaks stands for
    itself, and a backslash followed by a quote for that quote. *)
Inductive lua_string_body (q : ascii) : string -> string -> Prop :=
| body_end : lua_string_body q "" ""
| body_plain (c : ascii) (text s : string) :
    Ascii.eqb c q = false -> Ascii.eqb c backslash = false ->
    Ascii.eqb c newline = false -> Ascii.eqb c creturn = false ->
    lua_string_body q text s ->
    lua_string_body q (String c text) (String c s)
| body_quote (c : ascii) (text s : string) :
    c = squote \/ c = dquote ->
    lua_string_body q text s ->
    lua_string_body q (String backslash (String c text)) (String c s).

(** An expression: [nil], [true], [false]; the decimal numeral of a safe
    integer, alone or after a minus sign; a string between two single or
    two double quotes; a table constructor, whose fields each end with a
    comma.  A field is an expression, a name that is no keyword followed
    by [=] and an expression, or an expression between brackets followed
    by [=] and an expression. *)
Inductive lua_exp : string -> ast -> Prop :=
| exp_nil : lua_exp "nil" NilLiteral
| exp_true : lua_exp "true" (BooleanLiteral true)
| exp_false : lua_exp "false" (BooleanLiteral false)
| exp_number (z : Z) :
    (0 <= z <= MAX_SAFE_INTEGER)%Z ->
    lua_exp (number_toString (Int z)) (NumericLiteral (Int z))
| exp_negative (z : Z) :
    (0 <= z <= MAX_SAFE_INTEGER)%Z ->
    lua_exp ("-" ++ number_toString (Int z))
            (UnaryExpression "-" (NumericLiteral (Int z)))
| exp_string (q : ascii) (body s : string) :
    q = squote \/ q = dquote ->
    lua_string_body q body s ->
    lua_exp (str1 q ++ body ++ str1 q) (StringLiteral s)
| exp_table (text : string) (fields : list ast) :
    lua_fields text fields ->
    lua_exp ("{" ++ text ++ "}") (TableConstructorExpression fields)
with lua_fields : string -> list ast -> Prop :=
| fields_end (w : string) : lua_blank w = true -> lua_fields w []
| fields_more (w1 ftext w2 rest : string) (field : ast) (fields : list ast) :
    lua_blank w1 = true -> lua_field ftext field -> lua_blank w2 = true ->
    lua_fields rest fields ->
    lua_fields (w1 ++ ftext ++ w2 ++ "," ++ rest) (field :: fields)
with lua_field : string -> ast -> Prop :=
| field_positional (text : string) (e : ast) :
    lua_exp text e -> lua_field text (TableValue e)
| field_named (name w1 w2 text : string) (e : ast) :
    identifier_shaped name = true -> mem name lua_keywords = false ->
    lua_blank w1 = true -> lua_blank w2 = true -> lua_exp text e ->
    lua_field (name ++ w1 ++ "=" ++ w2 ++ text) (TableKeyString (Identifier name) e)
| field_bracketed (w1 ktext w2 w3 w4 text : string) (k e : ast) :
    lua_blank w1 = true -> lua_exp ktext k -> lua_blank w2 = true ->
    lua_blank w3 = true -> lua_blank w4 = true -> lua_exp text e ->
    lua_field ("[" ++ w1 ++ ktext ++ w2 ++ "]" ++ w3 ++ "=" ++ w4 ++ text)
              (TableKey k e).

(** The text begins with a character of a name or a number. *)
Definition starts_word (text : string) : bool :=
  match text with
  | String c _ => class_tail c
  | EmptyString => false
  end.

(** A chunk that returns one expression. *)
Inductive lua_chunk : string -> ast -> Prop :=
| chunk_return (w text : string) (e : ast) :
    lua_blank w = true -> (w = "" -> starts_word text = false) ->
    lua_exp text e ->
    lua_chunk ("return" ++ w ++ text) (Chunk [ReturnStatement [e]]).

(** Options under which the white space [format] writes is white space
    of Lua: the line terminator and an indentation string hold nothing
    else. *)
Definition lua_layout (o : Options) : bool :=
  lua_blank (eol_string o)
  && match spaces o with
     | JStr s => lua_blank s
     | _ => true
     end.

(** The values whose text begins with a name or a number. *)
Definition begins_with_word (v : jsval) : bool :=
  match v with
  | JUndefined | JNull | JBool _ | JNum NaN => true
  | JNum (Int z) => (0 <=? z)%Z
  | _ => false
  end.

(** * Part II: lemmas and theorems *)

(** * Lemmas on strings and on the result monad *)

Lemma append_assoc (a b c : string) : (a ++ b) ++ c = a ++ (b ++ c).
Proof. induction a as [|x a IH]; simpl; [reflexivity|]. now rewrite IH. Qed.

Lemma append_nil_r (a : string) : a ++ "" = a.
Proof. induction a as [|x a IH]; simpl; [reflexivity|]. now rewrite IH. Qed.

Lemma prefix_single (q c : ascii) (s : string) :
  prefix (str1 q) (String c s) = Ascii.eqb c q.
Proof.
  unfold str1. simpl.
  destruct (ascii_dec q c) as [->|Hne].
  - rewrite Ascii.eqb_refl. now destruct s.
  - symmetry. apply Ascii.eqb_neq. congruence.
Qed.

Lemma prefix_pair (a b c d : ascii) (s : string) :
  prefix (String a (str1 b)) (String c (String d s)) = Ascii.eqb c a && Ascii.eqb d b.
Proof.
  unfold str1. simpl.
  destruct (ascii_dec a c) as [->|Hne].
  - rewrite Ascii.eqb_refl. simpl.
    destruct (ascii_dec b d) as [->|Hne].
    + rewrite Ascii.eqb_refl. now destruct s.
    + symmetry. apply Ascii.eqb_neq. congruence.
  - replace (Ascii.eqb c a) with false; [reflexivity|].
    symmetry. apply Ascii.eqb_neq. congruence.
Qed.

Lemma prefix_pair_short (a b c : ascii) :
  prefix (String a (str1 b)) (str1 c) = false.
Proof. unfold str1. simpl. now destruct (ascii_dec a c). Qed.

Lemma replace_from_scan (pat rep : string) (c : ascii) (s : string) :
  replace_from pat rep 0 (String c s)
  = if prefix pat (String c s)
    then rep ++ replace_from pat rep (Nat.pred (String.length pat)) s
    else String c (replace_from pat rep 0 s).
Proof. reflexivity. Qed.

Lemma replace_from_skip (pat rep : string) (k : nat) (c : ascii) (s : string) :
  replace_from pat rep (S k) (String c s) = replace_from pat rep k s.
Proof. reflexivity. Qed.

Lemma replace_all_single (q : ascii) (rep : string) (s : string) :
  replace_all (str1 q) rep s = rewrite_chars q rep s.
Proof.
  unfold replace_all.
  induction s as [|c s IH]; [reflexivity|].
  rewrite replace_from_scan, prefix_single.
  cbn [String.length str1 Nat.pred rewrite_chars].
  now rewrite IH.
Qed.

Lemma replace_all_pair (a b : ascii) (rep : string) (s : string) :
  replace_all (String a (str1 b)) rep s = rewrite_pairs a b rep s.
Proof.
  unfold replace_all.
  enough (H : replace_from (String a (str1 b)) rep 0 s = rewrite_pairs a b rep s
              /\ forall c, replace_from (String a (str1 b)) rep 0 (String c s)
                           = rewrite_pairs a b rep (String c s)) by apply H.
  induction s as [|d s [IH0 IH1]].
  - split; [reflexivity|]. intros c.
    rewrite replace_from_scan.
    change (String c "") with (str1 c). now rewrite prefix_pair_short.
  - split; [apply IH1|]. intros c.
    rewrite replace_from_scan, prefix_pair.
    cbn [String.length str1 Nat.pred].
    rewrite replace_from_skip, IH0, IH1. reflexivity.
Qed.

Lemma escape_quote_rewrite (q : ascii) (s : string) :
  rewrite_chars q (String backslash (str1 q)) s = escape_quote q s.
Proof.
  induction s as [|c s IH]; [reflexivity|].
  simpl. destruct (Ascii.eqb c q) eqn:E; rewrite IH; [|reflexivity].
  apply Ascii.eqb_eq in E. now subst.
Qed.

Lemma formatLuaString_spec (s : string) (sq : bool) :
  formatLuaString s sq = quote_text (if sq then squote else dquote) s.
Proof.
  unfold formatLuaString, quote_text.
  destruct sq; now rewrite replace_all_single, escape_quote_rewrite.
Qed.

(** * The key pattern *)

Lemma regex_test_empty (s : string) : regex_test ReEmpty s = false.
Proof. induction s; simpl; auto. Qed.

Lemma regex_test_alt (r1 r2 : regex) (s : string) :
  regex_test (ReAlt r1 r2) s = regex_test r1 s || regex_test r2 s.
Proof.
  revert r1 r2. induction s as [|a s IH]; intros r1 r2; simpl; [reflexivity|].
  apply IH.
Qed.

Lemma regex_test_seq_empty (r : regex) (s : string) :
  regex_test (ReSeq ReEmpty r) s = false.
Proof. induction s; simpl; auto. Qed.

Lemma regex_test_seq_eps (r : regex) (s : string) :
  regex_test (ReSeq ReEps r) s = regex_test r s.
Proof.
  destruct s as [|a s]; simpl; [reflexivity|].
  now rewrite regex_test_alt, regex_test_seq_empty.
Qed.

Lemma regex_test_star_class (p : ascii -> bool) (s : string) :
  regex_test (ReStar (ReClass p)) s = all_chars p s.
Proof.
  induction s as [|a s IH]; simpl; [reflexivity|].
  destruct (p a); simpl.
  - now rewrite regex_test_seq_eps.
  - apply regex_test_seq_empty.
Qed.

Lemma all_chars_ext (p q : ascii -> bool) (s : string) :
  (forall c, p c = q c) -> all_chars p s = all_chars q s.
Proof. intros H. induction s as [|c s IH]; simpl; [reflexivity|]. now rewrite H, IH. Qed.

Lemma key_regex_identifier (s : string) :
  regex_test key_regex s = identifier_shaped s.
Proof.
  destruct s as [|c s]; [reflexivity|].
  unfold key_regex, identifier_shaped. simpl regex_test.
  change (class_head c) with (is_letter c || Ascii.eqb c "_").
  destruct (is_letter c || Ascii.eqb c "_"); simpl.
  - rewrite regex_test_seq_eps, regex_test_star_class.
    apply all_chars_ext. intros d. unfold class_tail, is_letter, is_digit.
    destruct (in_range "a" "z" d), (in_range "A" "Z" d), (Ascii.eqb d "_"),
      (in_range "0" "9" d); reflexivity.
  - apply regex_test_seq_empty.
Qed.

Lemma formatLuaKey_spec (key : string) (sq : bool) :
  formatLuaKey key sq = rendered_key (if sq then squote else dquote) key.
Proof.
  unfold formatLuaKey, rendered_key.
  now rewrite key_regex_identifier, formatLuaString_spec.
Qed.

(** * The options in force *)

Lemma format_unfold (value : jsval) (options : option Options) :
  format value options
  = do r <- rec (effective options) value 0;
    Ok ("return" ++ lead (effective options) ++ r).
Proof. destruct options; reflexivity. Qed.

Lemma quote_in_force (options : option Options) :
  (if truthy (singleQuote (effective options)) then squote else dquote)
  = configured_quote (supplied options).
Proof.
  unfold effective, configured_quote, supplied.
  destruct options as [o|]; [|reflexivity].
  simpl. destruct (singleQuote o) as [| |[|]| | | |]; reflexivity.
Qed.

(** * Text and keys (C7, C8) *)

(** C7.  A Text value is written between two copies of the configured quote
    character, with a backslash put in front of each occurrence of that
    character and nothing else changed: at top level after [return], and
    at every depth inside a container. *)
Theorem text_quoting (s : string) (options : option Options) :
  format (JStr s) options
  = Ok ("return" ++ lead (effective options)
        ++ quote_text (configured_quote (supplied options)) s)
  /\ forall i : nat,
       rec (effective options) (JStr s) i
       = Ok (quote_text (configured_quote (supplied options)) s).
Proof.
  assert (H : forall i, rec (effective options) (JStr s) i
                        = Ok (quote_text (configured_quote (supplied options)) s)).
  { intros i. cbn [rec]. now rewrite formatLuaString_spec, quote_in_force. }
  split; [|exact H].
  rewrite format_unfold, H. reflexivity.
Qed.

Example text_quoting_single :
  format (JStr "a'b") (Some (mkOptions JUndefined (JBool true) JUndefined))
  = Ok "return 'a\'b'".
Proof. reflexivity. Qed.

Example text_quoting_double :
  format (JStr "a'b") (Some (mkOptions JUndefined (JBool false) JUndefined))
  = Ok ("return " ++ str1 dquote ++ "a'b" ++ str1 dquote).
Proof. reflexivity. Qed.

(** C8.  A Mapping key is written bare exactly when it is a letter or an
    underscore followed by letters, digits and underscores, and otherwise
    in brackets as a string in the configured quote character: for the
    function that writes keys, and for a Mapping entry under every
    options object, indented or compact. *)
Theorem key_rendering (key : string) (options : option Options) :
  (forall sq : bool,
      formatLuaKey key sq
      = if identifier_shaped key then key
        else "[" ++ quote_text (if sq then squote else dquote) key ++ "]")
  /\ format (JObj [(key, JNull)]) options
     = let o := effective options in
       let k := rendered_key (configured_quote (supplied options)) key in
       Ok (if truthy (spaces o)
           then "return {" ++ eol_string o ++ indentation (spaces o) 1
                ++ k ++ " = nil," ++ eol_string o ++ indentation (spaces o) 0 ++ "}"
           else "return{" ++ k ++ "=nil,}").
Proof.
  split.
  - intros sq. now rewrite formatLuaKey_spec.
  - rewrite format_unfold. cbv zeta. unfold lead.
    cbn [rec mapM bind snd fst map join].
    rewrite formatLuaKey_spec, quote_in_force.
    destruct (truthy (spaces (effective options))).
    + assert (Hty : is_property [(key, JNull)] = false).
      { unfold is_property. simpl. now destruct (key =? "type"). }
      rewrite Hty. cbn [bind]. now rewrite !append_assoc.
    + cbn [bind]. now rewrite !append_assoc.
Qed.

Example key_rendering_bare :
  format (JObj [("a_1", JNull); ("1a", JNull); ("", JNull)])
         (Some (mkOptions JUndefined JUndefined JNull))
  = Ok "return{a_1=nil,['1a']=nil,['']=nil,}".
Proof. reflexivity. Qed.

(** * The string-escaping step (C5) *)

Lemma escape_string (s : string) : escape (JStr s) = Ok (JStr (escape_text s)).
Proof.
  unfold escape, escape_text.
  destruct (truthy (JStr s)) eqn:E.
  - cbn [append str1].
    rewrite (replace_all_single newline), (replace_all_pair backslash backslash),
      (replace_all_pair backslash "r"), (replace_all_pair backslash "n").
    reflexivity.
  - simpl in E. apply negb_false_iff, String.eqb_eq in E. now subst.
Qed.

(** The claim of C5 fails on a backslash that has no partner: the code
    leaves it single, the specified first step doubles it. *)
Lemma escape_lone_backslash :
  escape (JStr (String backslash "a")) = Ok (JStr (String backslash "a"))
  /\ escape_as_specified (String backslash "a")
     = String backslash (String backslash "a")
  /\ escape (JStr (String backslash "a"))
     <> Ok (JStr (escape_as_specified (String backslash "a"))).
Proof. repeat split; try reflexivity. vm_compute. discriminate. Qed.

(** C5, amended.  On a Text the step rewrites, in this order: each pair of
    consecutive backslashes to four backslashes, then backslash-r to
    backslash-backslash-r, then backslash-n to backslash-backslash-n, then
    each newline character to backslash-n.  A value that is not a string
    and has no truthy [replace] property comes back unchanged. *)
Theorem escape_steps :
  (forall s : string, escape (JStr s) = Ok (JStr (escape_text s)))
  /\ (forall v : jsval,
         isString v = false ->
         (forall props r, v = JObj props -> lookup "replace" props = Some r ->
                          truthy r = false) ->
         escape v = Ok v).
Proof.
  split; [exact escape_string|].
  intros v Hs Hr.
  destruct v; try reflexivity; [discriminate|].
  unfold escape. destruct (lookup "replace" props) as [r|] eqn:E; [|reflexivity].
  now rewrite (Hr props r eq_refl E).
Qed.

Lemma escape_steps_witness :
  escape (JStr (String backslash (String backslash (String backslash
            (String "n" (String newline "a"))))))
  = Ok (JStr (String backslash (String backslash (String backslash (String backslash
            (String backslash (String backslash (String "n"
            (String backslash "na")))))))))
  /\ escape (JObj [("replace", JNull); ("a", JStr (str1 backslash))])
     = Ok (JObj [("replace", JNull); ("a", JStr (str1 backslash))]).
Proof.
  destruct escape_steps as [Hs Hv]. split.
  - rewrite Hs. reflexivity.
  - apply Hv; [reflexivity|].
    intros props r Hp Hl. injection Hp as <-. simpl in Hl. injection Hl as <-.
    reflexivity.
Defined.

Example escape_object_with_replace :
  escape (JObj [("replace", JNum (Int 1))]) = Throw TypeError.
Proof. reflexivity. Qed.

(** * Induction on values *)

Lemma mapM_cons {A B : Type} (f : A -> result B) (x : A) (l : list A) :
  mapM f (x :: l) = do y <- f x; do ys <- mapM f l; Ok (y :: ys).
Proof. reflexivity. Qed.

Lemma mapM_ok {A B : Type} (f : A -> result B) (g : A -> B) (l : list A) :
  Forall (fun x => f x = Ok (g x)) l -> mapM f l = Ok (map g l).
Proof.
  induction 1 as [|x l Hx _ IH]; [reflexivity|].
  rewrite mapM_cons, Hx, IH. reflexivity.
Qed.

Lemma mapM_ext {A B : Type} (f g : A -> result B) (l : list A) :
  Forall (fun x => f x = g x) l -> mapM f l = mapM g l.
Proof.
  induction 1 as [|x l Hx _ IH]; [reflexivity|].
  now rewrite !mapM_cons, Hx, IH.
Qed.

Lemma mapM_Forall2 {A B : Type} (f : A -> result B) (R : A -> B -> Prop) (l : list A) :
  Forall (fun x => exists y, f x = Ok y /\ R x y) l ->
  exists ys, mapM f l = Ok ys /\ Forall2 R l ys.
Proof.
  induction 1 as [|x l (y & Hy & HR) _ (ys & Hys & HRs)].
  - exists []. split; [reflexivity|constructor].
  - exists (y :: ys). rewrite mapM_cons, Hy, Hys. split; [reflexivity|].
    now constructor.
Qed.

Lemma mapM_inv {A B : Type} (f : A -> result B) (l : list A) (ys : list B) :
  mapM f l = Ok ys -> Forall2 (fun x y => f x = Ok y) l ys.
Proof.
  revert ys. induction l as [|x l IH]; intros ys H.
  - injection H as <-. constructor.
  - rewrite mapM_cons in H. destruct (f x) as [y|] eqn:Hy; [|discriminate].
    cbn [bind] in H. destruct (mapM f l) as [ys'|]; [|discriminate].
    injection H as <-. constructor; auto.
Qed.

Lemma mapM_length {A B : Type} (f : A -> result B) (l : list A) (ys : list B) :
  mapM f l = Ok ys -> List.length ys = List.length l.
Proof. intros H. apply mapM_inv in H. symmetry. eapply Forall2_length; eauto. Qed.

(** * The options object after a call (C10) *)

Lemma normalize_idempotent (o : Options) : normalize (normalize o) = normalize o.
Proof.
  unfold normalize. simpl.
  destruct (eol o), (singleQuote o), (spaces o); reflexivity.
Qed.

Example format_step_on_throw :
  format_step (mkCall JUndefined (mkOptions (JNum (Int 1)) JNull (JBool false)))
  = (mkCall JUndefined default_options, Throw cant_format).
Proof. reflexivity. Qed.

(** * Compact output (C6) *)

Lemma all_chars_app (p : ascii -> bool) (a b : string) :
  all_chars p (a ++ b) = all_chars p a && all_chars p b.
Proof.
  induction a as [|c a IH]; simpl; [reflexivity|].
  now rewrite IH, andb_assoc.
Qed.







Lemma number_toString_nonempty (n : number) : number_toString n <> "".
Proof.
  destruct n as [|z]; [discriminate|].
  unfold number_toString, NilZero.string_of_int, NilZero.string_of_uint.
  destruct (Z.to_int z) as [d|d]; destruct d; discriminate.
Qed.




Lemma compact_spaces_kept (o : Options) :
  compact_spaces (spaces o) = true -> truthy (spaces (normalize o)) = false.
Proof.
  unfold compact_spaces. intros H. apply andb_true_iff in H as [Hf Hk].
  cbn [normalize spaces]. rewrite Hk. now apply negb_true_iff.
Qed.



Lemma contains_undefined_elem (x : jsval) (l : list jsval) :
  existsb contains_undefined l = false -> In x l -> contains_undefined x = false.
Proof.
  intros H Hx. destruct (contains_undefined x) eqn:E; [|reflexivity].
  rewrite <- H. symmetry. apply existsb_exists. eauto.
Qed.

Lemma contains_undefined_prop (x : string * jsval) (l : list (string * jsval)) :
  existsb (fun kv => contains_undefined (snd kv)) l = false -> In x l ->
  contains_undefined (snd x) = false.
Proof.
  intros H Hx. destruct (contains_undefined (snd x)) eqn:E; [|reflexivity].
  rewrite <- H. symmetry. apply existsb_exists. eauto.
Qed.

Lemma join_empty (l : list string) : join "" l = concat_all l.
Proof.
  induction l as [|x l IH]; [reflexivity|].
  destruct l as [|y l]; [symmetry; apply append_nil_r|].
  change (join "" (x :: y :: l)) with (x ++ join "" (y :: l)). now rewrite IH.
Qed.




Example compact_output_text :
  format (JArr [JNum (Int 1); JObj [("a", JStr "x"); ("b-c", JNull)]])
         (Some (mkOptions (JStr "; ") JUndefined (JStr "")))
  = Ok "return{1,{a='x',['b-c']=nil,},}".
Proof. reflexivity. Qed.

(** * Property entries (C3) *)


(** C3 at a failing input.  In compact mode a property entry inside a
    Sequence is written as a table of its three fields, in braces, and not
    as [[5] = 'v']; with the default indentation it is written as the
    bracket-key assignment. *)
Theorem property_entry_compact :
  format (JArr [JNum (Int 1); property_entry (JNum (Int 5)) (JStr "v")])
         (Some (mkOptions JUndefined JUndefined (JNum (Int 0))))
  = Ok "return{1,{type='property',key=5,value='v',},}"
  /\ format (JArr [JNum (Int 1); property_entry (JNum (Int 5)) (JStr "v")]) None
     = Ok ("return {" ++ str1 newline ++ "  1," ++ str1 newline
           ++ "  [5] = 'v'," ++ str1 newline ++ "}").
Proof. split; reflexivity. Qed.

(** * Failures (C9) *)

Lemma mapM_throw {A B : Type} (f : A -> result B) (l : list A) (e : exn) :
  mapM f l = Throw e -> Exists (fun x => f x = Throw e) l.
Proof.
  induction l as [|x l IH]; [discriminate|].
  rewrite mapM_cons. destruct (f x) as [y|e'] eqn:Hx; cbn [bind].
  - destruct (mapM f l) as [ys|e'']; [discriminate|].
    intros H. injection H as ->. right. now apply IH.
  - intros H. injection H as ->. now left.
Qed.

Lemma mapM_throws {A B : Type} (f : A -> result B) (l : list A) :
  Exists (fun x => exists e, f x = Throw e) l -> exists e, mapM f l = Throw e.
Proof.
  induction 1 as [x l (e & He)|x l _ (e & He)]; rewrite mapM_cons.
  - rewrite He. now exists e.
  - destruct (f x) as [y|e']; cbn [bind].
    + rewrite He. now exists e.
    + now exists e'.
Qed.

Lemma bind_throw {A B : Type} (r : result A) (k : A -> result B) (e : exn) :
  bind r k = Throw e -> r = Throw e \/ exists a, r = Ok a /\ k a = Throw e.
Proof.
  destruct r as [a|e']; cbn [bind]; intros H; [right; eauto|left].
  now injection H as ->.
Qed.

Lemma ToString_throw (v : jsval) (e : exn) : ToString v = Throw e -> e = TypeError.
Proof.
  revert e. induction v as [| |b|n|s|elems IH|props IH] using jsval_nested_ind;
    intros e; cbn [ToString]; try discriminate.
  - intros H. apply bind_throw in H as [H|(a & _ & H)]; [|discriminate].
    apply mapM_throw in H. rewrite Forall_forall in IH. rewrite Exists_exists in H.
    destruct H as (x & Hx & H). destruct x; try discriminate; eapply (IH _ Hx); exact H.
  - destruct (lookup "toString" props); [|discriminate]. now intros [= <-].
Qed.












(** A value that holds [undefined] is not written. *)
Lemma rec_undefined_throws (o : Options) (v : jsval) :
  contains_undefined v = true -> forall i, exists e, rec o v i = Throw e.
Proof.
  induction v as [| |b|n|s|elems IH|props IH] using jsval_nested_ind;
    cbn [contains_undefined]; try discriminate; intros H i.
  - now exists cant_format.
  - apply existsb_exists in H as (x & Hx & Hu). rewrite Forall_forall in IH.
    destruct elems as [|e0 elems]; [contradiction|]. cbn [rec].
    assert (Hf : forall (k : string -> string),
               exists e, mapM (fun e => do r <- rec o e (S i); Ok (k r)) (e0 :: elems)
                         = Throw e).
    { intros k. apply mapM_throws, Exists_exists. exists x. split; [exact Hx|].
      destruct (IH x Hx Hu (S i)) as (e & He). exists e. now rewrite He. }
    destruct (truthy (spaces o)).
    + destruct (Hf (fun r => indentation (spaces o) (S i) ++ r ++ ",")) as (e & He).
      exists e. now rewrite He.
    + destruct (Hf (fun r => r ++ ",")) as (e & He). exists e. now rewrite He.
  - apply existsb_exists in H as (x & Hx & Hu). rewrite Forall_forall in IH.
    destruct props as [|p0 props]; [contradiction|]. cbn [rec].
    assert (Hf : exists e, mapM (fun kv => do r <- rec o (snd kv) (S i); Ok (fst kv, r))
                                (p0 :: props) = Throw e).
    { apply mapM_throws, Exists_exists. exists x. split; [exact Hx|].
      destruct (IH x Hx Hu (S i)) as (e & He). exists e. now rewrite He. }
    destruct Hf as (e & He). exists e. destruct (truthy (spaces o)); now rewrite He.
Qed.

Lemma lookup_same_keys {A B : Type} (k : string) (l : list (string * A))
      (l' : list (string * B)) :
  Forall2 (fun x y => fst y = fst x) l l' ->
  has_own k l = true -> exists r, lookup k l' = Some r.
Proof.
  unfold has_own. induction 1 as [|[k1 a] [k2 b] l l' Hk _ IH]; [discriminate|].
  simpl in Hk. subst k2. simpl. destruct (k1 =? k); eauto.
Qed.

Lemma ToString_primitive (v : jsval) : primitive v = true -> exists s, ToString v = Ok s.
Proof. destruct v; try discriminate; intros _; cbn [ToString]; eauto. Qed.

(** A value without [undefined] whose property entries are well formed is
    written. *)
Lemma rec_defined_ok (o : Options) (v : jsval) :
  contains_undefined v = false -> entries_well_formed v = true ->
  forall i, exists r, rec o v i = Ok r.
Proof.
  induction v as [| |b|n|s|elems IH|props IH] using jsval_nested_ind;
    cbn [contains_undefined entries_well_formed]; try discriminate; intros Hu Hw i;
    try (cbn [rec]; eauto; fail).
  - destruct elems as [|e0 elems]; [cbn [rec]; eauto|]. cbn [rec].
    assert (Hf : forall (k : string -> string),
               exists items, mapM (fun e => do r <- rec o e (S i); Ok (k r)) (e0 :: elems)
                             = Ok items).
    { intros k.
      destruct (mapM_Forall2 (fun e => do r <- rec o e (S i); Ok (k r))
                             (fun _ _ => True) (e0 :: elems)) as (items & Hm & _);
        [|eauto].
      rewrite Forall_forall in *. intros x Hx.
      assert (Hux : contains_undefined x = false).
      { destruct (contains_undefined x) eqn:E; [|reflexivity].
        rewrite <- Hu. symmetry. apply existsb_exists. eauto. }
      rewrite forallb_forall in Hw.
      destruct (IH x Hx Hux (Hw x Hx) (S i)) as (r & Hr). exists (k r).
      now rewrite Hr. }
    destruct (truthy (spaces o)).
    + destruct (Hf (fun r => indentation (spaces o) (S i) ++ r ++ ",")) as (it & He).
      rewrite He. cbn [bind]. eauto.
    + destruct (Hf (fun r => r ++ ",")) as (it & He). rewrite He. cbn [bind]. eauto.
  - destruct props as [|p0 props]; [cbn [rec]; eauto|]. cbn [rec].
    apply andb_true_iff in Hw as [Hw He].
    destruct (mapM_Forall2 (fun kv => do r <- rec o (snd kv) (S i); Ok (fst kv, r))
                           (fun kv kr => fst kr = fst kv) (p0 :: props))
      as (rendered & Hm & Hk).
    { rewrite Forall_forall in *. intros x Hx.
      assert (Hux : contains_undefined (snd x) = false).
      { destruct (contains_undefined (snd x)) eqn:E; [|reflexivity].
        rewrite <- Hu. symmetry. apply existsb_exists. eauto. }
      rewrite forallb_forall in Hw.
      destruct (IH x Hx Hux (Hw x Hx) (S i)) as (r & Hr). exists (fst x, r).
      now rewrite Hr. }
    destruct (truthy (spaces o)); rewrite Hm; cbn [bind]; [|eauto].
    destruct (is_property (p0 :: props)); [|eauto].
    apply andb_true_iff in He as [Hv Hp].
    destruct (lookup_same_keys "value" _ _ Hk Hv) as (r & Hr). rewrite Hr.
    assert (Hkey : exists s, ToString (match lookup "key" (p0 :: props) with
                                       | Some k => k
                                       | None => JUndefined
                                       end) = Ok s).
    { apply ToString_primitive. now destruct (lookup "key" (p0 :: props)). }
    destruct Hkey as (s & Hs). rewrite Hs.
    destruct (isString _); cbn [bind]; eauto.
Qed.

Lemma rec_throw_kinds (o : Options) (v : jsval) :
  forall (i : nat) (e : exn), rec o v i = Throw e -> e = cant_format \/ e = TypeError.
Proof.
  induction v as [| |b|n|s|elems IH|props IH] using jsval_nested_ind; intros i e H;
    try discriminate.
  - injection H as <-. now left.
  - destruct elems as [|e0 elems]; [discriminate|]. cbn [rec] in H.
    rewrite Forall_forall in IH.
    destruct (truthy (spaces o));
      (apply bind_throw in H as [H|(items & _ & H)]; [|discriminate];
       apply mapM_throw, Exists_exists in H; destruct H as (x & Hx & H);
       apply bind_throw in H as [H|(r & _ & H)]; [|discriminate];
       exact (IH x Hx _ _ H)).
  - destruct props as [|p0 props]; [discriminate|]. cbn [rec] in H.
    rewrite Forall_forall in IH.
    assert (Hm : forall e',
               mapM (fun kv => do r <- rec o (snd kv) (S i); Ok (fst kv, r)) (p0 :: props)
               = Throw e' -> e' = cant_format \/ e' = TypeError).
    { intros e' H'. apply mapM_throw, Exists_exists in H'. destruct H' as (x & Hx & H').
      apply bind_throw in H' as [H'|(r & _ & H')]; [|discriminate].
      exact (IH x Hx _ _ H'). }
    destruct (truthy (spaces o)).
    + apply bind_throw in H as [H|(rendered & _ & H)]; [now apply Hm|].
      destruct (is_property (p0 :: props)); [|discriminate].
      apply bind_throw in H as [H|(keytext & _ & H)].
      * right. destruct (isString _).
        -- apply bind_throw in H as [H|(k & _ & H)]; [|discriminate].
           now apply ToString_throw in H.
        -- now apply ToString_throw in H.
      * apply bind_throw in H as [H|(r & _ & H)]; [|discriminate].
        destruct (lookup "value" rendered); [discriminate|].
        injection H as <-. now left.
    + apply bind_throw in H as [H|(rendered & _ & H)]; [now apply Hm|discriminate].
Qed.





Example unsupported_inside_chunk :
  deserialize (Chunk [ReturnStatement [OtherNode "CallExpression"]])
  = Throw (Error "can't parse CallExpression").
Proof. reflexivity. Qed.

Example keyed_table_with_nil_field :
  deserialize (TableConstructorExpression
                 [TableKeyString (Identifier "a") (NumericLiteral (Int 1));
                  TableValue NilLiteral])
  = Throw TypeError.
Proof. reflexivity. Qed.

Example table_with_replace_field :
  deserialize (TableConstructorExpression
                 [TableValue (TableConstructorExpression
                    [TableKeyString (Identifier "replace") (NumericLiteral (Int 1))])])
  = Throw TypeError.
Proof. reflexivity. Qed.

(** * Tables without a key on the first field (C4) *)

Lemma escape_escapable (v : jsval) : escapable v = true -> escape v = Ok (escape_value v).
Proof.
  destruct v; try reflexivity.
  - intros _. apply escape_string.
  - unfold escapable, escape, field_of. cbn [isObject isArray negb andb escape_value].
    destruct (lookup "replace" props) as [r|]; [|reflexivity].
    now destruct (truthy r).
Qed.

Lemma get_field_of (v : jsval) (name : string) :
  v <> JUndefined -> v <> JNull -> get v name = Ok (field_of v name).
Proof. destruct v; try reflexivity; congruence. Qed.

Lemma sequence_element_member (v : jsval) :
  isNull v = false -> member_ok v = true ->
  sequence_element v = Ok (sequence_member v).
Proof.
  intros Hn Hm. unfold sequence_element, sequence_member, is_pair_construct.
  assert (Hu : v <> JUndefined) by (intros ->; discriminate).
  assert (Hnn : v <> JNull) by (intros ->; discriminate).
  rewrite !(get_field_of v) by assumption. cbn [bind].
  unfold member_ok, is_pair_construct in Hm.
  destruct (truthy (field_of v "__internal_table_key")).
  - cbn [bind]. rewrite escape_escapable; [reflexivity|]. now destruct v.
  - rewrite escape_escapable; [reflexivity|]. now destruct v.
Qed.

Lemma keyed_field_is_pair (S : string -> number) (key value : ast) (k v : jsval) :
  luaAstToJson S key = Ok k -> luaAstToJson S value = Ok v ->
  luaAstToJson S (TableKey key value) = Ok (internal_pair k v)
  /\ luaAstToJson S (TableKeyString key value) = Ok (internal_pair k v)
  /\ sequence_member (internal_pair k v) = property_entry k (escape_value v).
Proof. intros Hk Hv. cbn [luaAstToJson]. rewrite Hk, Hv. repeat split. Qed.

Lemma sequence_element_step (v : jsval) :
  v <> JUndefined -> isNull v = false -> sequence_element v = member_step v.
Proof.
  intros Hu Hn. unfold sequence_element, member_step, is_pair_construct.
  assert (Hnn : v <> JNull) by (intros ->; discriminate).
  rewrite !(get_field_of v) by assumption. cbn [bind].
  destruct (truthy (field_of v "__internal_table_key")); reflexivity.
Qed.

Lemma member_step_ok (v : jsval) :
  member_ok v = true -> member_step v = Ok (sequence_member v).
Proof.
  unfold member_ok, member_step, sequence_member. intros H.
  assert (He : escapable (if is_pair_construct v then field_of v "value" else v) = true)
    by now destruct v.
  destruct (is_pair_construct v); now rewrite (escape_escapable _ He).
Qed.

Lemma carried_pair_construct (S : string -> number) (field : ast) (r : jsval) :
  carries_pair field = true -> luaAstToJson S field = Ok r -> is_pair_construct r = true.
Proof.
  destruct field; try discriminate; intros _ H; cbn [luaAstToJson] in H;
    (destruct (luaAstToJson S field1) as [k|]; [|discriminate]); cbn [bind] in H;
    (destruct (luaAstToJson S field2) as [v|]; [|discriminate]);
    now injection H as <-.
Qed.

Lemma carried_pair_parts (S : string -> number) (field : ast) (r : jsval) :
  carries_pair field = true -> luaAstToJson S field = Ok r ->
  exists key value k x,
    (field = TableKey key value \/ field = TableKeyString key value)
    /\ luaAstToJson S key = Ok k /\ luaAstToJson S value = Ok x
    /\ field_of r "key" = k /\ field_of r "value" = x.
Proof.
  destruct field; try discriminate; intros _ H; cbn [luaAstToJson] in H;
    exists field1, field2;
    (destruct (luaAstToJson S field1) as [k|]; [|discriminate]); cbn [bind] in H;
    (destruct (luaAstToJson S field2) as [v|]; [|discriminate]);
    injection H as <-; exists k, v; repeat split; auto.
Qed.

Lemma Forall2_combine_In {A B : Type} (R : A -> B -> Prop) (l : list A) (l' : list B)
      (a : A) (b : B) :
  Forall2 R l l' -> In (a, b) (combine l l') -> R a b.
Proof.
  induction 1 as [|x y l l' Hxy _ IH]; [contradiction|].
  cbn [combine In]. intros [[= -> ->]|Hin]; auto.
Qed.

Lemma members_as_claimed (S : string -> number) (fields : list ast) (values : list jsval) :
  Forall2 (fun field r => luaAstToJson S field = Ok r) fields values ->
  (forall field v, In (field, v) (combine fields values) ->
                   carries_pair field = false -> is_pair_construct v = false) ->
  map sequence_member (filter (fun v => negb (isNull v)) values)
  = map claimed_element (kept_fields fields values).
Proof.
  induction 1 as [|field r fields values Hr _ IH]; intros Hs; [reflexivity|].
  unfold kept_fields in *. cbn [combine filter snd].
  assert (Hrest : map sequence_member (filter (fun v => negb (isNull v)) values)
                  = map claimed_element
                        (filter (fun fv => negb (isNull (snd fv))) (combine fields values))).
  { apply IH. intros f v Hin. apply Hs. now right. }
  destruct (isNull r); cbn [negb]; [exact Hrest|].
  cbn [map]. rewrite Hrest. f_equal.
  unfold sequence_member, claimed_element. cbn [fst snd].
  destruct (carries_pair field) eqn:Hc.
  - now rewrite (carried_pair_construct S field r Hc Hr).
  - now rewrite (Hs field r (or_introl eq_refl) Hc).
Qed.

(** C4 as it is stated fails: a field without a key whose value is a
    Mapping with a truthy [__internal_table_key] carried no pair, and is
    wrapped all the same, as a property entry without key and value. *)
Lemma sentinel_field_is_wrapped :
  carries_pair (TableValue (TableConstructorExpression
                  [TableKeyString (Identifier "__internal_table_key")
                                  (BooleanLiteral true)])) = false
  /\ deserialize (TableValue (TableConstructorExpression
                    [TableKeyString (Identifier "__internal_table_key")
                                    (BooleanLiteral true)]))
     = Ok (JObj [("__internal_table_key", JBool true)])
  /\ deserialize (TableConstructorExpression
                    [TableValue (TableConstructorExpression
                       [TableKeyString (Identifier "__internal_table_key")
                                       (BooleanLiteral true)])])
     = Ok (JArr [JObj [("type", JStr "property"); ("key", JUndefined);
                       ("value", JUndefined)]])
  /\ deserialize (TableConstructorExpression
                    [TableValue (TableConstructorExpression
                       [TableKeyString (Identifier "__internal_table_key")
                                       (BooleanLiteral true)])])
     <> Ok (JArr [JObj [("__internal_table_key", JBool true)]]).
Proof. split; [|split; [|split]]; try reflexivity. vm_compute. discriminate. Qed.

(** C4, amended.  A table constructor whose first field carries no key
    becomes a Sequence.  Its elements are, in field order, those of the
    fields whose deserialized value is not Nil.  The element of such a
    field is a PropertyEntry of the key and of the escaped value of the
    pair when the deserialized value has a truthy [__internal_table_key],
    as the value of every field with a key has, and otherwise the
    deserialized value with the escaping applied.  So when no field
    without a key has such a value, the elements are as the claim has
    them: a PropertyEntry for each field that carried a pair, of the
    deserialized key and the escaped deserialized value of that field,
    and the escaped value for each other field.  This is the outcome whenever the fields
    deserialize, none of the kept ones to [undefined], and the escaping
    step returns on what is escaped. *)
Theorem unkeyed_table (S : string -> number) (fields : list ast) (values : list jsval) :
  first_has_key fields = false ->
  mapM (luaAstToJson S) fields = Ok values ->
  forallb member_ok (filter (fun v => negb (isNull v)) values) = true ->
  luaAstToJson S (TableConstructorExpression fields)
  = Ok (JArr (map sequence_member (filter (fun v => negb (isNull v)) values)))
  /\ ((forall field v, In (field, v) (combine fields values) ->
                       carries_pair field = false -> is_pair_construct v = false) ->
      luaAstToJson S (TableConstructorExpression fields)
      = Ok (JArr (map claimed_element (kept_fields fields values))))
  /\ (forall field v,
         In (field, v) (combine fields values) -> carries_pair field = true ->
         exists key value k x,
           (field = TableKey key value \/ field = TableKeyString key value)
           /\ luaAstToJson S key = Ok k /\ luaAstToJson S value = Ok x
           /\ field_of v "key" = k /\ field_of v "value" = x).
Proof.
  intros Hk Hv Hm.
  assert (H : luaAstToJson S (TableConstructorExpression fields)
              = Ok (JArr (map sequence_member
                              (filter (fun v => negb (isNull v)) values)))).
  { cbn [luaAstToJson]. rewrite Hk, Hv. cbn [bind].
    rewrite (mapM_ok sequence_element sequence_member); [reflexivity|].
    rewrite forallb_forall in Hm. apply Forall_forall. intros v Hin.
    apply sequence_element_member; [|now apply Hm].
    apply filter_In in Hin as [_ Hn]. now apply negb_true_iff. }
  split; [exact H|]. split.
  - intros Hs. rewrite H.
    now rewrite (members_as_claimed S fields values (mapM_inv _ _ _ Hv) Hs).
  - intros field v Hin Hc. apply (carried_pair_parts S field v Hc).
    exact (Forall2_combine_In _ fields values field v (mapM_inv _ _ _ Hv) Hin).
Qed.

Lemma unkeyed_table_witness :
  deserialize
    (TableConstructorExpression
       [TableValue (NumericLiteral (Int 1));
        TableValue NilLiteral;
        TableValue (StringLiteral (String "a" (String newline "b")));
        TableKey (NumericLiteral (Int 5)) (StringLiteral "v");
        TableKeyString (Identifier "x") (BooleanLiteral true)])
  = Ok (JArr [JNum (Int 1);
              JStr "a\nb";
              JObj [("type", JStr "property"); ("key", JNum (Int 5));
                    ("value", JStr "v")];
              JObj [("type", JStr "property"); ("key", JStr "x");
                    ("value", JBool true)]]).
Proof.
  unfold deserialize.
  refine (proj1 (proj2 (unkeyed_table StringToNumber_decimal
                   [TableValue (NumericLiteral (Int 1));
                    TableValue NilLiteral;
                    TableValue (StringLiteral (String "a" (String newline "b")));
                    TableKey (NumericLiteral (Int 5)) (StringLiteral "v");
                    TableKeyString (Identifier "x") (BooleanLiteral true)]
                   [JNum (Int 1); JNull; JStr (String "a" (String newline "b"));
                    internal_pair (JNum (Int 5)) (JStr "v");
                    internal_pair (JStr "x") (JBool true)]
                   eq_refl eq_refl eq_refl)) _).
  intros field v Hin Hc. simpl in Hin.
  destruct Hin as [[= <- <-]|[[= <- <-]|[[= <- <-]|[[= <- <-]|[[= <- <-]|[]]]]]];
    try reflexivity; discriminate.
Defined.

Example unkeyed_table_plain :
  deserialize (TableConstructorExpression
                 [TableValue (NumericLiteral (Int 1)); TableValue (NumericLiteral (Int 2));
                  TableValue (NumericLiteral (Int 3))])
  = Ok (JArr [JNum (Int 1); JNum (Int 2); JNum (Int 3)]).
Proof. reflexivity. Qed.

(** * Tables with a key on the first field (C1) *)

Lemma fromPairs_into_assign (pairs : list (jsval * jsval)) :
  forall (object named : list (string * jsval)),
    mapM key_name pairs = Ok named ->
    ~ In "__proto__" (keys named) ->
    fromPairs_into object pairs = Ok (assign_all object named).
Proof.
  induction pairs as [|[k v] pairs IH]; intros object named H Hp.
  - injection H as <-. reflexivity.
  - rewrite mapM_cons in H. unfold key_name at 1 in H. cbn [fst snd] in H.
    cbn [fromPairs_into]. destruct (ToString k) as [name|]; [|discriminate].
    cbn [bind] in *. destruct (mapM key_name pairs) as [named'|]; [|discriminate].
    injection H as <-. cbn [keys map fst In] in Hp.
    destruct (String.eqb_spec name "__proto__") as [->|Hne]; [tauto|].
    apply (IH (obj_set object name v) named' eq_refl). tauto.
Qed.

Lemma has_own_In (k : string) (o : list (string * jsval)) :
  has_own k o = true <-> In k (keys o).
Proof.
  unfold has_own. induction o as [|[k' v'] o IH]; simpl; [split; [discriminate|tauto]|].
  destruct (k' =? k) eqn:E.
  - apply String.eqb_eq in E. subst. split; auto.
  - apply String.eqb_neq in E. rewrite IH. split; [auto|]. intros [H|H]; [contradiction|auto].
Qed.

Lemma has_own_not_In (k : string) (o : list (string * jsval)) :
  has_own k o = false <-> ~ In k (keys o).
Proof. rewrite <- has_own_In. now destruct (has_own k o). Qed.

Lemma keys_update (k : string) (v : jsval) (o : list (string * jsval)) :
  keys (update k v o) = keys o.
Proof.
  induction o as [|[k' v'] o IH]; [reflexivity|].
  simpl. destruct (k' =? k); simpl; [reflexivity|]. now f_equal.
Qed.

Lemma keys_insert_index (n : N) (k : string) (v : jsval) (o : list (string * jsval)) :
  forall x, In x (keys (insert_index n k v o)) <-> x = k \/ In x (keys o).
Proof.
  induction o as [|[k' v'] o IH]; intros x; simpl; [intuition|].
  destruct (array_index k') as [m|]; [destruct (m <? n)%N|]; simpl; rewrite ?IH;
    intuition.
Qed.

Lemma array_index_canonical (s : string) (n : N) :
  array_index s = Some n -> s = NilZero.string_of_uint (N.to_uint n).
Proof.
  unfold array_index. destruct s as [|c s]; [discriminate|].
  destruct (digits_value 0 (String c s)) as [m|]; [|discriminate].
  destruct (NilZero.string_of_uint (N.to_uint m) =? String c s) eqn:E; [|discriminate].
  destruct (m <? 4294967295)%N; [|discriminate].
  simpl. intros [= <-]. apply String.eqb_eq in E. now symmetry.
Qed.

Lemma array_index_inj (a b : string) (n : N) :
  array_index a = Some n -> array_index b = Some n -> a = b.
Proof.
  intros Ha Hb. apply array_index_canonical in Ha, Hb. congruence.
Qed.

Lemma NoDup_insert_index (n : N) (k : string) (v : jsval) (o : list (string * jsval)) :
  ~ In k (keys o) -> NoDup (keys o) -> NoDup (keys (insert_index n k v o)).
Proof.
  induction o as [|[k' v'] o IH]; intros Hk Hn.
  - simpl. constructor; [tauto|constructor].
  - assert (Hins : NoDup (keys ((k', v') :: insert_index n k v o))).
    { inversion Hn as [|? ? Hk' Ho]; subst. simpl. constructor.
      - change (~ In k' (keys (insert_index n k v o))). rewrite keys_insert_index.
        simpl in Hk. intuition.
      - apply IH; [simpl in Hk; tauto|assumption]. }
    assert (Hfront : NoDup (keys ((k, v) :: (k', v') :: o))).
    { simpl. constructor; assumption. }
    simpl insert_index.
    destruct (array_index k') as [m|]; [destruct (m <? n)%N|]; assumption.
Qed.

Lemma NoDup_obj_set (o : list (string * jsval)) (k : string) (v : jsval) :
  NoDup (keys o) -> NoDup (keys (obj_set o k v)).
Proof.
  intros Hn. unfold obj_set. destruct (k =? "__proto__"); [assumption|].
  destruct (has_own k o) eqn:E.
  - now rewrite keys_update.
  - apply has_own_not_In in E. destruct (array_index k).
    + now apply NoDup_insert_index.
    + unfold keys. rewrite map_app. simpl.
      apply NoDup_app; [assumption|constructor; [tauto|constructor]|].
      intros x Hx [<-|[]]. contradiction.
Qed.

Lemma NoDup_assign_all (named o : list (string * jsval)) :
  NoDup (keys o) -> NoDup (keys (assign_all o named)).
Proof.
  revert o. induction named as [|[k v] named IH]; intros o Hn; [assumption|].
  apply IH. now apply NoDup_obj_set.
Qed.

Lemma lookup_absent {A : Type} (x : string) (l : list (string * A)) :
  Forall (fun kv => fst kv <> x) l -> lookup x l = None.
Proof.
  induction 1 as [|[k v] l Hk _ IH]; [reflexivity|]. simpl in *.
  destruct (String.eqb_spec k x); [contradiction|assumption].
Qed.

Lemma lookup_update (x k : string) (v : jsval) (o : list (string * jsval)) :
  lookup x (update k v o)
  = if (k =? x) && has_own k o then Some v else lookup x o.
Proof.
  unfold has_own. induction o as [|[k' v'] o IH]; simpl.
  - now rewrite andb_false_r.
  - destruct (k' =? k) eqn:E.
    + apply String.eqb_eq in E. subst k'. simpl. rewrite andb_true_r.
      now destruct (k =? x).
    + simpl. rewrite IH. destruct (k' =? x) eqn:E'; [|reflexivity].
      apply String.eqb_eq in E'. subst k'.
      rewrite String.eqb_sym in E. now rewrite E.
Qed.

Lemma lookup_app_single (x k : string) (v : jsval) (o : list (string * jsval)) :
  lookup x (o ++ [(k, v)])
  = match lookup x o with
    | Some y => Some y
    | None => if k =? x then Some v else None
    end.
Proof.
  induction o as [|[k' v'] o IH]; simpl; [reflexivity|].
  now destruct (k' =? x).
Qed.

Lemma lookup_insert_index (x : string) (n : N) (k : string) (v : jsval)
      (o : list (string * jsval)) :
  has_own k o = false ->
  lookup x (insert_index n k v o) = if k =? x then Some v else lookup x o.
Proof.
  unfold has_own. induction o as [|[k' v'] o IH]; intros H; [reflexivity|].
  simpl in H. destruct (k' =? k) eqn:E; [discriminate|].
  simpl insert_index.
  destruct (array_index k') as [m|]; [destruct (m <? n)%N|]; try reflexivity.
  simpl. rewrite (IH H). destruct (k' =? x) eqn:E'; [|reflexivity].
  apply String.eqb_eq in E'. subst k'. rewrite String.eqb_sym in E. now rewrite E.
Qed.

Lemma lookup_obj_set (x : string) (o : list (string * jsval)) (k : string) (v : jsval) :
  lookup x (obj_set o k v)
  = if k =? "__proto__" then lookup x o
    else if k =? x then Some v else lookup x o.
Proof.
  unfold obj_set. destruct (k =? "__proto__"); [reflexivity|].
  destruct (has_own k o) eqn:E.
  - rewrite lookup_update, E. now rewrite andb_true_r.
  - destruct (array_index k).
    + now apply lookup_insert_index.
    + rewrite lookup_app_single. unfold has_own in E.
      destruct (k =? x) eqn:E'.
      * apply String.eqb_eq in E'. subst x. now destruct (lookup k o).
      * now destruct (lookup x o).
Qed.

Lemma lookup_assign_all (x : string) (named o : list (string * jsval)) :
  lookup x (assign_all o named)
  = if x =? "__proto__" then lookup x o
    else match lookup x (rev named) with
         | Some v => Some v
         | None => lookup x o
         end.
Proof.
  revert o. induction named as [|[k v] named IH]; intros o.
  - simpl. now destruct (x =? "__proto__").
  - change (assign_all o ((k, v) :: named)) with (assign_all (obj_set o k v) named).
    rewrite IH, lookup_obj_set. simpl rev. rewrite lookup_app_single.
    destruct (x =? "__proto__") eqn:Ex.
    + apply String.eqb_eq in Ex. subst x.
      destruct (k =? "__proto__"); reflexivity.
    + destruct (lookup x (rev named)); [reflexivity|].
      destruct (k =? "__proto__") eqn:Ek; [|now destruct (k =? x)].
      apply String.eqb_eq in Ek. subst k. rewrite String.eqb_sym in Ex. now rewrite Ex.
Qed.

Lemma key_before_index_trans (a b c : string) (n : N) :
  array_index a = Some n -> key_before a b -> key_before b c -> key_before a c.
Proof.
  unfold key_before. intros ->.
  destruct (array_index b), (array_index c); try tauto. lia.
Qed.

Lemma key_before_name (a b : string) :
  array_index a = None -> key_before a b -> array_index b = None.
Proof. unfold key_before. intros ->. now destruct (array_index b). Qed.

Lemma sorted_insert_index (n : N) (k : string) (v : jsval) (o : list (string * jsval)) :
  array_index k = Some n -> ~ In k (keys o) ->
  StronglySorted key_before (keys o) ->
  StronglySorted key_before (keys (insert_index n k v o)).
Proof.
  intros Hk. induction o as [|[k' v'] o IH]; intros Hin Hs.
  - simpl. constructor; constructor.
  - simpl in Hs. inversion Hs as [|? ? Ho Hall]; subst.
    simpl insert_index. destruct (array_index k') as [m|] eqn:Hk'.
    + destruct (m <? n)%N eqn:Hlt.
      * simpl. constructor.
        { apply IH; [simpl in Hin; tauto|assumption]. }
        apply Forall_forall. intros x Hx.
        change (In x (keys (insert_index n k v o))) in Hx.
        apply keys_insert_index in Hx as [->|Hx].
        { unfold key_before. rewrite Hk', Hk. now apply N.ltb_lt. }
        rewrite Forall_forall in Hall. auto.
      * assert (Hnm : (n < m)%N).
        { apply N.ltb_ge in Hlt. apply N.le_lteq in Hlt as [Hlt|Heq]; [assumption|].
          subst m. exfalso. apply Hin. left. eapply array_index_inj; eauto. }
        assert (Hkk' : key_before k k').
        { unfold key_before. now rewrite Hk, Hk'. }
        simpl. constructor; [assumption|]. constructor; [assumption|].
        apply Forall_forall. intros x Hx. rewrite Forall_forall in Hall.
        eapply key_before_index_trans; eauto.
    + simpl. constructor; [assumption|].
      assert (Hname : forall x, In x (k' :: keys o) -> array_index x = None).
      { intros x [<-|Hx]; [assumption|]. rewrite Forall_forall in Hall.
        eapply key_before_name; eauto. }
      apply Forall_forall. intros x Hx. unfold key_before.
      now rewrite Hk, (Hname x Hx).
Qed.

Lemma sorted_obj_set (o : list (string * jsval)) (k : string) (v : jsval) :
  StronglySorted key_before (keys o) ->
  StronglySorted key_before (keys (obj_set o k v)).
Proof.
  intros Hs. unfold obj_set. destruct (k =? "__proto__"); [assumption|].
  destruct (has_own k o) eqn:E.
  - now rewrite keys_update.
  - apply has_own_not_In in E. destruct (array_index k) as [n|] eqn:Hk.
    + now apply sorted_insert_index.
    + unfold keys. rewrite map_app. simpl. clear E.
      induction o as [|[k' v'] o IH]; simpl.
      * constructor; constructor.
      * simpl in Hs. inversion Hs as [|? ? Ho Hall]; subst.
        constructor; [now apply IH|].
        apply Forall_app. split; [assumption|]. constructor; [|constructor].
        unfold key_before. rewrite Hk. now destruct (array_index k').
Qed.

Lemma sorted_assign_all (named o : list (string * jsval)) :
  StronglySorted key_before (keys o) ->
  StronglySorted key_before (keys (assign_all o named)).
Proof.
  revert o. induction named as [|[k v] named IH]; intros o Hs; [assumption|].
  apply IH. now apply sorted_obj_set.
Qed.

Lemma names_insert_index (n : N) (k : string) (v : jsval) (o : list (string * jsval)) :
  array_index k = Some n -> names (keys (insert_index n k v o)) = names (keys o).
Proof.
  intros Hk.
  assert (Hf : forall rest, names (k :: rest) = names rest).
  { intros rest. unfold names, is_index. simpl. now rewrite Hk. }
  induction o as [|[k' v'] o IH]; [apply Hf|].
  simpl insert_index.
  destruct (array_index k') as [m|]; [destruct (m <? n)%N|]; try apply Hf.
  unfold names in *. simpl. now rewrite IH.
Qed.

Lemma mem_In (k : string) (l : list string) : mem k l = true <-> In k l.
Proof.
  unfold mem. rewrite existsb_exists. split.
  - intros (x & Hx & E). apply String.eqb_eq in E. now subst.
  - intros H. exists k. now rewrite String.eqb_refl.
Qed.

Lemma has_own_names (k : string) (o : list (string * jsval)) :
  is_index k = false -> has_own k o = mem k (names (keys o)).
Proof.
  intros Hk. apply eq_true_iff_eq. rewrite has_own_In, mem_In.
  unfold names. rewrite filter_In, Hk. simpl. tauto.
Qed.

Lemma names_obj_set (o : list (string * jsval)) (k : string) (v : jsval) :
  names (keys (obj_set o k v))
  = if (k =? "__proto__") || is_index k || mem k (names (keys o))
    then names (keys o) else (names (keys o) ++ [k])%list.
Proof.
  unfold obj_set. destruct (k =? "__proto__"); [reflexivity|]. simpl.
  destruct (has_own k o) eqn:E.
  - rewrite keys_update. destruct (is_index k) eqn:Hi; [reflexivity|].
    now rewrite <- (has_own_names k o Hi), E.
  - unfold is_index. destruct (array_index k) as [n|] eqn:Hk.
    + now apply names_insert_index.
    + simpl. rewrite <- (has_own_names k o), E.
      * unfold keys, names. rewrite map_app, filter_app. simpl.
        unfold is_index. now rewrite Hk.
      * unfold is_index. now rewrite Hk.
Qed.

Lemma names_assign_all (named o : list (string * jsval)) :
  names (keys (assign_all o named))
  = (names (keys o) ++ first_assigned (names (keys o)) (keys named))%list.
Proof.
  revert o. induction named as [|[k v] named IH]; intros o.
  - simpl. now rewrite app_nil_r.
  - change (assign_all o ((k, v) :: named)) with (assign_all (obj_set o k v) named).
    rewrite IH, names_obj_set. simpl.
    destruct ((k =? "__proto__") || is_index k || mem k (names (keys o)));
      [reflexivity|].
    now rewrite <- app_assoc.
Qed.

Lemma field_pair_of (r : jsval) : pair_ok r = true -> field_pair r = Ok (pair_of r).
Proof.
  intros H. unfold field_pair, pair_of.
  assert (Hu : r <> JUndefined) by (intros ->; discriminate).
  assert (Hn : r <> JNull) by (intros ->; discriminate).
  rewrite !(get_field_of r) by assumption. cbn [bind].
  rewrite escape_escapable; [reflexivity|]. now destruct r.
Qed.

Lemma mapM_bind {A B C : Type} (f : A -> result B) (g : B -> result C) (h : B -> C)
      (l : list A) :
  forall rs, mapM f l = Ok rs -> Forall (fun r => g r = Ok (h r)) rs ->
             mapM (fun x => do r <- f x; g r) l = Ok (map h rs).
Proof.
  induction l as [|x l IH]; intros rs H Hr.
  - injection H as <-. reflexivity.
  - rewrite mapM_cons in H. rewrite mapM_cons.
    destruct (f x) as [r|]; [|discriminate]. cbn [bind] in *.
    destruct (mapM f l) as [rs'|]; [|discriminate]. cbn [bind] in H. injection H as <-.
    inversion Hr as [|? ? Hg Hrs]; subst. rewrite Hg. cbn [bind].
    now rewrite (IH rs' eq_refl Hrs).
Qed.

(** The second half of C1 fails: a table whose only field is [[5] = "v"]
    has a key on its first field and becomes the Mapping with the key
    ["5"], not a Sequence holding a property entry. *)
Lemma bracket_key_table_is_mapping :
  deserialize (TableConstructorExpression
                 [TableKey (NumericLiteral (Int 5)) (StringLiteral "v")])
  = Ok (JObj [("5", JStr "v")])
  /\ deserialize (TableConstructorExpression
                    [TableKey (NumericLiteral (Int 5)) (StringLiteral "v")])
     <> Ok (JArr [property_entry (JNum (Int 5)) (JStr "v")]).
Proof. split; [reflexivity|]. vm_compute. discriminate. Qed.

(** C1, amended.  A table constructor whose first field carries a key
    becomes a Mapping, whatever the shape of its keys.  Each field gives a
    pair of its key, as it is, and of its value put through the escaping
    step; the pairs are assigned in field order under the text of their
    keys.  The Mapping has every key once, a later pair replacing the
    value of an earlier one with the same key; its keys that are array
    indices come first in ascending order, the others follow in the order
    of their first assignment; it has at least one entry, so that the
    empty Sequence, which stands for a Mapping without entry, is not
    returned.  This is the outcome whenever the fields deserialize, none
    to Nil or to [undefined], the escaping step returns on each value, and
    each key has a text, which is not [__proto__], the numbers in the keys
    being safe integers. *)
Theorem keyed_table (S : string -> number) (fields : list ast) (rs : list jsval)
        (named : list (string * jsval)) :
  first_has_key fields = true ->
  mapM (luaAstToJson S) fields = Ok rs ->
  forallb pair_ok rs = true ->
  forallb (fun r => safe_numbers (field_of r "key")) rs = true ->
  mapM key_name (map pair_of rs) = Ok named ->
  ~ In "__proto__" (keys named) ->
  let object := assign_all [] named in
  luaAstToJson S (TableConstructorExpression fields)
  = Ok (if isEmpty object then JArr [] else JObj object)
  /\ object <> []
  /\ NoDup (keys object)
  /\ (forall k, lookup k object = lookup k (rev named))
  /\ StronglySorted key_before (keys object)
  /\ names (keys object) = first_assigned [] (keys named).
Proof.
  intros Hk Hr Hp _ Hn Hproto object. split; [|split; [|split; [|split; [|split]]]].
  - cbn [luaAstToJson]. rewrite Hk.
    rewrite (mapM_bind (luaAstToJson S) field_pair pair_of fields rs Hr).
    + cbn [bind]. unfold fromPairs.
      now rewrite (fromPairs_into_assign _ [] named Hn Hproto).
    + rewrite forallb_forall in Hp. apply Forall_forall. intros r Hin.
      now apply field_pair_of, Hp.
  - assert (Hsome : exists k v, In (k, v) named).
    { destruct fields as [|f fields]; [discriminate|].
      apply mapM_length in Hr. destruct rs as [|r rs]; [discriminate|].
      apply mapM_length in Hn. destruct named as [|[k v] named]; [discriminate|].
      exists k, v. now left. }
    destruct Hsome as (k & v & Hin). intros Hempty.
    assert (Hl : lookup k (assign_all [] named) <> None).
    { rewrite lookup_assign_all.
      destruct (String.eqb_spec k "__proto__") as [->|_].
      - exfalso. apply Hproto. apply in_map_iff. now exists ("__proto__", v).
      - destruct (lookup k (rev named)) eqn:E; [discriminate|].
        exfalso. apply in_rev in Hin. clear - E Hin.
        induction (rev named) as [|[k' v'] l IH]; [contradiction|].
        cbn [lookup] in E. destruct Hin as [[= -> ->]|Hin].
        + now rewrite String.eqb_refl in E.
        + destruct (k' =? k); [discriminate|auto]. }
    fold object in Hl. now rewrite Hempty in Hl.
  - apply NoDup_assign_all. constructor.
  - intros k. unfold object. rewrite lookup_assign_all. simpl.
    destruct (String.eqb_spec k "__proto__") as [->|_];
      [|now destruct (lookup k (rev named))].
    symmetry. apply lookup_absent. apply Forall_forall. intros kv Hin Heq.
    apply Hproto. apply in_map_iff. exists kv. split; [assumption|now apply in_rev].
  - apply sorted_assign_all. constructor.
  - unfold object. now rewrite names_assign_all.
Qed.

Lemma keyed_table_witness :
  deserialize
    (TableConstructorExpression
       [TableKeyString (Identifier "x") (NumericLiteral (Int 1));
        TableKey (NumericLiteral (Int 5)) (StringLiteral (String "a" (String newline "b")));
        TableKeyString (Identifier "x") (NumericLiteral (Int 2));
        TableKey (StringLiteral "a\b") (StringLiteral "v");
        TableKey (NumericLiteral (Int 3)) NilLiteral])
  = Ok (JObj [("3", JNull); ("5", JStr "a\nb"); ("x", JNum (Int 2)); ("a\b", JStr "v")]).
Proof.
  unfold deserialize.
  apply (keyed_table StringToNumber_decimal)
    with (rs := [internal_pair (JStr "x") (JNum (Int 1));
                 internal_pair (JNum (Int 5)) (JStr (String "a" (String newline "b")));
                 internal_pair (JStr "x") (JNum (Int 2));
                 internal_pair (JStr "a\b") (JStr "v");
                 internal_pair (JNum (Int 3)) JNull])
         (named := [("x", JNum (Int 1)); ("5", JStr "a\nb"); ("x", JNum (Int 2));
                    ("a\b", JStr "v"); ("3", JNull)]);
    try reflexivity.
  simpl. intuition discriminate.
Defined.

Example keyed_table_identifiers :
  deserialize (TableConstructorExpression
                 [TableKeyString (Identifier "x") (NumericLiteral (Int 1));
                  TableKeyString (Identifier "y") (NumericLiteral (Int 2))])
  = Ok (JObj [("x", JNum (Int 1)); ("y", JNum (Int 2))]).
Proof. reflexivity. Qed.

(** A key whose text is [__proto__]: the model stops at the assignment. *)
Example keyed_table_proto :
  deserialize (TableConstructorExpression
                 [TableKeyString (Identifier "__proto__") (NumericLiteral (Int 1))])
  = Throw NotFollowed.
Proof. reflexivity. Qed.

(** * The round trip (C2) *)

Lemma rewrite_chars_absent (a : ascii) (rep s : string) :
  all_chars (fun c => negb (Ascii.eqb c a)) s = true -> rewrite_chars a rep s = s.
Proof.
  induction s as [|c s IH]; [reflexivity|]. simpl. intros H.
  apply andb_true_iff in H as [Hc Hs]. apply negb_true_iff in Hc.
  now rewrite Hc, (IH Hs).
Qed.

Lemma rewrite_pairs_absent (a b : ascii) (rep s : string) :
  all_chars (fun c => negb (Ascii.eqb c a)) s = true -> rewrite_pairs a b rep s = s.
Proof.
  induction s as [|c s IH]; [reflexivity|]. intros H. simpl in H.
  apply andb_true_iff in H as [Hc Hs]. apply negb_true_iff in Hc.
  cbn [rewrite_pairs]. destruct s as [|d s]; [reflexivity|].
  rewrite Hc. cbn [andb]. now rewrite (IH Hs).
Qed.

Lemma all_chars_weaken (p q : ascii -> bool) (s : string) :
  (forall c, p c = true -> q c = true) -> all_chars p s = true -> all_chars q s = true.
Proof.
  intros Hpq. induction s as [|c s IH]; [reflexivity|]. simpl. intros H.
  apply andb_true_iff in H as [Hc Hs]. now rewrite (Hpq c Hc), (IH Hs).
Qed.

Lemma escape_text_simple (s : string) : simple_text s = true -> escape_text s = s.
Proof.
  intros H. unfold escape_text.
  assert (Hb : all_chars (fun c => negb (Ascii.eqb c backslash)) s = true).
  { revert H. apply all_chars_weaken. intros c Hc.
    apply negb_true_iff in Hc. apply orb_false_iff in Hc as [Hc _].
    apply orb_false_iff in Hc as [Hc _]. now rewrite Hc. }
  assert (Hn : all_chars (fun c => negb (Ascii.eqb c newline)) s = true).
  { revert H. apply all_chars_weaken. intros c Hc.
    apply negb_true_iff in Hc. apply orb_false_iff in Hc as [Hc _].
    apply orb_false_iff in Hc as [_ Hc]. now rewrite Hc. }
  rewrite (rewrite_pairs_absent backslash backslash _ s Hb).
  rewrite (rewrite_pairs_absent backslash "r" _ s Hb).
  rewrite (rewrite_pairs_absent backslash "n" _ s Hb).
  now apply rewrite_chars_absent.
Qed.

Lemma round_trip_escapable (v : jsval) : round_trip_value v = true -> escapable v = true.
Proof.
  destruct v; try reflexivity. cbn [round_trip_value]. intros H.
  repeat (apply andb_true_iff in H as [H ?]).
  unfold escapable. cbn [isObject isArray negb andb].
  assumption.
Qed.

Lemma round_trip_escape_value (v : jsval) :
  round_trip_value v = true -> escape_value v = v.
Proof.
  destruct v; try reflexivity. cbn [round_trip_value escape_value]. intros H.
  now rewrite escape_text_simple.
Qed.

Lemma round_trip_not_pair (v : jsval) :
  round_trip_value v = true -> is_pair_construct v = false.
Proof.
  unfold is_pair_construct. destruct v; try reflexivity.
  cbn [round_trip_value]. intros H. repeat (apply andb_true_iff in H as [H ?]).
  now apply negb_true_iff.
Qed.

Lemma round_trip_member (v : jsval) :
  round_trip_value v = true -> isNull v = false ->
  sequence_element v = Ok v.
Proof.
  intros H Hn. rewrite sequence_element_member; [|assumption|].
  - unfold sequence_member. rewrite (round_trip_not_pair v H).
    now rewrite round_trip_escape_value.
  - unfold member_ok. rewrite (round_trip_not_pair v H).
    rewrite (round_trip_escapable v H). now destruct v.
Qed.

Lemma key_beforeb_spec (a b : string) : key_beforeb a b = true -> key_before a b.
Proof.
  unfold key_beforeb, key_before.
  destruct (array_index a), (array_index b); try tauto; try discriminate.
  apply N.ltb_lt.
Qed.

Lemma insert_index_last (n : N) (k : string) (v : jsval) (o : list (string * jsval)) :
  array_index k = Some n ->
  Forall (fun x => key_before x k) (keys o) ->
  insert_index n k v o = (o ++ [(k, v)])%list.
Proof.
  intros Hk. induction o as [|[k' v'] o IH]; intros H; [reflexivity|].
  simpl in H. inversion H as [|? ? Hb Ho]; subst.
  simpl. unfold key_before in Hb. rewrite Hk in Hb.
  destruct (array_index k') as [m|]; [|contradiction].
  apply N.ltb_lt in Hb. rewrite Hb. now rewrite (IH Ho).
Qed.

Lemma obj_set_last (o : list (string * jsval)) (k : string) (v : jsval) :
  (k =? "__proto__") = false ->
  ~ In k (keys o) ->
  Forall (fun x => key_before x k) (keys o) ->
  obj_set o k v = (o ++ [(k, v)])%list.
Proof.
  intros Hp Hin Hb. unfold obj_set. rewrite Hp.
  apply has_own_not_In in Hin. rewrite Hin.
  destruct (array_index k) as [n|] eqn:Hk; [|reflexivity].
  now apply insert_index_last.
Qed.

(** Assigning to an object, one after the other, properties whose keys
    come in the order the runtime keeps gives these properties. *)
Lemma assign_all_canonical (props acc : list (string * jsval)) :
  key_order_ok (keys (acc ++ props)) = true ->
  forallb (fun kv => negb (fst kv =? "__proto__")) props = true ->
  assign_all acc props = (acc ++ props)%list.
Proof.
  revert acc. induction props as [|[k v] props IH]; intros acc Ho Hp.
  - simpl. now rewrite app_nil_r.
  - change (assign_all acc ((k, v) :: props)) with (assign_all (obj_set acc k v) props).
    simpl in Hp. apply andb_true_iff in Hp as [Hk Hp]. apply negb_true_iff in Hk.
    assert (Hacc : ~ In k (keys acc) /\ Forall (fun x => key_before x k) (keys acc)).
    { clear IH Hp Hk. induction acc as [|[k' v'] acc IHa].
      - split; [tauto|constructor].
      - simpl in Ho. apply andb_true_iff in Ho as [Ho Hrest].
        apply andb_true_iff in Ho as [Hall Hmem].
        destruct (IHa Hrest) as [Hin Hfa].
        assert (Hk : In k (keys (acc ++ (k, v) :: props))).
        { unfold keys. rewrite map_app. apply in_or_app. right. now left. }
        split.
        + intros [E|H]; [|contradiction]. simpl in E. subst k'.
          apply mem_In in Hk. apply negb_true_iff in Hmem.
          change (mem k (keys (acc ++ (k, v) :: props)) = false) in Hmem.
          rewrite Hk in Hmem. discriminate.
        + constructor; [|assumption]. apply key_beforeb_spec.
          rewrite forallb_forall in Hall. now apply Hall. }
    destruct Hacc as [Hin Hfa].
    rewrite (obj_set_last acc k v Hk Hin Hfa).
    rewrite IH; [now rewrite <- app_assoc| |assumption].
    now rewrite <- app_assoc.
Qed.

Lemma mapM_map {A B C : Type} (f : A -> B) (g : B -> result C) (l : list A) :
  mapM g (map f l) = mapM (fun x => g (f x)) l.
Proof.
  induction l as [|x l IH]; [reflexivity|].
  simpl map. rewrite !mapM_cons. now rewrite IH.
Qed.

Lemma mapM_fixed {A : Type} (f : A -> result A) (l : list A) :
  Forall (fun x => f x = Ok x) l -> mapM f l = Ok l.
Proof.
  intros H. rewrite (mapM_ok f (fun x => x) l H). now rewrite map_id.
Qed.

Lemma filter_all {A : Type} (p : A -> bool) (l : list A) :
  forallb p l = true -> filter p l = l.
Proof.
  induction l as [|x l IH]; [reflexivity|]. simpl. intros H.
  apply andb_true_iff in H as [Hx Hl]. now rewrite Hx, (IH Hl).
Qed.

Lemma keyed_field_tree (S : string -> number) (k : string) (t : ast) (v : jsval) :
  luaAstToJson S t = Ok v ->
  escape v = Ok v ->
  (do r <- luaAstToJson S (if identifier_shaped k
                           then TableKeyString (Identifier k) t
                           else TableKey (StringLiteral k) t);
   field_pair r) = Ok (JStr k, v).
Proof.
  intros Ht He.
  assert (H : luaAstToJson S (if identifier_shaped k
                              then TableKeyString (Identifier k) t
                              else TableKey (StringLiteral k) t)
              = Ok (internal_pair (JStr k) v)).
  { destruct (identifier_shaped k); cbn [luaAstToJson]; now rewrite Ht. }
  rewrite H. cbn [bind]. unfold field_pair, internal_pair. simpl get. cbn [bind].
  now rewrite He.
Qed.

(** The tree of the literal of a value deserializes to the value. *)
Lemma tree_deserializes (S : string -> number) (v : jsval) :
  round_trip_value v = true -> luaAstToJson S (lua_tree v) = Ok v.
Proof.
  induction v as [| |b|n|s|elems IH|props IH] using jsval_nested_ind;
    cbn [round_trip_value]; intros H; try discriminate; try reflexivity.
  - destruct n as [|z]; [discriminate|]. cbn [lua_tree].
    destruct (z <? 0)%Z; [|reflexivity].
    cbn [luaAstToJson String.eqb Ascii.eqb Bool.eqb ToNumber bind number_neg].
    simpl. now rewrite Z.opp_involutive.
  - cbn [lua_tree luaAstToJson].
    assert (Hk : first_has_key (map (fun e => TableValue (lua_tree e)) elems) = false)
      by now destruct elems.
    rewrite Hk, mapM_map.
    assert (Hn : forallb (fun v => negb (isNull v)) elems = true).
    { rewrite forallb_forall in *. intros x Hx. specialize (H x Hx).
      now apply andb_true_iff in H as [H _]. }
    rewrite (mapM_fixed (fun x => luaAstToJson S (TableValue (lua_tree x))) elems).
    + cbn [bind]. rewrite (filter_all _ _ Hn), mapM_fixed; [reflexivity|].
      rewrite forallb_forall in *. apply Forall_forall. intros x Hx.
      specialize (H x Hx). apply andb_true_iff in H as [Hnx Hx'].
      apply round_trip_member; [assumption|now apply negb_true_iff].
    + rewrite forallb_forall in H. rewrite Forall_forall in *. intros x Hx.
      specialize (H x Hx). apply andb_true_iff in H as [_ Hx'].
      cbn [luaAstToJson]. now apply IH.
  - repeat (apply andb_true_iff in H as [H ?]).
    match goal with Hf : forallb _ props = true |- _ => rename Hf into Hprops end.
    match goal with Ho : key_order_ok _ = true |- _ => rename Ho into Horder end.
    cbn [lua_tree luaAstToJson].
    set (field := fun kv : string * jsval =>
                    if identifier_shaped (fst kv)
                    then TableKeyString (Identifier (fst kv)) (lua_tree (snd kv))
                    else TableKey (StringLiteral (fst kv)) (lua_tree (snd kv))).
    assert (Hk : first_has_key (map field props) = true).
    { destruct props as [|[k v] props]; [discriminate|].
      unfold field. simpl. now destruct (identifier_shaped k). }
    rewrite Hk, mapM_map.
    rewrite (mapM_ok _ (fun kv => (JStr (fst kv), snd kv)) props).
    + cbn [bind]. unfold fromPairs.
      rewrite (fromPairs_into_assign _ [] props).
      * cbn [bind]. rewrite (assign_all_canonical props []); [|assumption|].
        -- simpl. now destruct props.
        -- rewrite forallb_forall in *. intros x Hx. specialize (Hprops x Hx).
           apply andb_true_iff in Hprops as [Hkey _]. unfold key_ok in Hkey.
           now repeat (apply andb_true_iff in Hkey as [Hkey ?]).
      * rewrite mapM_map. apply mapM_fixed, Forall_forall. now intros [k v] _.
      * intros Hin. apply in_map_iff in Hin as (kv & Heq & Hin).
        rewrite forallb_forall in Hprops. specialize (Hprops kv Hin).
        apply andb_true_iff in Hprops as [Hkey _]. unfold key_ok in Hkey.
        rewrite Heq in Hkey. discriminate.
    + rewrite forallb_forall in Hprops. rewrite Forall_forall in *. intros x Hx.
      specialize (Hprops x Hx). apply andb_true_iff in Hprops as [_ Hv].
      apply keyed_field_tree; [now apply IH|].
      rewrite escape_escapable; [|now apply round_trip_escapable].
      now rewrite round_trip_escape_value.
Qed.

Lemma escape_not_null (v e : jsval) :
  escape v = Ok e -> isNull v = false -> isNull e = false.
Proof.
  destruct v; cbn [escape]; intros H Hn; try (injection H as <-; assumption).
  - destruct (truthy (JStr s)); now injection H as <-.
  - destruct (lookup "replace" props) as [r|]; [destruct (truthy r)|];
      try discriminate; now injection H as <-.
Qed.

Lemma sequence_element_not_null (v e : jsval) :
  sequence_element v = Ok e -> isNull v = false -> isNull e = false.
Proof.
  unfold sequence_element. intros H Hn.
  destruct (get v "__internal_table_key") as [flag|]; [|discriminate]. cbn [bind] in H.
  destruct (truthy flag); [|eapply escape_not_null; eauto].
  destruct (get v "key") as [k|]; [|discriminate]. cbn [bind] in H.
  destruct (get v "value") as [x|]; [|discriminate]. cbn [bind] in H.
  destruct (escape x) as [y|]; [|discriminate]. now injection H as <-.
Qed.

Lemma unwrap_single_nil_sequence (values : list jsval) :
  unwrap_single values = JArr [JNull] -> values = [JArr [JNull]].
Proof.
  destruct values as [|v [|w l]]; cbn [unwrap_single]; intros H.
  - discriminate.
  - now subst.
  - discriminate.
Qed.

(** No tree deserializes to the Sequence whose one element is Nil: a table
    drops its Nil fields, and a statement with one value returns that
    value and not a Sequence of it. *)
Lemma never_nil_sequence (S : string -> number) (t : ast) :
  luaAstToJson S t <> Ok (JArr [JNull]).
Proof.
  induction t as [|b|n|s|op a IH|s|k v IHk IHv|k v IHk IHv|v IH|fields IH|init IH
                 |args IH|body IH|ty] using ast_nested_ind;
    cbn [luaAstToJson]; try discriminate; try assumption.
  - destruct (op =? "-"); [|discriminate].
    destruct (luaAstToJson S a) as [v|]; [|discriminate]. cbn [bind].
    destruct (ToNumber S v); discriminate.
  - destruct (luaAstToJson S k); [|discriminate]. cbn [bind].
    destruct (luaAstToJson S v); discriminate.
  - destruct (luaAstToJson S k); [|discriminate]. cbn [bind].
    destruct (luaAstToJson S v); discriminate.
  - destruct (first_has_key fields).
    + destruct (mapM _ fields) as [pairs|]; [|discriminate]. cbn [bind].
      destruct (fromPairs pairs) as [o|]; [|discriminate]. cbn [bind].
      destruct (isEmpty o); discriminate.
    + destruct (mapM (luaAstToJson S) fields) as [values|]; [|discriminate]. cbn [bind].
      destruct (mapM sequence_element _) as [elems|] eqn:He; [|discriminate]. cbn [bind].
      intros [= ->]. apply mapM_inv in He.
      inversion He as [|x y l l' Hxy _ Hl]; subst.
      assert (Hx : In x (filter (fun v => negb (isNull v)) values))
        by (rewrite <- Hl; now left).
      apply filter_In in Hx as [_ Hx]. apply negb_true_iff in Hx.
      now apply (sequence_element_not_null _ _ Hxy) in Hx.
  - destruct (mapM (luaAstToJson S) init) as [values|] eqn:He; [|discriminate].
    cbn [bind]. intros [= H]. apply unwrap_single_nil_sequence in H. subst values.
    apply mapM_inv in He. inversion He as [|x y l l' Hxy _ Hl Hl']; subst.
    apply Forall_inv in IH. contradiction.
  - destruct (mapM (luaAstToJson S) args) as [values|] eqn:He; [|discriminate].
    cbn [bind]. intros [= H]. apply unwrap_single_nil_sequence in H. subst values.
    apply mapM_inv in He. inversion He as [|x y l l' Hxy _ Hl Hl']; subst.
    apply Forall_inv in IH. contradiction.
  - destruct body as [|st body]; [discriminate|]. now apply Forall_inv in IH.
  - destruct (mem ty literal_types); [discriminate|].
    destruct (ty =? "Identifier"); [discriminate|].
    destruct (mem ty parent_types); discriminate.
Qed.

Lemma same_shape_nil_sequence (r : jsval) :
  same_shape (JArr [JNull]) r = true -> r = JArr [JNull].
Proof.
  destruct r as [| | | | |[|[] [|]]|]; try discriminate. reflexivity.
Qed.

Lemma same_shape_refl (v : jsval) : contains_undefined v = false -> same_shape v v = true.
Proof.
  induction v as [| |b|n|s|elems IH|props IH] using jsval_nested_ind;
    cbn [contains_undefined]; intros H; try discriminate; try reflexivity.
  - now destruct b.
  - destruct n as [|z]; [reflexivity|]. apply Z.eqb_refl.
  - cbn [same_shape]. induction elems as [|x elems IHl]; [reflexivity|].
    simpl in H. apply orb_false_iff in H as [Hx Hl].
    inversion IH as [|? ? Hx' Hl']; subst. now rewrite (Hx' Hx), (IHl Hl' Hl).
  - cbn [same_shape]. induction props as [|x props IHl]; [reflexivity|].
    simpl in H. apply orb_false_iff in H as [Hx Hl].
    inversion IH as [|? ? Hx' Hl']; subst.
    now rewrite String.eqb_refl, (Hx' Hx), (IHl Hl' Hl).
Qed.

Lemma round_trip_defined (v : jsval) :
  round_trip_value v = true ->
  contains_undefined v = false /\ entries_well_formed v = true.
Proof.
  induction v as [| |b|n|s|elems IH|props IH] using jsval_nested_ind;
    cbn [round_trip_value contains_undefined entries_well_formed]; intros H;
    try discriminate; try (split; reflexivity).
  - induction elems as [|x elems IHl]; [split; reflexivity|].
    simpl in H. apply andb_true_iff in H as [Hx Hl].
    apply andb_true_iff in Hx as [_ Hx].
    inversion IH as [|? ? Hx' Hl']; subst.
    destruct (Hx' Hx) as [Hu Hw]. destruct (IHl Hl' Hl) as [Hus Hws].
    simpl. now rewrite Hu, Hw, Hus, Hws.
  - repeat (apply andb_true_iff in H as [H ?]).
    match goal with Hf : forallb _ props = true |- _ => rename Hf into Hprops end.
    match goal with Hp : negb (is_property props) = true |- _ =>
      apply negb_true_iff in Hp; rewrite Hp end.
    rewrite andb_true_r. clear - IH Hprops.
    induction props as [|x props IHl]; [split; reflexivity|].
    simpl in Hprops. apply andb_true_iff in Hprops as [Hx Hl].
    apply andb_true_iff in Hx as [_ Hx].
    inversion IH as [|? ? Hx' Hl']; subst.
    destruct (Hx' Hx) as [Hu Hw]. destruct (IHl Hl' Hl) as [Hus Hws].
    simpl. now rewrite Hu, Hw, Hus, Hws.
Qed.

(** The claim of C2 fails whatever the parser returns: the Sequence whose
    one element is Nil is serialized, and no tree at all deserializes to a
    value of its shape. *)
Lemma nil_sequence_does_not_come_back :
  format (JArr [JNull]) None
  = Ok ("return {" ++ str1 newline ++ "  nil," ++ str1 newline ++ "}")
  /\ ~ exists (S : string -> number) (parseLua : string -> ast) (text : string)
              (r : jsval),
         parse parseLua S text = Ok r /\ same_shape (JArr [JNull]) r = true.
Proof.
  split; [reflexivity|].
  intros (S & parseLua & text & r & Hr & Hs).
  apply same_shape_nil_sequence in Hs. subst r.
  exact (never_nil_sequence S (parseLua text) Hr).
Qed.

(** ** The text [format] writes, read as Lua *)

Lemma number_toString_negative (z : Z) :
  (z < 0)%Z -> number_toString (Int z) = "-" ++ number_toString (Int (- z)).
Proof. destruct z; try lia. reflexivity. Qed.

Lemma lua_blank_app (a b : string) : lua_blank (a ++ b) = lua_blank a && lua_blank b.
Proof. apply all_chars_app. Qed.

Lemma lua_blank_repeat (s : string) (k : nat) :
  lua_blank s = true -> lua_blank (repeat_string s k) = true.
Proof.
  intros H. induction k as [|k IH]; [reflexivity|].
  cbn [repeat_string]. now rewrite lua_blank_app, H, IH.
Qed.

Lemma lua_blank_indentation (o : Options) (k : nat) :
  lua_layout o = true -> lua_blank (indentation (spaces o) k) = true.
Proof.
  unfold lua_layout. intros H. apply andb_true_iff in H as [_ H].
  destruct (spaces o) as [| | |n|s| |]; try reflexivity.
  - destruct n as [|z]; [reflexivity|]. cbn [indentation number_mul_nat repeat_count].
    destruct (_ || _); [reflexivity|]. now apply lua_blank_repeat.
  - cbn [indentation]. now apply lua_blank_repeat.
Qed.

Lemma body_of_simple (q : ascii) (s : string) :
  q = squote \/ q = dquote -> simple_text s = true ->
  lua_string_body q (escape_quote q s) s.
Proof.
  intros Hq. unfold simple_text. induction s as [|c s IH]; [constructor|].
  cbn [all_chars escape_quote]. intros H. apply andb_true_iff in H as [Hc Hs].
  apply negb_true_iff in Hc. apply orb_false_iff in Hc as [Hc Hcr].
  apply orb_false_iff in Hc as [Hb Hn].
  destruct (Ascii.eqb c q) eqn:E.
  - apply Ascii.eqb_eq in E. subst c. apply body_quote; auto.
  - apply body_plain; auto.
Qed.

Lemma join_sep (sep : string) (l : list string) :
  l <> [] -> sep ++ join sep l = concat_all (map (append sep) l).
Proof.
  induction l as [|x l IH]; [congruence|]. intros _.
  destruct l as [|y l].
  - cbn [join map concat_all fold_right]. now rewrite append_nil_r.
  - change (join sep (x :: y :: l)) with (x ++ sep ++ join sep (y :: l)).
    rewrite IH by discriminate. cbn [map concat_all fold_right].
    symmetry. apply append_assoc.
Qed.

Lemma concat_all_app (a b : list string) :
  concat_all (a ++ b) = concat_all a ++ concat_all b.
Proof.
  induction a as [|x a IH]; [reflexivity|].
  cbn [app concat_all fold_right]. fold (concat_all (a ++ b)). fold (concat_all a).
  now rewrite IH, append_assoc.
Qed.

(** The fields of a block: each item is an indentation, the text of a
    field and a comma, and comes after a separator. *)
Lemma lua_fields_items {A : Type} (sep pad wend : string) (f : A -> ast)
      (l : list A) (items : list string) :
  lua_blank sep = true -> lua_blank pad = true -> lua_blank wend = true ->
  Forall2 (fun x item => exists t, item = pad ++ t ++ "," /\ lua_field t (f x)) l items ->
  lua_fields (concat_all (map (append sep) items) ++ wend) (map f l).
Proof.
  intros Hs Hp Hw. induction 1 as [|x item l items (t & -> & Ht) _ IH].
  - now apply fields_end.
  - cbn [map concat_all fold_right]. fold (concat_all (map (append sep) items)).
    assert (E : ((sep ++ pad ++ t ++ ",") ++ concat_all (map (append sep) items)) ++ wend
                = (sep ++ pad) ++ t ++ "" ++ ","
                  ++ (concat_all (map (append sep) items) ++ wend))
      by (cbn [append]; now rewrite !append_assoc).
    rewrite E. apply fields_more; auto. now rewrite lua_blank_app, Hs, Hp.
Qed.

Lemma lua_block_indented {A : Type} (nl pad padEnd : string) (f : A -> ast)
      (l : list A) (items : list string) :
  lua_blank nl = true -> lua_blank pad = true -> lua_blank padEnd = true ->
  l <> [] ->
  Forall2 (fun x item => exists t, item = pad ++ t ++ "," /\ lua_field t (f x)) l items ->
  lua_exp ("{" ++ nl ++ join nl items ++ nl ++ padEnd ++ "}")
          (TableConstructorExpression (map f l)).
Proof.
  intros Hn Hp He Hl Hf.
  assert (Hi : items <> []) by (destruct Hf; [congruence|discriminate]).
  replace ("{" ++ nl ++ join nl items ++ nl ++ padEnd ++ "}")
    with ("{" ++ ((nl ++ join nl items) ++ (nl ++ padEnd)) ++ "}")
    by (now rewrite !append_assoc).
  apply exp_table. rewrite (join_sep nl items Hi).
  apply lua_fields_items with (pad := pad); auto.
  now rewrite lua_blank_app, Hn, He.
Qed.

Lemma lua_block_compact {A : Type} (f : A -> ast) (l : list A) (items : list string) :
  Forall2 (fun x item => exists t, item = t ++ "," /\ lua_field t (f x)) l items ->
  lua_exp ("{" ++ join "" items ++ "}") (TableConstructorExpression (map f l)).
Proof.
  intros Hf. apply exp_table. rewrite join_empty.
  replace (concat_all items) with (concat_all (map (append "") items) ++ "")
    by (rewrite append_nil_r; f_equal; now rewrite map_id).
  apply lua_fields_items with (pad := ""); auto.
Qed.

Lemma Forall2_map_right {A B C : Type} (R : A -> C -> Prop) (g : B -> C)
      (l : list A) (l' : list B) :
  Forall2 (fun x y => R x (g y)) l l' -> Forall2 R l (map g l').
Proof. induction 1; constructor; auto. Qed.

(** The text of a round-trip value is, in Lua, the literal of the value. *)
Lemma rec_lua (o : Options) :
  lua_layout o = true ->
  forall (v : jsval) (i : nat),
    round_trip_value v = true ->
    exists r, rec o v i = Ok r /\ lua_exp r (lua_tree v).
Proof.
  intros Hl.
  assert (Hnl : lua_blank (eol_string o) = true)
    by (unfold lua_layout in Hl; now apply andb_true_iff in Hl as [Hl _]).
  assert (Hq : (if truthy (singleQuote o) then squote else dquote) = squote
               \/ (if truthy (singleQuote o) then squote else dquote) = dquote)
    by (destruct (truthy (singleQuote o)); auto).
  intros v.
  induction v as [| |b|n|s|elems IH|props IH] using jsval_nested_ind;
    cbn [round_trip_value]; intros i H; try discriminate.
  - exists "nil". split; [reflexivity|constructor].
  - destruct b; eexists; (split; [reflexivity|constructor]).
  - destruct n as [|z]; [discriminate|]. apply Z.leb_le in H.
    exists (number_toString (Int z)). split; [reflexivity|]. cbn [lua_tree].
    destruct (Z.ltb_spec z 0).
    + rewrite number_toString_negative by assumption. apply exp_negative. lia.
    + apply exp_number. lia.
  - exists (formatLuaString s (truthy (singleQuote o))). split; [reflexivity|].
    rewrite formatLuaString_spec. unfold quote_text. cbn [lua_tree].
    apply exp_string; [assumption|]. now apply body_of_simple.
  - destruct elems as [|e0 elems].
    { exists "{}". split; [reflexivity|]. apply (exp_table "" []). now apply fields_end. }
    cbn [rec lua_tree].
    assert (Hitems : forall pad,
               exists items,
                 mapM (fun e => do r <- rec o e (S i); Ok (pad ++ r ++ ",")) (e0 :: elems)
                 = Ok items
                 /\ Forall2 (fun x item =>
                               exists t, item = pad ++ t ++ ","
                                         /\ lua_field t (TableValue (lua_tree x)))
                            (e0 :: elems) items).
    { intros pad. apply mapM_Forall2. rewrite Forall_forall in *. intros x Hx.
      rewrite forallb_forall in H. specialize (H x Hx).
      apply andb_true_iff in H as [_ Hrt].
      destruct (IH x Hx (S i) Hrt) as (r & Hr & He).
      exists (pad ++ r ++ ","). rewrite Hr. split; [reflexivity|].
      exists r. split; [reflexivity|now constructor]. }
    destruct (truthy (spaces o)).
    + destruct (Hitems (indentation (spaces o) (S i))) as (items & Hm & Hf).
      rewrite Hm. cbn [bind]. eexists. split; [reflexivity|].
      apply lua_block_indented with (pad := indentation (spaces o) (S i)); auto;
        try (now apply lua_blank_indentation). discriminate.
    + destruct (Hitems "") as (items & Hm & Hf). cbn [append] in Hm.
      rewrite Hm. cbn [bind]. eexists. split; [reflexivity|].
      now apply lua_block_compact.
  - destruct props as [|p0 props]; [discriminate|].
    repeat (apply andb_true_iff in H as [H ?]).
    match goal with Hf : forallb _ (p0 :: props) = true |- _ => rename Hf into Hprops end.
    match goal with Hp : negb (is_property (p0 :: props)) = true |- _ =>
      apply negb_true_iff in Hp; rename Hp into Hnp end.
    cbn [rec lua_tree]. rewrite Hnp.
    set (field := fun kv : string * jsval =>
                    if identifier_shaped (fst kv)
                    then TableKeyString (Identifier (fst kv)) (lua_tree (snd kv))
                    else TableKey (StringLiteral (fst kv)) (lua_tree (snd kv))).
    destruct (mapM_Forall2 (fun kv => do r <- rec o (snd kv) (S i); Ok (fst kv, r))
                           (fun kv kr => fst kr = fst kv
                                         /\ lua_exp (snd kr) (lua_tree (snd kv)))
                           (p0 :: props)) as (rendered & Hm & Hr).
    { rewrite Forall_forall in *. intros x Hx.
      rewrite forallb_forall in Hprops. specialize (Hprops x Hx).
      apply andb_true_iff in Hprops as [_ Hrt].
      destruct (IH x Hx (S i) Hrt) as (r & Hr & He).
      exists (fst x, r). rewrite Hr. now repeat split. }
    rewrite Hm. cbn [bind].
    assert (Hfield : forall (w1 w2 pad : string),
               lua_blank w1 = true -> lua_blank w2 = true ->
               Forall2 (fun kv item =>
                          exists t, item = pad ++ t ++ "," /\ lua_field t (field kv))
                       (p0 :: props)
                       (map (fun kr => pad ++ formatLuaKey (fst kr) (truthy (singleQuote o))
                                       ++ w1 ++ "=" ++ w2 ++ snd kr ++ ",") rendered)).
    { intros w1 w2 pad Hw1 Hw2. apply Forall2_map_right.
      assert (Hkeys : Forall (fun kv => key_ok (fst kv) = true) (p0 :: props)).
      { apply Forall_forall. intros x Hx. rewrite forallb_forall in Hprops.
        specialize (Hprops x Hx). now apply andb_true_iff in Hprops as [Hk _]. }
      clear - Hr Hkeys Hw1 Hw2 Hq. induction Hr as [|kv kr l l' (Hk & He) _ IHr];
        [constructor|].
      inversion Hkeys as [|? ? Hkey Hkeys']; subst. constructor; [|now apply IHr].
      exists (formatLuaKey (fst kr) (truthy (singleQuote o))
              ++ w1 ++ "=" ++ w2 ++ snd kr).
      split; [now rewrite !append_assoc|].
      rewrite Hk, formatLuaKey_spec. unfold rendered_key, field, key_ok in *.
      apply andb_true_iff in Hkey as [Hkey Hkw]. apply andb_true_iff in Hkey as [_ Hst].
      apply negb_true_iff in Hkw.
      destruct (identifier_shaped (fst kv)) eqn:Hid.
      - now apply field_named.
      - replace (("[" ++ quote_text (if truthy (singleQuote o) then squote else dquote)
                                    (fst kv) ++ "]")
                 ++ w1 ++ "=" ++ w2 ++ snd kr)
          with ("[" ++ "" ++ quote_text (if truthy (singleQuote o) then squote else dquote)
                                        (fst kv)
                ++ "" ++ "]" ++ w1 ++ "=" ++ w2 ++ snd kr)
          by (cbn [append]; now rewrite !append_assoc).
        apply field_bracketed; auto. unfold quote_text.
        apply exp_string; [assumption|]. now apply body_of_simple. }
    destruct (truthy (spaces o)).
    + eexists. split; [reflexivity|].
      rewrite !append_assoc.
      refine (lua_block_indented (eol_string o) (indentation (spaces o) (S i))
                                 (indentation (spaces o) i) field (p0 :: props) _
                                 Hnl _ _ _ (Hfield " " " " _ eq_refl eq_refl));
        try (now apply lua_blank_indentation). discriminate.
    + eexists. split; [reflexivity|].
      apply (lua_block_compact field (p0 :: props)).
      exact (Hfield "" "" "" eq_refl eq_refl).
Qed.

Lemma lua_exp_starts (text : string) (t : ast) :
  lua_exp text t ->
  match t with
  | StringLiteral _ | TableConstructorExpression _ | UnaryExpression _ _ =>
      starts_word text = false
  | _ => True
  end.
Proof.
  destruct 1 as [| | | | |q body s [-> | ->]|]; try exact I; reflexivity.
Qed.

Lemma lua_tree_starts (v : jsval) :
  round_trip_value v = true -> begins_with_word v = false ->
  match lua_tree v with
  | StringLiteral _ | TableConstructorExpression _ | UnaryExpression _ _ => True
  | _ => False
  end.
Proof.
  destruct v as [| |b|[|z]|s|elems|props]; try discriminate; try (intros; exact I).
  cbn [begins_with_word lua_tree]. intros _ H. apply Z.leb_gt in H.
  apply Z.ltb_lt in H. now rewrite H.
Qed.

(** In compact mode the text of a Nil, a Boolean or a Number that is not
    negative follows [return] without white space, and the two make one
    name: no chunk that returns a literal. *)
Lemma compact_scalar_is_a_name :
  format (JNum (Int 5)) (Some (mkOptions JUndefined JUndefined (JNum (Int 0))))
  = Ok "return5"
  /\ forall tree, ~ lua_chunk "return5" tree.
Proof.
  split; [reflexivity|]. intros tree H. inversion H as [w text e Hw Hs He Ht Htree].
  destruct w as [|c w].
  - cbn [append] in Ht. subst text. specialize (Hs eq_refl). discriminate.
  - cbn [append] in Ht. injection Ht as -> _. discriminate.
Qed.

(** C2, amended.  For a value built from Nil, Boolean, Number, Text,
    Sequence and Mapping, whose Numbers are safe integers, with no Nil as
    an element of a Sequence, no empty Mapping, its Texts and keys free of
    backslashes and line breaks, its keys in the order the runtime keeps
    them and none of them [__proto__] or a Lua keyword, and no Mapping
    tagged as a property entry or holding a truthy [replace] or
    [__internal_table_key]; under options whose line terminator and
    indentation string are white space, the indentation being on unless
    the value is a Text, a negative Number, a Sequence or a Mapping, and
    with which no string of the run outgrows the limit of the runtime:
    [format] returns a text; that text is, by the grammar of Lua, the
    chunk that returns the literal of the value; and the tree of that
    chunk deserializes to the value itself. *)
Theorem round_trip (S : string -> number) (v : jsval) (options : option Options) :
  round_trip_value v = true ->
  lua_layout (effective options) = true ->
  (truthy (spaces (effective options)) = false -> begins_with_word v = false) ->
  text_fits (effective options) v ->
  exists text,
    format v options = Ok text
    /\ lua_chunk text (Chunk [ReturnStatement [lua_tree v]])
    /\ luaAstToJson S (Chunk [ReturnStatement [lua_tree v]]) = Ok v.
Proof.
  intros H Hl Hc _.
  destruct (rec_lua (effective options) Hl v 0 H) as (r & Hr & He).
  exists ("return" ++ lead (effective options) ++ r). split; [|split].
  - rewrite format_unfold, Hr. reflexivity.
  - apply chunk_return; [unfold lead; now destruct (truthy _)| |exact He].
    unfold lead. destruct (truthy (spaces (effective options))); [discriminate|].
    intros _. pose proof (lua_tree_starts v H (Hc eq_refl)) as Ht.
    pose proof (lua_exp_starts r _ He) as Hs.
    destruct (lua_tree v); try contradiction; exact Hs.
  - cbn [luaAstToJson mapM bind]. rewrite (tree_deserializes S v H). reflexivity.
Qed.

Lemma round_trip_witness :
  exists text,
    format (JObj [("1", JNum (Int (-5)));
                  ("a", JArr [JBool true; JStr "x'y"; JObj [("b c", JNull)]])])
           None
    = Ok text
    /\ lua_chunk text
         (Chunk [ReturnStatement
                   [lua_tree (JObj [("1", JNum (Int (-5)));
                                    ("a", JArr [JBool true; JStr "x'y";
                                                JObj [("b c", JNull)]])])]])
    /\ luaAstToJson StringToNumber_decimal
         (Chunk [ReturnStatement
                   [lua_tree (JObj [("1", JNum (Int (-5)));
                                    ("a", JArr [JBool true; JStr "x'y";
                                                JObj [("b c", JNull)]])])]])
       = Ok (JObj [("1", JNum (Int (-5)));
                   ("a", JArr [JBool true; JStr "x'y"; JObj [("b c", JNull)]])]).
Proof. apply round_trip; try reflexivity. vm_compute. discriminate. Defined.

Example round_trip_tree :
  lua_tree (JObj [("1", JNum (Int (-5))); ("a", JArr [JBool true; JStr "x'y"])])
  = TableConstructorExpression
      [TableKey (StringLiteral "1") (UnaryExpression "-" (NumericLiteral (Int 5)));
       TableKeyString (Identifier "a")
         (TableConstructorExpression
            [TableValue (BooleanLiteral true); TableValue (StringLiteral "x'y")])].
Proof. reflexivity. Qed.

Example empty_mapping_comes_back_as_sequence :
  format (JObj []) None = Ok "return {}"
  /\ deserialize (Chunk [ReturnStatement [TableConstructorExpression []]]) = Ok (JArr []).
Proof. split; reflexivity. Qed.

(** * Further properties *)



(** The empty Sequence and the empty Mapping are both written [{}]. *)
Theorem empty_containers (options : option Options) :
  format (JArr []) options = Ok ("return" ++ lead (effective options) ++ "{}")
  /\ format (JObj []) options = Ok ("return" ++ lead (effective options) ++ "{}").
Proof. rewrite !format_unfold. split; reflexivity. Qed.

(** A chunk is deserialized as its first statement, the later ones not
    being looked at; a statement with one value gives that value, and
    with any other number of values the Sequence of them. *)
Theorem statements (S : string -> number) (first : ast) (later : list ast) :
  luaAstToJson S (Chunk (first :: later)) = luaAstToJson S first
  /\ luaAstToJson S (ReturnStatement [first]) = luaAstToJson S first
  /\ luaAstToJson S (LocalStatement [first]) = luaAstToJson S first
  /\ luaAstToJson S (ReturnStatement []) = Ok (JArr []).
Proof.
  repeat split; cbn [luaAstToJson mapM bind];
    destruct (luaAstToJson S first); reflexivity.
Qed.

(** The negation of a numeric literal deserializes to the negated number. *)
Theorem negated_literal (S : string -> number) (z : Z) :
  luaAstToJson S (UnaryExpression "-" (NumericLiteral (Int z))) = Ok (JNum (Int (- z))).
Proof. reflexivity. Qed.

(** X12.  No tree deserializes to the Sequence whose one element is Nil: a
    table drops its Nil fields, and a statement with one value returns
    that value. *)
Theorem no_nil_sequence (S : string -> number) (t : ast) :
  luaAstToJson S t <> Ok (JArr [JNull]).
Proof. apply never_nil_sequence. Qed.

(** * Elements of deserialized tables *)

Lemma rewrite_chars_absent_after (a : ascii) (rep s : string) :
  all_chars (fun c => negb (Ascii.eqb c a)) rep = true ->
  all_chars (fun c => negb (Ascii.eqb c a)) (rewrite_chars a rep s) = true.
Proof.
  intros Hrep. induction s as [|c s IH]; [reflexivity|]. simpl.
  destruct (Ascii.eqb c a) eqn:E.
  - now rewrite all_chars_app, Hrep, IH.
  - simpl. now rewrite E, IH.
Qed.

Lemma escape_text_line_free (s : string) : line_free (escape_text s) = true.
Proof. unfold escape_text, line_free. now apply rewrite_chars_absent_after. Qed.

Lemma escape_line_free (v e : jsval) : escape v = Ok e -> text_line_free e.
Proof.
  intros H s ->. destruct v; try (cbn [escape] in H; discriminate).
  - rewrite escape_string in H. injection H as <-. apply escape_text_line_free.
  - cbn [escape] in H.
    destruct (lookup "replace" props) as [r|]; [destruct (truthy r)|]; discriminate.
Qed.

Lemma sequence_element_line_free (v e : jsval) :
  sequence_element v = Ok e -> text_line_free e.
Proof.
  unfold sequence_element. intros H.
  destruct (get v "__internal_table_key") as [flag|]; [|discriminate]. cbn [bind] in H.
  destruct (truthy flag); [|eapply escape_line_free; eauto].
  destruct (get v "key") as [k|]; [|discriminate]. cbn [bind] in H.
  destruct (get v "value") as [x|]; [|discriminate]. cbn [bind] in H.
  destruct (escape x) as [y|]; [|discriminate]. injection H as <-.
  intros s. discriminate.
Qed.

Lemma field_pair_line_free (r : jsval) (p : jsval * jsval) :
  field_pair r = Ok p -> text_line_free (snd p).
Proof.
  unfold field_pair. intros H.
  destruct (get r "key") as [k|]; [|discriminate]. cbn [bind] in H.
  destruct (get r "value") as [x|]; [|discriminate]. cbn [bind] in H.
  destruct (escape x) as [y|] eqn:E; [|discriminate]. injection H as <-.
  eapply escape_line_free; eauto.
Qed.

Lemma values_update (P : jsval -> Prop) (k : string) (v : jsval)
      (o : list (string * jsval)) :
  P v -> Forall (fun kv => P (snd kv)) o -> Forall (fun kv => P (snd kv)) (update k v o).
Proof.
  intros Hv. induction 1 as [|[k' v'] o Hx Ho IH]; [constructor|].
  simpl. destruct (k' =? k); constructor; auto.
Qed.

Lemma values_insert_index (P : jsval -> Prop) (n : N) (k : string) (v : jsval)
      (o : list (string * jsval)) :
  P v -> Forall (fun kv => P (snd kv)) o ->
  Forall (fun kv => P (snd kv)) (insert_index n k v o).
Proof.
  intros Hv. induction 1 as [|[k' v'] o Hx Ho IH]; [now repeat constructor|].
  simpl. destruct (array_index k') as [m|]; [destruct (m <? n)%N|];
    repeat (constructor; auto).
Qed.

Lemma values_obj_set (P : jsval -> Prop) (o : list (string * jsval)) (k : string)
      (v : jsval) :
  P v -> Forall (fun kv => P (snd kv)) o -> Forall (fun kv => P (snd kv)) (obj_set o k v).
Proof.
  intros Hv Ho. unfold obj_set. destruct (k =? "__proto__"); [assumption|].
  destruct (has_own k o); [now apply values_update|].
  destruct (array_index k); [now apply values_insert_index|].
  apply Forall_app. split; [assumption|]. now repeat constructor.
Qed.

Lemma values_assign_all (P : jsval -> Prop) (named o : list (string * jsval)) :
  Forall (fun kv => P (snd kv)) named -> Forall (fun kv => P (snd kv)) o ->
  Forall (fun kv => P (snd kv)) (assign_all o named).
Proof.
  revert o. induction named as [|[k v] named IH]; intros o Hn Ho; [assumption|].
  inversion Hn as [|? ? Hv Hn']; subst.
  change (assign_all o ((k, v) :: named)) with (assign_all (obj_set o k v) named).
  apply IH; [assumption|]. now apply values_obj_set.
Qed.

Lemma fromPairs_into_values (P : jsval -> Prop) (pairs : list (jsval * jsval)) :
  forall acc object : list (string * jsval),
    fromPairs_into acc pairs = Ok object ->
    Forall (fun p => P (snd p)) pairs ->
    Forall (fun kv => P (snd kv)) acc ->
    Forall (fun kv => P (snd kv)) object.
Proof.
  induction pairs as [|[k v] pairs IH]; intros acc object H Hp Hacc.
  - now injection H as <-.
  - cbn [fromPairs_into] in H. destruct (ToString k) as [name|]; [|discriminate].
    cbn [bind] in H. destruct (name =? "__proto__"); [discriminate|].
    inversion Hp as [|? ? Hv Hp']; subst.
    eapply IH; eauto. now apply values_obj_set.
Qed.

(** X3.  Whatever the fields of a table are, as long as no table met on the
    way assigns to the key [__proto__]: the Sequence the table becomes has
    at most as many elements as the table has fields, none of them Nil and
    none a Text that holds a line feed; the Mapping it becomes is not
    empty and none of its values is a Text that holds a line feed. *)
Theorem table_contents (S : string -> number) (fields : list ast) :
  (forall elems : list jsval,
      luaAstToJson S (TableConstructorExpression fields) = Ok (JArr elems) ->
      List.length elems <= List.length fields
      /\ Forall (fun e => isNull e = false /\ text_line_free e) elems)
  /\ (forall props : list (string * jsval),
         luaAstToJson S (TableConstructorExpression fields) = Ok (JObj props) ->
         props <> [] /\ Forall (fun kv => text_line_free (snd kv)) props).
Proof.
  cbn [luaAstToJson]. destruct (first_has_key fields).
  - destruct (mapM _ fields) as [pairs|] eqn:Hp; cbn [bind];
      [|split; intros ? H; discriminate].
    destruct (fromPairs pairs) as [object|] eqn:Ho; cbn [bind];
      [|split; intros ? H; discriminate].
    split.
    + intros elems H. destruct (isEmpty object); [|discriminate].
      injection H as <-. split; [apply Nat.le_0_l|constructor].
    + intros props H. destruct object as [|kv object]; [discriminate|].
      injection H as <-. split; [discriminate|].
      eapply (fromPairs_into_values text_line_free); [exact Ho| |constructor].
      apply mapM_inv in Hp. clear Ho.
      induction Hp as [|f p fs ps Hf _ IH]; constructor; [|exact IH].
      destruct (luaAstToJson S f) as [r|]; [|discriminate]. cbn [bind] in Hf.
      eapply field_pair_line_free; eauto.
  - destruct (mapM (luaAstToJson S) fields) as [values|] eqn:Hv; cbn [bind];
      [|split; intros ? H; discriminate].
    destruct (mapM sequence_element _) as [es|] eqn:He; cbn [bind];
      [|split; intros ? H; discriminate].
    split; [|intros ? H; discriminate].
    intros elems H. injection H as <-. split.
    + rewrite (mapM_length _ _ _ He), <- (mapM_length _ _ _ Hv).
      apply filter_length_le.
    + apply mapM_inv in He.
      assert (Hk : Forall (fun v => isNull v = false)
                          (filter (fun v => negb (isNull v)) values)).
      { apply Forall_forall. intros v Hin. apply filter_In in Hin as [_ Hn].
        now apply negb_true_iff. }
      clear Hv. induction He as [|v e vs es' Hve _ IH]; [constructor|].
      inversion Hk as [|? ? Hvn Hk']; subst. constructor; [|now apply IH].
      split; [eapply sequence_element_not_null; eauto
             |eapply sequence_element_line_free; eauto].
Qed.

Lemma table_contents_witness :
  Datatypes.length [JStr ("a" ++ str1 backslash ++ "nb"); JBool true] <= 3
  /\ Forall (fun e => isNull e = false /\ text_line_free e)
            [JStr ("a" ++ str1 backslash ++ "nb"); JBool true].
Proof.
  apply (proj1 (table_contents StringToNumber_decimal
                  [TableValue (StringLiteral ("a" ++ str1 newline ++ "b"));
                   TableValue NilLiteral;
                   TableValue (BooleanLiteral true)])).
  reflexivity.
Defined.

(** * Distinct texts and keys are written differently *)

Lemma escape_quote_head (q : ascii) (s : string) (d : ascii) (rest : string) :
  q <> backslash -> escape_quote q s = String d rest -> d <> q.
Proof.
  intros Hq. destruct s as [|c s]; [discriminate|]. simpl.
  destruct (Ascii.eqb c q) eqn:E; intros [= <- _].
  - congruence.
  - now apply Ascii.eqb_neq.
Qed.

(** Taking the backslash away from in front of every quote gives the
    string back. *)
Lemma unescape_quote (q : ascii) (s : string) :
  q <> backslash ->
  rewrite_pairs backslash q (str1 q) (escape_quote q s) = s.
Proof.
  intros Hq. induction s as [|c s IH]; [reflexivity|].
  cbn [escape_quote]. destruct (Ascii.eqb c q) eqn:E.
  - apply Ascii.eqb_eq in E. subst c. cbn [rewrite_pairs].
    rewrite !Ascii.eqb_refl. cbn [andb str1 append]. now rewrite IH.
  - cbn [rewrite_pairs]. destruct (escape_quote q s) as [|d rest] eqn:Es.
    + now rewrite <- IH.
    + assert (Hd : Ascii.eqb d q = false).
      { apply Ascii.eqb_neq. eapply escape_quote_head; eauto. }
      rewrite Hd, andb_false_r. now rewrite IH.
Qed.

Lemma escape_quote_inj (q : ascii) (s1 s2 : string) :
  q <> backslash -> escape_quote q s1 = escape_quote q s2 -> s1 = s2.
Proof.
  intros Hq H. rewrite <- (unescape_quote q s1 Hq), <- (unescape_quote q s2 Hq).
  now rewrite H.
Qed.

Lemma append_inv_last (a b : string) (c : ascii) :
  a ++ str1 c = b ++ str1 c -> a = b.
Proof.
  revert b. induction a as [|x a IH]; intros [|y b]; simpl; intros H.
  - reflexivity.
  - injection H as _ H. now destruct b.
  - injection H as _ H. now destruct a.
  - injection H as -> H. f_equal. now apply IH.
Qed.

Lemma quote_text_inj (q : ascii) (s1 s2 : string) :
  q <> backslash -> quote_text q s1 = quote_text q s2 -> s1 = s2.
Proof.
  intros Hq H. unfold quote_text in H. simpl in H. injection H as H.
  apply append_inv_last in H. now apply escape_quote_inj in H.
Qed.

Lemma identifier_not_bracketed (x : string) :
  identifier_shaped (String "[" x) = false.
Proof. reflexivity. Qed.

(** X4.  Two Texts that differ are written as different literals, and two
    keys that differ are written as different keys, under either quote
    character: the text of a Mapping never merges two of its entries. *)
Theorem literals_distinct (sq : bool) :
  (forall s1 s2 : string,
      formatLuaString s1 sq = formatLuaString s2 sq -> s1 = s2)
  /\ (forall k1 k2 : string,
         formatLuaKey k1 sq = formatLuaKey k2 sq -> k1 = k2).
Proof.
  assert (Hq : (if sq then squote else dquote) <> backslash)
    by (destruct sq; discriminate).
  assert (Hs : forall s1 s2, formatLuaString s1 sq = formatLuaString s2 sq -> s1 = s2).
  { intros s1 s2. rewrite !formatLuaString_spec. now apply quote_text_inj. }
  split; [exact Hs|].
  intros k1 k2. rewrite !formatLuaKey_spec. unfold rendered_key.
  destruct (identifier_shaped k1) eqn:E1, (identifier_shaped k2) eqn:E2; intros H.
  - exact H.
  - subst k1. simpl append in E1. now rewrite identifier_not_bracketed in E1.
  - subst k2. simpl append in E2. now rewrite identifier_not_bracketed in E2.
  - cbn [append] in H. injection H as H.
    apply (append_inv_last _ _ "]"), append_inv_last in H.
    now apply escape_quote_inj in H.
Qed.

Lemma literals_distinct_witness :
  formatLuaString "a\'b" true <> formatLuaString "a'b" true
  /\ formatLuaKey "a" false <> formatLuaKey "[" false.
Proof.
  split; intros H.
  - apply (proj1 (literals_distinct true)) in H. discriminate.
  - apply (proj2 (literals_distinct false)) in H. discriminate.
Defined.

(** * Nil fields *)

Lemma bind_assoc {A B C : Type} (r : result A) (f : A -> result B) (g : B -> result C) :
  bind (bind r f) g = bind r (fun x => bind (f x) g).
Proof. now destruct r. Qed.

Lemma mapM_drop_nil_fields (S : string -> number) (fields : list ast) :
  forall (K : list jsval -> result jsval),
    (do values <- mapM (luaAstToJson S) fields;
     K (filter (fun v => negb (isNull v)) values))
    = (do values <- mapM (luaAstToJson S) (drop_nil_fields fields);
       K (filter (fun v => negb (isNull v)) values)).
Proof.
  induction fields as [|f fields IH]; intros K; [reflexivity|].
  unfold drop_nil_fields. cbn [filter]. fold (drop_nil_fields fields).
  destruct (is_nil_field f) eqn:E; cbn [negb].
  - destruct f as [| | | | | | | |[]| | | | |]; try discriminate.
    rewrite mapM_cons. cbn [luaAstToJson bind]. rewrite bind_assoc. cbn [bind].
    exact (IH K).
  - rewrite !mapM_cons, !bind_assoc.
    destruct (luaAstToJson S f) as [y|e]; [|reflexivity]. cbn [bind].
    rewrite !bind_assoc. cbn [bind filter].
    exact (IH (fun kept => K (if negb (isNull y) then y :: kept else kept))).
Qed.

Lemma first_has_key_kept (fields : list ast) :
  first_has_key fields = true -> first_has_key (drop_nil_fields fields) = true.
Proof. destruct fields as [|[] fields]; try discriminate; reflexivity. Qed.

(** X5.  In a table read as a Sequence the fields that are the literal
    [nil] count for nothing: the table deserializes, or fails, as the table
    without them does, so the elements after a [nil] move up.  The table
    without them must still begin with a field that has no key. *)
Theorem nil_fields_invisible (S : string -> number) (fields : list ast) :
  first_has_key (drop_nil_fields fields) = false ->
  luaAstToJson S (TableConstructorExpression fields)
  = luaAstToJson S (TableConstructorExpression (drop_nil_fields fields)).
Proof.
  intros H.
  assert (H' : first_has_key fields = false).
  { destruct (first_has_key fields) eqn:E; [|reflexivity].
    now rewrite (first_has_key_kept fields E) in H. }
  cbn [luaAstToJson]. rewrite H, H'.
  exact (mapM_drop_nil_fields S fields
           (fun kept => do elems <- mapM sequence_element kept; Ok (JArr elems))).
Qed.

Lemma nil_fields_invisible_witness :
  deserialize (TableConstructorExpression
                 [TableValue (NumericLiteral (Int 1)); TableValue NilLiteral;
                  TableValue (NumericLiteral (Int 3)); TableValue NilLiteral])
  = deserialize (TableConstructorExpression
                   [TableValue (NumericLiteral (Int 1));
                    TableValue (NumericLiteral (Int 3))]).
Proof.
  exact (nil_fields_invisible StringToNumber_decimal
           [TableValue (NumericLiteral (Int 1)); TableValue NilLiteral;
            TableValue (NumericLiteral (Int 3)); TableValue NilLiteral] eq_refl).
Defined.

Example nil_field_before_a_key :
  deserialize (TableConstructorExpression
                 [TableValue NilLiteral;
                  TableKeyString (Identifier "a") (NumericLiteral (Int 1))])
  = Ok (JArr [property_entry (JStr "a") (JNum (Int 1))])
  /\ deserialize (TableConstructorExpression
                    [TableKeyString (Identifier "a") (NumericLiteral (Int 1))])
     = Ok (JObj [("a", JNum (Int 1))]).
Proof. split; reflexivity. Qed.

(** * Numeric keys *)

Lemma numeral_not_letter (c : ascii) :
  numeral_char c = true ->
  (is_letter c || Ascii.eqb c "_") = false
  /\ Ascii.eqb c squote = false /\ Ascii.eqb c dquote = false.
Proof.
  destruct c as [[|] [|] [|] [|] [|] [|] [|] [|]]; vm_compute; intros H;
    first [repeat split; reflexivity | discriminate H].
Qed.

Lemma numeral_uint (d : Decimal.uint) :
  all_chars numeral_char (NilEmpty.string_of_uint d) = true.
Proof. induction d; simpl; auto. Qed.

Lemma numeral_chars (z : Z) : all_chars numeral_char (number_toString (Int z)) = true.
Proof.
  unfold number_toString, NilZero.string_of_int, NilZero.string_of_uint.
  destruct (Z.to_int z) as [d|d]; destruct d; try reflexivity;
    apply (numeral_uint (_ _)) || (simpl; apply (numeral_uint _)).
Qed.

Lemma numeral_head (z : Z) :
  exists c rest, number_toString (Int z) = String c rest /\ numeral_char c = true.
Proof.
  pose proof (numeral_chars z) as H. pose proof (number_toString_nonempty (Int z)) as Hn.
  destruct (number_toString (Int z)) as [|c rest]; [contradiction|].
  simpl in H. apply andb_true_iff in H as [Hc _]. eauto.
Qed.

Lemma escape_quote_absent (q : ascii) (s : string) :
  all_chars (fun c => negb (Ascii.eqb c q)) s = true -> escape_quote q s = s.
Proof.
  induction s as [|c s IH]; [reflexivity|]. simpl. intros H.
  apply andb_true_iff in H as [Hc Hs]. apply negb_true_iff in Hc.
  now rewrite Hc, (IH Hs).
Qed.

Lemma formatLuaKey_numeral (z : Z) (sq : bool) :
  formatLuaKey (number_toString (Int z)) sq = bracketed sq (number_toString (Int z)).
Proof.
  rewrite formatLuaKey_spec. unfold rendered_key, bracketed, quote_text.
  destruct (numeral_head z) as (c & rest & Hs & Hc).
  assert (Hi : identifier_shaped (number_toString (Int z)) = false).
  { rewrite Hs. cbn [identifier_shaped].
    now rewrite (proj1 (numeral_not_letter c Hc)). }
  rewrite Hi, escape_quote_absent; [now rewrite !append_assoc|].
  generalize (numeral_chars z). apply all_chars_weaken. intros d Hd.
  destruct (numeral_not_letter d Hd) as (_ & H1 & H2). destruct sq; now rewrite ?H1, ?H2.
Qed.

Lemma numeral_not_name (z : Z) (name : string) (c : ascii) (rest : string) :
  name = String c rest -> numeral_char c = false ->
  (number_toString (Int z) =? name) = false.
Proof.
  intros -> Hc. apply String.eqb_neq. intros H.
  destruct (numeral_head z) as (d & r & Hs & Hd). rewrite Hs in H.
  injection H as -> _. congruence.
Qed.

Lemma obj_set_first (k : string) (v : jsval) :
  (k =? "__proto__") = false -> obj_set [] k v = [(k, v)].
Proof. intros H. unfold obj_set. rewrite H. simpl. now destruct (array_index k). Qed.

(** X6.  A table whose only field has a numeric key, a safe integer,
    deserializes to the Mapping with the numeral of the key as its key,
    and the serializer writes that key between brackets and quotes: the
    number [[5]] comes back out as the string [['5']]. *)
Theorem numeric_key_becomes_text (StN : string -> number) (z : Z) (value : ast)
        (v e : jsval) :
  safe_integer z ->
  luaAstToJson StN value = Ok v ->
  escape v = Ok e ->
  luaAstToJson StN (TableConstructorExpression [TableKey (NumericLiteral (Int z)) value])
  = Ok (JObj [(number_toString (Int z), e)])
  /\ forall (o : Options) (i : nat),
       rec o (JObj [(number_toString (Int z), e)]) i
       = (do r <- rec o e (S i);
          Ok (if truthy (spaces o)
              then "{" ++ eol_string o ++ indentation (spaces o) (S i)
                   ++ bracketed (truthy (singleQuote o)) (number_toString (Int z))
                   ++ " = " ++ r ++ "," ++ eol_string o ++ indentation (spaces o) i
                   ++ "}"
              else "{" ++ bracketed (truthy (singleQuote o)) (number_toString (Int z))
                   ++ "=" ++ r ++ ",}")).
Proof.
  intros _ Hv He. split.
  - cbn [luaAstToJson first_has_key mapM bind]. rewrite Hv. cbn [bind].
    unfold field_pair, internal_pair. simpl get. cbn [bind]. rewrite He. cbn [bind].
    unfold fromPairs. cbn [fromPairs_into ToString bind].
    rewrite (numeral_not_name z "__proto__" "_" "_proto__" eq_refl eq_refl).
    cbn [fromPairs_into]. rewrite obj_set_first; [reflexivity|].
    now apply (numeral_not_name z "__proto__" "_" "_proto__").
  - intros o i. cbn [rec mapM bind snd fst].
    assert (Hp : is_property [(number_toString (Int z), e)] = false).
    { unfold is_property. cbn [lookup].
      now rewrite (numeral_not_name z "type" "t" "ype"). }
    rewrite Hp.
    destruct (truthy (spaces o)); destruct (rec o e (S i)) as [r|]; cbn [bind];
      try reflexivity; cbn [map join fst snd]; rewrite formatLuaKey_numeral;
      now rewrite !append_assoc.
Qed.

Lemma numeric_key_becomes_text_witness :
  deserialize (TableConstructorExpression
                 [TableKey (NumericLiteral (Int 5)) (StringLiteral "v")])
  = Ok (JObj [("5", JStr "v")])
  /\ format (JObj [("5", JStr "v")]) (Some (mkOptions JUndefined JUndefined JNull))
     = Ok "return{['5']='v',}".
Proof.
  assert (Hz : safe_integer 5) by (unfold safe_integer, MAX_SAFE_INTEGER; lia).
  destruct (numeric_key_becomes_text StringToNumber_decimal 5
              (StringLiteral "v") (JStr "v") (JStr "v") Hz eq_refl eq_refl) as [Hd Hr].
  split; [exact Hd|].
  rewrite format_unfold.
  change (JObj [("5", JStr "v")]) with (JObj [(number_toString (Int 5), JStr "v")]).
  rewrite Hr. reflexivity.
Defined.

(** * Failures of the serializer *)

Lemma rec_compact_defined (o : Options) (v : jsval) :
  truthy (spaces o) = false -> contains_undefined v = false ->
  forall i, exists r, rec o v i = Ok r.
Proof.
  intros Hc. induction v as [| |b|n|s|elems IH|props IH] using jsval_nested_ind;
    cbn [contains_undefined]; intros Hu i; try discriminate;
    try (cbn [rec]; eauto; fail).
  - destruct elems as [|e0 elems]; [cbn [rec]; eauto|]. cbn [rec]. rewrite Hc.
    destruct (mapM_Forall2 (fun e => do r <- rec o e (S i); Ok (r ++ ","))
                           (fun _ _ => True) (e0 :: elems)) as (items & Hm & _).
    { rewrite Forall_forall in *. intros x Hx.
      destruct (IH x Hx (contains_undefined_elem _ _ Hu Hx) (S i)) as (r & Hr).
      exists (r ++ ","). now rewrite Hr. }
    rewrite Hm. cbn [bind]. eauto.
  - destruct props as [|p0 props]; [cbn [rec]; eauto|]. cbn [rec]. rewrite Hc.
    destruct (mapM_Forall2 (fun kv => do r <- rec o (snd kv) (S i); Ok (fst kv, r))
                           (fun _ _ => True) (p0 :: props)) as (rendered & Hm & _).
    { rewrite Forall_forall in *. intros x Hx.
      destruct (IH x Hx (contains_undefined_prop _ _ Hu Hx) (S i)) as (r & Hr).
      exists (fst x, r). now rewrite Hr. }
    rewrite Hm. cbn [bind]. eauto.
Qed.

(** X7.  On a value made of [undefined], [null], booleans, numbers,
    strings, arrays and plain objects, no string of the run outgrowing the
    limit of the runtime, the one error the serializer throws itself is
    [can't format undefined]: any other exception is the runtime's.  In
    compact mode it returns a text exactly for the values that hold no
    [undefined], property entries included, since they are written there
    as ordinary tables. *)
Theorem serializer_failures :
  (forall (v : jsval) (options : option Options) (m : string),
      text_fits (effective options) v ->
      format v options = Throw (Error m) -> m = "can't format undefined")
  /\ (forall (v : jsval) (o : Options),
         compact_spaces (spaces o) = true ->
         text_fits (effective (Some o)) v ->
         ((exists text, format v (Some o) = Ok text) <-> contains_undefined v = false)).
Proof.
  split.
  - intros v options m _. rewrite format_unfold. intros H.
    apply bind_throw in H as [H|(r & _ & H)]; [|discriminate].
    destruct (rec_throw_kinds _ _ _ _ H) as [Hm|Hm]; [|discriminate].
    now injection Hm as ->.
  - intros v o Hc _. apply compact_spaces_kept in Hc. rewrite format_unfold. split.
    + intros (text & H). destruct (contains_undefined v) eqn:E; [|reflexivity].
      destruct (rec_undefined_throws (effective (Some o)) v E 0) as (e & He).
      rewrite He in H. discriminate.
    + intros Hu.
      destruct (rec_compact_defined (effective (Some o)) v Hc Hu 0) as (r & Hr).
      rewrite Hr. cbn [bind]. eauto.
Qed.

Lemma serializer_failures_witness :
  (exists text,
      format (JArr [JObj [("type", JStr "property")]; JNull])
             (Some (mkOptions JUndefined JUndefined (JStr ""))) = Ok text)
  /\ format (JArr [JObj [("type", JStr "property")]; JNull]) None
     = Throw (Error "can't format undefined")
  /\ "can't format undefined" = "can't format undefined".
Proof.
  split; [|split; [reflexivity|]].
  - apply (proj2 serializer_failures _ (mkOptions JUndefined JUndefined (JStr "")));
      [reflexivity|vm_compute; discriminate|reflexivity].
  - apply (proj1 serializer_failures (JArr [JObj [("type", JStr "property")]; JNull])
                 None); [vm_compute; discriminate|reflexivity].
Defined.

(** * The Texts that escaping leaves alone *)

Lemma length_append (a b : string) :
  String.length (a ++ b) = String.length a + String.length b.
Proof. induction a as [|c a IH]; simpl; [reflexivity|]. now rewrite IH. Qed.

Lemma rewrite_pairs_none (a b : ascii) (rep s : string) :
  has_pair a b s = false -> rewrite_pairs a b rep s = s.
Proof.
  induction s as [|c s IH]; [reflexivity|]. cbn [has_pair rewrite_pairs].
  destruct s as [|d s]; [reflexivity|]. intros H.
  apply orb_false_iff in H as [Hcd Hs]. now rewrite Hcd, (IH Hs).
Qed.

Lemma rewrite_pairs_two (a b : ascii) (rep : string) (c d : ascii) (s : string) :
  rewrite_pairs a b rep (String c (String d s))
  = if Ascii.eqb c a && Ascii.eqb d b then rep ++ rewrite_pairs a b rep s
    else String c (rewrite_pairs a b rep (String d s)).
Proof. reflexivity. Qed.

Lemma has_pair_two (a b c d : ascii) (s : string) :
  has_pair a b (String c (String d s))
  = (Ascii.eqb c a && Ascii.eqb d b) || has_pair a b (String d s).
Proof. reflexivity. Qed.

Lemma rewrite_pairs_length (a b : ascii) (rep s : string) :
  2 < String.length rep ->
  String.length s <= String.length (rewrite_pairs a b rep s)
  /\ (has_pair a b s = true ->
      String.length s < String.length (rewrite_pairs a b rep s)).
Proof.
  intros Hrep.
  enough (H : (String.length s <= String.length (rewrite_pairs a b rep s)
               /\ (has_pair a b s = true ->
                   String.length s < String.length (rewrite_pairs a b rep s)))
              /\ forall c,
                  String.length (String c s)
                  <= String.length (rewrite_pairs a b rep (String c s))
                  /\ (has_pair a b (String c s) = true ->
                      String.length (String c s)
                      < String.length (rewrite_pairs a b rep (String c s))))
    by apply H.
  induction s as [|d s [[IH0 IH0'] IH1]].
  - split; [split; [reflexivity|discriminate]|].
    intros c. split; [reflexivity|discriminate].
  - split; [apply IH1|]. intros c. destruct (IH1 d) as [IHd IHd'].
    rewrite rewrite_pairs_two, has_pair_two.
    destruct (Ascii.eqb c a && Ascii.eqb d b); cbn [orb].
    + rewrite length_append.
      change (String.length (String c (String d s))) with (2 + String.length s).
      split; [lia|intros _; lia].
    + change (String.length (String c (String d s)))
        with (1 + String.length (String d s)).
      change (String.length (String c (rewrite_pairs a b rep (String d s))))
        with (1 + String.length (rewrite_pairs a b rep (String d s))).
      split; [lia|]. intros H. specialize (IHd' H). lia.
Qed.

Lemma rewrite_chars_length (a : ascii) (rep s : string) :
  1 < String.length rep ->
  String.length s <= String.length (rewrite_chars a rep s)
  /\ (all_chars (fun c => negb (Ascii.eqb c a)) s = false ->
      String.length s < String.length (rewrite_chars a rep s)).
Proof.
  intros Hrep. induction s as [|c s [IH IH']]; [split; [reflexivity|discriminate]|].
  cbn [rewrite_chars all_chars]. destruct (Ascii.eqb c a); cbn [negb andb].
  - rewrite length_append. cbn [String.length]. split; [lia|intros _; lia].
  - cbn [String.length]. split; [lia|]. intros H. specialize (IH' H). lia.
Qed.

(** X8.  The escaping step leaves a Text as it is exactly when the Text
    holds no two backslashes in a row, no backslash before [r] or [n] and
    no line feed; on every other Text it returns a longer one. *)
Theorem escape_unchanged (s : string) :
  (escape (JStr s) = Ok (JStr s) <-> escape_changes s = false)
  /\ (escape_changes s = true ->
      exists s', escape (JStr s) = Ok (JStr s')
                 /\ String.length s < String.length s').
Proof.
  rewrite escape_string. unfold escape_text, escape_changes, line_free.
  set (bs := backslash).
  remember (rewrite_pairs bs bs (String bs (String bs (String bs (str1 bs)))) s)
    as s1 eqn:E1.
  remember (rewrite_pairs bs "r" (String bs (String bs "r")) s1) as s2 eqn:E2.
  remember (rewrite_pairs bs "n" (String bs (String bs "n")) s2) as s3 eqn:E3.
  remember (rewrite_chars newline (String bs "n") s3) as s4 eqn:E4.
  assert (Hcases :
            (has_pair bs bs s || has_pair bs "r" s || has_pair bs "n" s
             || negb (all_chars (fun c => negb (Ascii.eqb c newline)) s) = false
             /\ s4 = s)
            \/ (has_pair bs bs s || has_pair bs "r" s || has_pair bs "n" s
                || negb (all_chars (fun c => negb (Ascii.eqb c newline)) s) = true
                /\ String.length s < String.length s4)).
  { destruct (rewrite_pairs_length bs bs (String bs (String bs (String bs (str1 bs)))) s)
      as [L1 L1']; [simpl; lia|].
    destruct (rewrite_pairs_length bs "r" (String bs (String bs "r")) s1)
      as [L2 L2']; [simpl; lia|].
    destruct (rewrite_pairs_length bs "n" (String bs (String bs "n")) s2)
      as [L3 L3']; [simpl; lia|].
    destruct (rewrite_chars_length newline (String bs "n") s3) as [L4 L4'];
      [simpl; lia|].
    rewrite <- E1 in L1, L1'. rewrite <- E2 in L2, L2'. rewrite <- E3 in L3, L3'.
    rewrite <- E4 in L4, L4'.
    destruct (has_pair bs bs s) eqn:H1; [right; split; [reflexivity|]|].
    { specialize (L1' eq_refl). lia. }
    rewrite (rewrite_pairs_none bs bs _ s H1) in E1. subst s1.
    destruct (has_pair bs "r" s) eqn:H2; [right; split; [reflexivity|]|].
    { specialize (L2' eq_refl). lia. }
    rewrite (rewrite_pairs_none bs "r" _ s H2) in E2. subst s2.
    destruct (has_pair bs "n" s) eqn:H3; [right; split; [reflexivity|]|].
    { specialize (L3' eq_refl). lia. }
    rewrite (rewrite_pairs_none bs "n" _ s H3) in E3. subst s3.
    destruct (all_chars (fun c => negb (Ascii.eqb c newline)) s) eqn:H4.
    - left. split; [reflexivity|]. subst s4. now apply rewrite_chars_absent.
    - right. split; [reflexivity|]. now apply L4'. }
  clear E1 E2 E3 E4.
  destruct Hcases as [[Hc Hs]|[Hc Hl]]; rewrite Hc.
  - subst s4. split; [split; reflexivity|discriminate].
  - split; [split|].
    + intros H. injection H as H. rewrite H in Hl. lia.
    + discriminate.
    + intros _. now exists s4.
Qed.

Lemma escape_unchanged_witness :
  escape (JStr "C:\dir") = Ok (JStr "C:\dir")
  /\ exists s', escape (JStr "C:\new") = Ok (JStr s')
                /\ String.length "C:\new" < String.length s'.
Proof.
  split.
  - now apply (proj1 (escape_unchanged "C:\dir")).
  - now apply (proj2 (escape_unchanged "C:\new")).
Defined.

(** * The text of the empty containers *)

Lemma join_length (sep x : string) (l : list string) :
  String.length x <= String.length (join sep (x :: l)).
Proof.
  destruct l as [|y l]; [reflexivity|].
  change (join sep (x :: y :: l)) with (x ++ sep ++ join sep (y :: l)).
  rewrite length_append. lia.
Qed.

(** X2.  At every depth and under every options object, a value made of
    [undefined], [null], booleans, numbers, strings, arrays and plain
    objects is written [{}] exactly when it is the empty array or the
    plain object without own enumerable property: the two are written
    alike, and no other such value is written as they are. *)
Theorem empty_braces (o : Options) (v : jsval) (i : nat) :
  rec o v i = Ok "{}" <-> v = JArr [] \/ v = JObj [].
Proof.
  split; [|intros [->| ->]; reflexivity].
  destruct v as [| |b|n|s|elems|props]; cbn [rec]; try discriminate.
  - now destruct b.
  - destruct n as [|z]; [discriminate|]. intros H. injection H as H.
    destruct (numeral_head z) as (c & rest & Hs & Hc).
    change (number_toString (Int z) = "{}") in H. rewrite Hs in H.
    injection H as -> _. discriminate.
  - rewrite formatLuaString_spec. unfold quote_text.
    destruct (truthy (singleQuote o)); discriminate.
  - destruct elems as [|e0 elems]; [now left|]. cbn [rec]. intros H. exfalso.
    assert (Hitems : forall (k : string -> string) (items : list string),
               (forall r, 0 < String.length (k r)) ->
               mapM (fun e => do r <- rec o e (S i); Ok (k r)) (e0 :: elems) = Ok items ->
               forall sep, 0 < String.length (join sep items)).
    { intros k items Hk Hm sep. apply mapM_inv in Hm.
      inversion Hm as [|x y l l' Hxy _]; subst.
      destruct (rec o e0 (S i)) as [r|]; [|discriminate]. injection Hxy as <-.
      pose proof (join_length sep (k r) l'). specialize (Hk r). lia. }
    destruct (truthy (spaces o));
      (destruct (mapM _ (e0 :: elems)) as [items|] eqn:Hm; cbn [bind] in H;
       [|discriminate]);
      injection H as H;
      apply (f_equal String.length) in H; rewrite !length_append in H;
      cbn [String.length] in H.
    + pose proof (Hitems (fun r => indentation (spaces o) (S i) ++ r ++ ",") items) as Hp.
      cbv beta in Hp. specialize (Hp (fun r => ltac:(rewrite !length_append;
                                                      cbn [String.length]; lia))
                                     Hm (eol_string o)). lia.
    + pose proof (Hitems (fun r => r ++ ",") items) as Hp.
      cbv beta in Hp. specialize (Hp (fun r => ltac:(rewrite !length_append;
                                                      cbn [String.length]; lia))
                                     Hm ""). lia.
  - destruct props as [|p0 props]; [now right|]. cbn [rec]. intros H. exfalso.
    assert (Hitems : forall (k : string * string -> string) (rendered : list (string * string)),
               (forall kr, 0 < String.length (k kr)) ->
               mapM (fun kv => do r <- rec o (snd kv) (S i); Ok (fst kv, r)) (p0 :: props)
               = Ok rendered ->
               forall sep, 0 < String.length (join sep (map k rendered))).
    { intros k rendered Hk Hm sep. apply mapM_inv in Hm.
      inversion Hm as [|x y l l' Hxy _]; subst. cbn [map].
      pose proof (join_length sep (k y) (map k l')). specialize (Hk y). lia. }
    destruct (truthy (spaces o));
      (destruct (mapM _ (p0 :: props)) as [rendered|] eqn:Hm; cbn [bind] in H;
       [|discriminate]).
    + destruct (is_property (p0 :: props)).
      * destruct (if isString _ then _ else _) as [keytext|]; [|discriminate].
        cbn [bind] in H. destruct (lookup "value" rendered); discriminate.
      * injection H as H.
        apply (f_equal String.length) in H; rewrite !length_append in H;
          cbn [String.length] in H.
        match type of H with
        | context [join ?sep (map ?k rendered)] =>
            assert (Hp : 0 < String.length (join sep (map k rendered)))
              by (apply Hitems; [intros kr; rewrite !length_append;
                                 cbn [String.length]; lia | reflexivity])
        end. lia.
    + injection H as H.
      apply (f_equal String.length) in H; rewrite !length_append in H;
        cbn [String.length] in H.
      match type of H with
      | context [join ?sep (map ?k rendered)] =>
          assert (Hp : 0 < String.length (join sep (map k rendered)))
            by (apply Hitems; [intros kr; rewrite !length_append;
                               cbn [String.length]; lia | reflexivity])
      end. lia.
Qed.

(** * Deserializing plain data and serializing it again *)

Lemma existsb_none {A : Type} (f : A -> bool) (l : list A) :
  Forall (fun x => f x = false) l -> existsb f l = false.
Proof. induction 1 as [|x l Hx _ IH]; [reflexivity|]. simpl. now rewrite Hx. Qed.

Lemma forallb_all {A : Type} (f : A -> bool) (l : list A) :
  Forall (fun x => f x = true) l -> forallb f l = true.
Proof. induction 1 as [|x l Hx _ IH]; [reflexivity|]. simpl. now rewrite Hx. Qed.

Lemma forallb_each {A : Type} (f : A -> bool) (l : list A) :
  forallb f l = true -> Forall (fun x => f x = true) l.
Proof.
  induction l as [|x l IH]; simpl; intros H; [constructor|].
  apply andb_true_iff in H as [Hx Hl]. constructor; auto.
Qed.

Lemma number_not_reserved (n : number) : mem (number_toString n) reserved_keys = false.
Proof.
  destruct n as [|z]; [reflexivity|].
  unfold mem, reserved_keys. cbn [existsb].
  rewrite (numeral_not_name z "type" "t" "ype" eq_refl eq_refl).
  rewrite (numeral_not_name z "replace" "r" "eplace" eq_refl eq_refl).
  rewrite (numeral_not_name z "__internal_table_key" "_" "_internal_table_key"
                            eq_refl eq_refl).
  rewrite (numeral_not_name z "__proto__" "_" "_proto__" eq_refl eq_refl).
  reflexivity.
Qed.

Lemma not_reserved (name : string) :
  mem name reserved_keys = false ->
  name <> "type" /\ name <> "replace" /\ name <> "__internal_table_key".
Proof.
  unfold mem, reserved_keys. cbn [existsb]. intros H.
  apply orb_false_iff in H as [H1 H]. apply orb_false_iff in H as [H2 H].
  apply orb_false_iff in H as [H3 _].
  repeat split; now apply String.eqb_neq.
Qed.

Lemma primitive_nestable (v : jsval) :
  primitive v = true -> v <> JUndefined -> nestable v.
Proof.
  destruct v; try discriminate; intros _ H; try contradiction;
    repeat split; reflexivity.
Qed.

Lemma escape_value_serializable (v : jsval) :
  serializable v -> serializable (escape_value v).
Proof. destruct v; auto; intros _; split; reflexivity. Qed.

Lemma serializable_elems (elems : list jsval) :
  Forall serializable elems -> serializable (JArr elems).
Proof.
  intros H. split; cbn [contains_undefined entries_well_formed].
  - apply existsb_none. eapply Forall_impl; [|exact H]. now intros v [Hv _].
  - apply forallb_all. eapply Forall_impl; [|exact H]. now intros v [_ Hv].
Qed.

Lemma serializable_props (props : list (string * jsval)) :
  Forall (fun kv => serializable (snd kv)) props -> lookup "type" props = None ->
  serializable (JObj props).
Proof.
  intros H Ht. split; cbn [contains_undefined entries_well_formed].
  - apply existsb_none. eapply Forall_impl; [|exact H]. now intros kv [Hv _].
  - unfold is_property. rewrite Ht, andb_true_r.
    apply forallb_all. eapply Forall_impl; [|exact H]. now intros kv [_ Hv].
Qed.

Lemma serializable_entry (key value : jsval) :
  primitive key = true -> key <> JUndefined -> serializable value ->
  serializable (property_entry key value).
Proof.
  intros Hp Hu [Hc He]. unfold property_entry.
  split; cbn [contains_undefined entries_well_formed existsb forallb snd].
  - rewrite Hc. destruct key; try discriminate; try contradiction; reflexivity.
  - rewrite He. destruct key; try discriminate; reflexivity.
Qed.

Section PlainData.

Variable StN : string -> number.

Lemma scalar_value (a : ast) :
  scalar a = true ->
  exists v, luaAstToJson StN a = Ok v /\ primitive v = true /\ v <> JUndefined.
Proof.
  induction a; cbn [scalar]; try discriminate; intros H;
    try (eexists; split; [reflexivity|split; [reflexivity|discriminate]]).
  apply andb_true_iff in H as [Hop Ha].
  destruct (IHa Ha) as (v & Hv & Hp & Hu).
  cbn [luaAstToJson]. rewrite Hop, Hv. cbn [bind].
  destruct v; try discriminate; try contradiction; cbn [ToNumber bind];
    (eexists; split; [reflexivity|split; [reflexivity|discriminate]]).
Qed.

Lemma key_text (k : ast) (kv : jsval) :
  key_allowed k = true -> luaAstToJson StN k = Ok kv ->
  exists name, ToString kv = Ok name /\ mem name reserved_keys = false.
Proof.
  unfold key_allowed. intros H Hk. apply andb_true_iff in H as [Hs Ha].
  destruct k; try discriminate; cbn [luaAstToJson] in Hk.
  - injection Hk as <-. eexists; split; reflexivity.
  - injection Hk as <-. destruct value; eexists; split; reflexivity.
  - injection Hk as <-. eexists; split; [reflexivity|apply number_not_reserved].
  - injection Hk as <-. eexists; split; [reflexivity|]. now apply negb_true_iff in Ha.
  - cbn [scalar] in Hs. apply andb_true_iff in Hs as [Hop _]. rewrite Hop in Hk.
    destruct (luaAstToJson StN k) as [v|]; [|discriminate]. cbn [bind] in Hk.
    destruct (ToNumber StN v) as [n|]; [|discriminate]. cbn [bind] in Hk.
    injection Hk as <-. eexists; split; [reflexivity|apply number_not_reserved].
  - injection Hk as <-. eexists; split; [reflexivity|]. now apply negb_true_iff in Ha.
Qed.

(** The fields of a table whose first field has a key: the pairs, and the
    named pairs [fromPairs] assigns. *)
Lemma keyed_fields (fields : list ast) :
  Forall (fun field =>
            exists kv xv name,
              luaAstToJson StN field = Ok (internal_pair kv xv)
              /\ ToString kv = Ok name /\ mem name reserved_keys = false
              /\ nestable xv) fields ->
  exists pairs named,
    mapM (fun field => do r <- luaAstToJson StN field; field_pair r) fields = Ok pairs
    /\ mapM key_name pairs = Ok named
    /\ Forall (fun nk => mem (fst nk) reserved_keys = false /\ serializable (snd nk))
              named.
Proof.
  induction 1 as [|field fields (kv & xv & name & Hr & Hn & Hm & Hs & He & _) _ IH].
  - exists [], []. repeat split. constructor.
  - destruct IH as (pairs & named & Hp & Hk & Hall).
    exists ((kv, escape_value xv) :: pairs), ((name, escape_value xv) :: named).
    split; [|split].
    + rewrite mapM_cons, Hr, Hp. cbn [bind]. unfold field_pair, internal_pair.
      cbn [get lookup String.eqb Ascii.eqb Bool.eqb bind].
      rewrite (escape_escapable xv He). reflexivity.
    + rewrite mapM_cons, Hk. unfold key_name at 1. cbn [fst snd].
      rewrite Hn. reflexivity.
    + constructor; [|assumption]. split; [assumption|].
      now apply escape_value_serializable.
Qed.

(** The fields of a table whose first field has no key: the elements of
    the resulting Sequence. *)
Lemma unkeyed_fields (fields : list ast) :
  Forall (fun field =>
            exists r, luaAstToJson StN field = Ok r
                      /\ (nestable r
                          \/ exists kv xv, r = internal_pair kv xv
                                           /\ primitive kv = true /\ kv <> JUndefined
                                           /\ nestable xv)) fields ->
  exists values elems,
    mapM (luaAstToJson StN) fields = Ok values
    /\ mapM sequence_element (filter (fun v => negb (isNull v)) values) = Ok elems
    /\ Forall serializable elems.
Proof.
  induction 1 as [|field fields (r & Hr & Hcase) _ IH].
  - exists [], []. repeat split. constructor.
  - destruct IH as (values & elems & Hv & He & Hall).
    destruct Hcase as [((Hc & Hw) & Hesc & Hpair)|(kv & xv & -> & Hp & Hu & Hs & Hesc & _)].
    + destruct (isNull r) eqn:Hnull.
      * exists (r :: values), elems. repeat split; [|simpl; now rewrite Hnull|assumption].
        rewrite mapM_cons, Hr, Hv. reflexivity.
      * exists (r :: values), (escape_value r :: elems). split; [|split].
        -- rewrite mapM_cons, Hr, Hv. reflexivity.
        -- simpl filter. rewrite Hnull. cbn [negb]. rewrite mapM_cons, He.
           rewrite (sequence_element_member r Hnull).
           ++ unfold sequence_member. rewrite Hpair. reflexivity.
           ++ unfold member_ok. rewrite Hpair. destruct r; try discriminate; assumption.
        -- constructor; [|assumption]. apply escape_value_serializable. now split.
    + exists (internal_pair kv xv :: values),
             (property_entry kv (escape_value xv) :: elems). split; [|split].
      * rewrite mapM_cons, Hr, Hv. reflexivity.
      * cbn [filter isNull internal_pair negb]. rewrite mapM_cons, He.
        unfold sequence_element, internal_pair.
        cbn [get lookup String.eqb Ascii.eqb Bool.eqb bind truthy].
        rewrite (escape_escapable xv Hesc). reflexivity.
      * constructor; [|assumption].
        apply serializable_entry; auto. now apply escape_value_serializable.
Qed.

(** A data expression deserializes to a value a table can hold, and a
    field over data expressions to what the table branch expects of it. *)
Lemma data_value (a : ast) :
  (data a = true -> exists v, luaAstToJson StN a = Ok v /\ nestable v)
  /\ match a with
     | TableKey k x | TableKeyString k x =>
         scalar k = true -> data x = true ->
         exists kv xv, luaAstToJson StN a = Ok (internal_pair kv xv)
                       /\ luaAstToJson StN k = Ok kv
                       /\ primitive kv = true /\ kv <> JUndefined /\ nestable xv
     | TableValue x =>
         data x = true -> exists v, luaAstToJson StN a = Ok v /\ nestable v
     | _ => True
     end.
Proof.
  induction a as [| b | n | s | op a IH | s | k x IHk IHx | k x IHk IHx | x IHx
                  | fields IH | init _ | args _ | body _ | t] using ast_nested_ind;
    (split; [cbn [data]; try discriminate; intros H|try exact I]).
  - exists JNull. split; [reflexivity|]. now apply primitive_nestable.
  - exists (JBool b). split; [reflexivity|]. now apply primitive_nestable.
  - exists (JNum n). split; [reflexivity|]. now apply primitive_nestable.
  - exists (JStr s). split; [reflexivity|]. now apply primitive_nestable.
  - destruct (scalar_value (UnaryExpression op a) H) as (v & Hv & Hp & Hu).
    exists v. split; [assumption|]. now apply primitive_nestable.
  - exists (JStr s). split; [reflexivity|]. now apply primitive_nestable.
  - intros Hk Hx. destruct (scalar_value k Hk) as (kv & Hkv & Hp & Hu).
    destruct IHx as [IHx _]. destruct (IHx Hx) as (xv & Hxv & Hn).
    exists kv, xv. cbn [luaAstToJson]. rewrite Hkv, Hxv. repeat split; auto; apply Hn.
  - intros Hk Hx. destruct (scalar_value k Hk) as (kv & Hkv & Hp & Hu).
    destruct IHx as [IHx _]. destruct (IHx Hx) as (xv & Hxv & Hn).
    exists kv, xv. cbn [luaAstToJson]. rewrite Hkv, Hxv. repeat split; auto; apply Hn.
  - intros Hx. destruct IHx as [IHx _]. exact (IHx Hx).
  - cbn [luaAstToJson]. destruct (first_has_key fields) eqn:Hfirst.
    + destruct (keyed_fields fields) as (pairs & named & Hp & Hk & Hall).
      { apply forallb_each in H. rewrite Forall_forall in *. intros field Hin.
        specialize (IH field Hin). specialize (H field Hin). cbv beta in H.
        destruct field; try discriminate; destruct IH as [_ IH];
          apply andb_true_iff in H as [Hkey Hx];
          (assert (Hs : scalar field1 = true)
            by (unfold key_allowed in Hkey; now apply andb_true_iff in Hkey as [? _]));
          destruct (IH Hs Hx) as (kv & xv & Hr & Hkv & _ & _ & Hn);
          destruct (key_text _ _ Hkey Hkv) as (name & Hname & Hm);
          exists kv, xv, name; auto. }
      rewrite Hp. cbn [bind]. unfold fromPairs.
      assert (Hproto : ~ In "__proto__" (keys named)).
      { intros Hin. apply in_map_iff in Hin as (nk & Heq & Hin).
        rewrite Forall_forall in Hall. destruct (Hall nk Hin) as [Hm _].
        rewrite Heq in Hm. discriminate. }
      rewrite (fromPairs_into_assign pairs [] named Hk Hproto). cbn [bind].
      assert (Habsent : forall x, x <> "__proto__" -> mem x reserved_keys = true ->
                                  lookup x (assign_all [] named) = None).
      { intros x Hx Hres. rewrite lookup_assign_all.
        apply String.eqb_neq in Hx. rewrite Hx.
        rewrite lookup_absent; [reflexivity|]. apply Forall_rev.
        eapply Forall_impl; [|exact Hall]. intros nk [Hm _] Heq. rewrite Heq in Hm. congruence. }
      destruct (assign_all [] named) as [|p object] eqn:Hobject.
      * exists (JArr []). split; [reflexivity|]. repeat split.
      * exists (JObj (p :: object)). split; [reflexivity|].
        pose proof (Habsent "type" ltac:(discriminate) eq_refl) as Ht.
        pose proof (Habsent "replace" ltac:(discriminate) eq_refl) as Hr.
        pose proof (Habsent "__internal_table_key" ltac:(discriminate) eq_refl) as Hi.
        split; [|split].
        -- apply serializable_props; [|assumption]. rewrite <- Hobject.
           apply values_assign_all; [|constructor].
           eapply Forall_impl; [|exact Hall]. now intros nk [_ Hs].
        -- unfold escapable, field_of. now rewrite Hr.
        -- unfold is_pair_construct, field_of. now rewrite Hi.
    + destruct (unkeyed_fields fields) as (values & elems & Hv & He & Hall).
      { apply forallb_each in H. rewrite Forall_forall in *. intros field Hin.
        specialize (IH field Hin). specialize (H field Hin). cbv beta in H.
        destruct field; try discriminate; destruct IH as [_ IH].
        - apply andb_true_iff in H as [Hs Hx].
          destruct (IH Hs Hx) as (kv & xv & Hr & _ & Hp & Hu & Hn).
          exists (internal_pair kv xv). split; [assumption|]. right. now exists kv, xv.
        - apply andb_true_iff in H as [Hs Hx].
          destruct (IH Hs Hx) as (kv & xv & Hr & _ & Hp & Hu & Hn).
          exists (internal_pair kv xv). split; [assumption|]. right. now exists kv, xv.
        - destruct (IH H) as (v & Hr & Hn). exists v. auto. }
      rewrite Hv. cbn [bind]. rewrite He. cbn [bind].
      exists (JArr elems). split; [reflexivity|].
      split; [now apply serializable_elems|split; reflexivity].
Qed.

Lemma data_values (values : list ast) :
  forallb data values = true ->
  exists vs, mapM (luaAstToJson StN) values = Ok vs /\ Forall serializable vs.
Proof.
  induction values as [|a values IH]; simpl forallb; intros H.
  - exists []. split; [reflexivity|constructor].
  - apply andb_true_iff in H as [Ha Hrest].
    destruct (proj1 (data_value a) Ha) as (v & Hv & Hs & _).
    destruct (IH Hrest) as (vs & Hvs & Hall).
    exists (v :: vs). split; [|now constructor].
    rewrite mapM_cons, Hv, Hvs. reflexivity.
Qed.

Lemma data_statement_value (a : ast) :
  data_statement a = true -> exists v, luaAstToJson StN a = Ok v /\ serializable v.
Proof.
  assert (Hunwrap : forall vs, Forall serializable vs -> serializable (unwrap_single vs)).
  { intros vs Hall. destruct vs as [|v [|w vs]]; cbn [unwrap_single].
    - now apply serializable_elems.
    - now inversion Hall.
    - now apply serializable_elems. }
  destruct a; try discriminate; cbn [data_statement]; intros H;
    destruct (data_values _ H) as (vs & Hvs & Hall);
    exists (unwrap_single vs); cbn [luaAstToJson]; rewrite Hvs; split; auto.
Qed.

End PlainData.

(** X9.  Deserializing a tree of plain data and serializing the result does
    not throw, under any options with which no string of the run outgrows
    the limit of the runtime.  A tree of plain data is a chunk whose
    first statement is a [return] or [local] over data expressions, or such
    a statement or expression by itself; a data expression is a literal, a
    name, a negated scalar, or a table over data expressions in which every
    field has a key when the first has one, the keys of such a table being
    scalars other than [type], [replace], [__internal_table_key] and
    [__proto__]. *)
Theorem plain_data_serializes (StN : string -> number) (tree : ast) :
  data_tree tree = true ->
  exists v, luaAstToJson StN tree = Ok v
            /\ forall options : option Options,
                 text_fits (effective options) v ->
                 exists text, format v options = Ok text.
Proof.
  intros H.
  assert (Hv : exists v, luaAstToJson StN tree = Ok v /\ serializable v).
  { assert (Hplain : data_statement tree || data tree = true ->
                     exists v, luaAstToJson StN tree = Ok v /\ serializable v).
    { intros Hp. apply orb_true_iff in Hp as [Hs|Hd].
      - now apply data_statement_value.
      - destruct (proj1 (data_value StN tree) Hd) as (v & Hv & Hs & _). eauto. }
    destruct tree; try (apply Hplain; exact H).
    destruct body as [|first body]; [discriminate|].
    cbn [data_tree] in H. cbn [luaAstToJson]. now apply data_statement_value. }
  destruct Hv as (v & Hv & Hc & Hw). exists v. split; [assumption|].
  intros options _. rewrite format_unfold.
  destruct (rec_defined_ok (effective options) v Hc Hw 0) as (r & Hr).
  rewrite Hr. cbn [bind]. eauto.
Qed.

Lemma plain_data_serializes_witness :
  let tree := Chunk [ReturnStatement
                       [TableConstructorExpression
                          [TableKeyString (Identifier "name") (StringLiteral "lua");
                           TableKey (NumericLiteral (Int 1))
                                    (UnaryExpression "-" (NumericLiteral (Int 7)));
                           TableKeyString (Identifier "list")
                             (TableConstructorExpression
                                [TableValue (BooleanLiteral true);
                                 TableValue NilLiteral;
                                 TableKeyString (Identifier "type") (Identifier "x")])]]] in
  data_tree tree = true
  /\ exists v, luaAstToJson StringToNumber_decimal tree = Ok v
               /\ forall options : option Options,
                    text_fits (effective options) v ->
                    exists text, format v options = Ok text.
Proof.
  split; [reflexivity|].
  apply (plain_data_serializes StringToNumber_decimal). reflexivity.
Defined.

(** * The two forms of the [spaces] option *)

Lemma repeat_string_app (s : string) (a b : nat) :
  repeat_string s (a + b) = repeat_string s a ++ repeat_string s b.
Proof.
  induction a as [|a IH]; [reflexivity|].
  cbn [Nat.add repeat_string]. now rewrite IH, append_assoc.
Qed.

Lemma repeat_string_mul (s : string) (a b : nat) :
  repeat_string s (a * b) = repeat_string (repeat_string s a) b.
Proof.
  induction b as [|b IH].
  - now rewrite Nat.mul_0_r.
  - rewrite Nat.mul_succ_r, Nat.add_comm, repeat_string_app, IH. reflexivity.
Qed.

Lemma depth_elem (e : jsval) (elems : list jsval) :
  In e elems -> depth e <= fold_right (fun e m => Nat.max (depth e) m) 0 elems.
Proof.
  induction elems as [|x elems IH]; [contradiction|].
  intros [->|Hin]; cbn [fold_right]; [lia|]. specialize (IH Hin). lia.
Qed.

Lemma depth_prop (kv : string * jsval) (props : list (string * jsval)) :
  In kv props ->
  depth (snd kv) <= fold_right (fun kv m => Nat.max (depth (snd kv)) m) 0 props.
Proof.
  induction props as [|x props IH]; [contradiction|].
  intros [->|Hin]; cbn [fold_right]; [lia|]. specialize (IH Hin). lia.
Qed.

(** [rec] reads the options through the quote, the line end, whether
    [spaces] is truthy, and the indentations down to the nesting of the
    value. *)
Lemma rec_same_layout (o o' : Options) (bound : nat) :
  truthy (singleQuote o) = truthy (singleQuote o') ->
  eol_string o = eol_string o' ->
  truthy (spaces o) = truthy (spaces o') ->
  (forall k, k <= bound -> indentation (spaces o) k = indentation (spaces o') k) ->
  forall (v : jsval) (i : nat), i + depth v <= bound -> rec o v i = rec o' v i.
Proof.
  intros Hq He Hs Hind v.
  induction v as [| |b|n|s|elems IH|props IH] using jsval_nested_ind; intros i Hb;
    try reflexivity.
  - cbn [rec]. now rewrite Hq.
  - destruct elems as [|e0 elems]; [reflexivity|].
    cbn [depth] in Hb.
    assert (Hsub : Forall (fun e => rec o e (S i) = rec o' e (S i)) (e0 :: elems)).
    { rewrite Forall_forall in *. intros e Hin. apply IH; [assumption|].
      pose proof (depth_elem e _ Hin). lia. }
    cbn [rec]. rewrite <- ?Hq, <- ?He, <- ?Hs, <- ?Hind by lia.
    rewrite (mapM_ext (fun e => do r <- rec o e (S i);
                                Ok (indentation (spaces o) (S i) ++ r ++ ","))
                      (fun e => do r <- rec o' e (S i);
                                Ok (indentation (spaces o) (S i) ++ r ++ ","))
                      (e0 :: elems))
      by (eapply Forall_impl; [|exact Hsub]; cbv beta; now intros e ->).
    rewrite (mapM_ext (fun e => do r <- rec o e (S i); Ok (r ++ ","))
                      (fun e => do r <- rec o' e (S i); Ok (r ++ ","))
                      (e0 :: elems))
      by (eapply Forall_impl; [|exact Hsub]; cbv beta; now intros e ->).
    reflexivity.
  - destruct props as [|p0 props]; [reflexivity|].
    cbn [depth] in Hb.
    assert (Hsub : Forall (fun kv => rec o (snd kv) (S i) = rec o' (snd kv) (S i))
                          (p0 :: props)).
    { rewrite Forall_forall in *. intros kv Hin. apply IH; [assumption|].
      pose proof (depth_prop kv _ Hin). lia. }
    cbn [rec]. rewrite <- ?Hq, <- ?He, <- ?Hs, <- ?Hind by lia.
    rewrite (mapM_ext (fun kv => do r <- rec o (snd kv) (S i); Ok (fst kv, r))
                      (fun kv => do r <- rec o' (snd kv) (S i); Ok (fst kv, r))
                      (p0 :: props))
      by (eapply Forall_impl; [|exact Hsub]; cbv beta; now intros kv ->).
    reflexivity.
Qed.

Lemma blanks_truthy (n : Z) :
  (0 <= n)%Z ->
  truthy (JStr (repeat_string " " (Z.to_nat n))) = truthy (JNum (Int n)).
Proof.
  intros Hn. cbn [truthy]. destruct (Z.eqb_spec n 0) as [->|Hne]; [reflexivity|].
  destruct (Z.to_nat n) as [|m] eqn:Hm; [lia|reflexivity].
Qed.

Lemma blanks_indentation (n : Z) (k : nat) :
  (0 <= n)%Z -> (n * Z.of_nat k <= 9007199254740991)%Z ->
  indentation (JNum (Int n)) k
  = indentation (JStr (repeat_string " " (Z.to_nat n))) k.
Proof.
  intros Hn Hk. cbn [indentation number_mul_nat repeat_count].
  rewrite <- repeat_string_mul.
  replace (Z.to_nat n * k) with (Z.to_nat (n * Z.of_nat k))
    by (rewrite Z2Nat.inj_mul, Nat2Z.id; lia).
  destruct (Z.ltb_spec (n * Z.of_nat k) 1) as [Hlt|Hge].
  - replace (n * Z.of_nat k)%Z with 0%Z by lia. reflexivity.
  - destruct (Z.gtb_spec (n * Z.of_nat k) 9007199254740991); [lia|reflexivity].
Qed.

(** X10.  A numeric [spaces] option that is a whole number n >= 0 and the
    string of n blanks give the same text (or the same exception) for every
    value, line end and quote, as long as the deepest indentation, n times
    the nesting of the value, is within the range lodash's [repeat]
    accepts: lines 29, 30, 42 and 43 take two different branches for the
    two forms. *)
Theorem numeric_spaces_are_blanks (e q : jsval) (n : Z) (v : jsval) :
  (0 <= n)%Z -> (n * Z.of_nat (depth v) <= 9007199254740991)%Z ->
  format v (Some {| eol := e; singleQuote := q; spaces := JNum (Int n) |})
  = format v (Some {| eol := e; singleQuote := q;
                      spaces := JStr (repeat_string " " (Z.to_nat n)) |}).
Proof.
  intros Hn Hb. rewrite !format_unfold. unfold effective, lead, normalize.
  cbn [spaces eol singleQuote isNull isNumber isString orb].
  rewrite (blanks_truthy n Hn).
  rewrite (rec_same_layout _ {| eol := if isString e then e else JStr (str1 newline);
                                singleQuote := if isBoolean q then q else JBool true;
                                spaces := JStr (repeat_string " " (Z.to_nat n)) |}
                           (depth v)); try reflexivity.
  - cbn [spaces]. now rewrite blanks_truthy.
  - intros k Hk. cbn [spaces]. apply blanks_indentation; [assumption|]. nia.
Qed.

Lemma numeric_spaces_are_blanks_witness :
  format (JArr [JNum (Int 1); JObj [("a", JArr [JNull])]])
         (Some {| eol := JUndefined; singleQuote := JBool false; spaces := JNum (Int 3) |})
  = format (JArr [JNum (Int 1); JObj [("a", JArr [JNull])]])
           (Some {| eol := JUndefined; singleQuote := JBool false; spaces := JStr "   " |}).
Proof.
  apply (numeric_spaces_are_blanks JUndefined (JBool false) 3
           (JArr [JNum (Int 1); JObj [("a", JArr [JNull])]])); vm_compute; discriminate.
Defined.

(** * No empty Mapping comes out of the deserializer *)

Lemma mapM_keeps {A B : Type} (f : A -> result B) (PA : A -> Prop) (PB : B -> Prop)
      (l : list A) (ys : list B) :
  (forall x y, PA x -> f x = Ok y -> PB y) ->
  Forall PA l -> mapM f l = Ok ys -> Forall PB ys.
Proof.
  intros Hf Hl Hm. apply mapM_inv in Hm.
  induction Hm as [|x y l ys Hxy _ IH]; [constructor|].
  inversion Hl; subst. constructor; eauto.
Qed.

Lemma no_empty_lookup (props : list (string * jsval)) (name : string) (x : jsval) :
  no_empty_mapping (JObj props) = true -> lookup name props = Some x ->
  no_empty_mapping x = true.
Proof.
  intros H. assert (Hall : forallb (fun kv => no_empty_mapping (snd kv)) props = true)
    by (destruct props; [discriminate|exact H]).
  clear H. induction props as [|[k v] props IH]; [discriminate|].
  cbn [forallb snd] in Hall. apply andb_true_iff in Hall as [Hv Hrest].
  cbn [lookup]. destruct (k =? name); [intros [= <-]; exact Hv|now apply IH].
Qed.

Lemma no_empty_get (r : jsval) (name : string) (x : jsval) :
  no_empty_mapping r = true -> get r name = Ok x -> no_empty_mapping x = true.
Proof.
  intros H Hg. destruct r; cbn [get] in Hg; try discriminate;
    injection Hg as <-; try reflexivity.
  destruct (lookup name props) eqn:E; [|reflexivity].
  eapply no_empty_lookup; eauto.
Qed.

Lemma no_empty_escape (v e : jsval) :
  no_empty_mapping v = true -> escape v = Ok e -> no_empty_mapping e = true.
Proof.
  intros H He. destruct v; cbn [escape] in He;
    try (injection He as <-; assumption).
  - destruct (truthy (JStr s)); injection He as <-; reflexivity.
  - destruct (lookup "replace" props) as [r|];
      [destruct (truthy r); [discriminate|]|]; injection He as <-; assumption.
Qed.

Lemma no_empty_field_pair (r k e : jsval) :
  no_empty_mapping r = true -> field_pair r = Ok (k, e) -> no_empty_mapping e = true.
Proof.
  intros H. unfold field_pair.
  destruct (get r "key") as [key|] eqn:Hk; [|discriminate]. cbn [bind].
  destruct (get r "value") as [value|] eqn:Hv; [|discriminate]. cbn [bind].
  destruct (escape value) as [e'|] eqn:He; [|discriminate]. cbn [bind].
  intros [= <- <-]. eapply no_empty_escape; [|exact He]. eapply no_empty_get; eauto.
Qed.

Lemma no_empty_sequence_element (r e : jsval) :
  no_empty_mapping r = true -> sequence_element r = Ok e -> no_empty_mapping e = true.
Proof.
  intros H. unfold sequence_element.
  destruct (get r "__internal_table_key") as [flag|]; [|discriminate]. cbn [bind].
  destruct (truthy flag); [|now apply no_empty_escape].
  destruct (get r "key") as [key|] eqn:Hk; [|discriminate]. cbn [bind].
  destruct (get r "value") as [value|] eqn:Hv; [|discriminate]. cbn [bind].
  destruct (escape value) as [e'|] eqn:He; [|discriminate]. cbn [bind].
  intros [= <-]. unfold property_entry. cbn [no_empty_mapping forallb snd].
  rewrite (no_empty_get r "key" key H Hk).
  rewrite (no_empty_escape value e' (no_empty_get r "value" value H Hv) He).
  reflexivity.
Qed.

(** X11.  Whatever the tree, as long as no table met on the way assigns to
    the key [__proto__]: a value that [luaAstToJson] returns holds no empty
    Mapping at any depth.  A keyed table that ends up without an entry is
    returned as the empty Sequence (line 90), and the objects built for
    keyed fields and property entries have three entries each. *)
Theorem no_empty_mapping_returned (StN : string -> number) (tree : ast) (v : jsval) :
  luaAstToJson StN tree = Ok v -> no_empty_mapping v = true.
Proof.
  revert v.
  induction tree as [| b | n | s | op a IH | s | k x IHk IHx | k x IHk IHx | x IHx
                     | fields IH | init IH | args IH | body IH | t]
    using ast_nested_ind; intros v H; cbn [luaAstToJson] in H.
  - now injection H as <-.
  - now injection H as <-.
  - now injection H as <-.
  - now injection H as <-.
  - destruct (op =? "-"); [|discriminate].
    destruct (luaAstToJson StN a) as [w|]; [|discriminate]. cbn [bind] in H.
    destruct (ToNumber StN w) as [m|]; [|discriminate]. now injection H as <-.
  - now injection H as <-.
  - destruct (luaAstToJson StN k) as [kv|]; [|discriminate]. cbn [bind] in H.
    destruct (luaAstToJson StN x) as [xv|]; [|discriminate]. injection H as <-.
    unfold internal_pair. cbn [no_empty_mapping forallb snd].
    now rewrite (IHk kv eq_refl), (IHx xv eq_refl).
  - destruct (luaAstToJson StN k) as [kv|]; [|discriminate]. cbn [bind] in H.
    destruct (luaAstToJson StN x) as [xv|]; [|discriminate]. injection H as <-.
    unfold internal_pair. cbn [no_empty_mapping forallb snd].
    now rewrite (IHk kv eq_refl), (IHx xv eq_refl).
  - now apply IHx.
  - destruct (first_has_key fields).
    + destruct (mapM _ fields) as [pairs|] eqn:Hp; [|discriminate]. cbn [bind] in H.
      destruct (fromPairs pairs) as [object|] eqn:Ho; [|discriminate].
      injection H as <-. destruct object as [|p object]; [reflexivity|].
      cbn [isEmpty]. change (forallb (fun kv => no_empty_mapping (snd kv)) (p :: object)
                             = true).
      apply forallb_all.
      apply (fromPairs_into_values (fun v => no_empty_mapping v = true) pairs []);
        [exact Ho| |constructor].
      eapply mapM_keeps; [|exact IH|exact Hp].
      intros field [key e] Hfield Hpair. cbn [snd].
      destruct (luaAstToJson StN field) as [r|]; [|discriminate].
      eapply no_empty_field_pair; eauto.
    + destruct (mapM (luaAstToJson StN) fields) as [values|] eqn:Hv; [|discriminate].
      cbn [bind] in H.
      destruct (mapM sequence_element _) as [elems|] eqn:He; [|discriminate].
      injection H as <-. cbn [no_empty_mapping]. apply forallb_all.
      eapply mapM_keeps; [exact no_empty_sequence_element| |exact He].
      apply Forall_forall. intros r Hin. apply filter_In in Hin as [Hin _].
      revert r Hin. apply Forall_forall.
      eapply mapM_keeps; [|exact IH|exact Hv]. intros field r Hfield. apply Hfield.
  - destruct (mapM (luaAstToJson StN) init) as [values|] eqn:Hv; [|discriminate].
    injection H as <-.
    assert (Hall : Forall (fun r => no_empty_mapping r = true) values)
      by (eapply mapM_keeps; [|exact IH|exact Hv]; intros field r Hfield; apply Hfield).
    destruct values as [|r [|r' values]]; cbn [unwrap_single no_empty_mapping];
      [reflexivity|now inversion Hall|now apply forallb_all].
  - destruct (mapM (luaAstToJson StN) args) as [values|] eqn:Hv; [|discriminate].
    injection H as <-.
    assert (Hall : Forall (fun r => no_empty_mapping r = true) values)
      by (eapply mapM_keeps; [|exact IH|exact Hv]; intros field r Hfield; apply Hfield).
    destruct values as [|r [|r' values]]; cbn [unwrap_single no_empty_mapping];
      [reflexivity|now inversion Hall|now apply forallb_all].
  - destruct body as [|first body]; [discriminate|]. inversion IH; subst. auto.
  - destruct (mem t literal_types); [now injection H as <-|].
    destruct (t =? "Identifier"); [now injection H as <-|].
    destruct (mem t parent_types); discriminate.
Qed.

Lemma no_empty_mapping_returned_witness :
  luaAstToJson StringToNumber_decimal
    (TableConstructorExpression
       [TableKeyString (Identifier "a") (TableConstructorExpression [])])
  = Ok (JObj [("a", JArr [])])
  /\ no_empty_mapping (JObj [("a", JArr [])]) = true.
Proof.
  split; [reflexivity|].
  apply (no_empty_mapping_returned StringToNumber_decimal
           (TableConstructorExpression
              [TableKeyString (Identifier "a") (TableConstructorExpression [])])).
  reflexivity.
Defined.

(** * The options object and the value in a store (C10) *)

Lemma lookup_replace_prop (k x : string) (v : sval) (props : list (string * sval)) :
  lookup x (replace_prop k v props)
  = if (x =? k) && has_own k props then Some v else lookup x props.
Proof.
  unfold has_own. induction props as [|[k' v'] props IH]; cbn [replace_prop lookup].
  - now rewrite andb_false_r.
  - destruct (String.eqb_spec k' k) as [->|Hk]; cbn [lookup].
    + rewrite andb_true_r, (String.eqb_sym x k). now destruct (k =? x).
    + rewrite IH. destruct (String.eqb_spec k' x) as [->|Hx]; [|reflexivity].
      apply String.eqb_neq in Hk. now rewrite Hk.
Qed.

Lemma lookup_append_prop {A : Type} (k x : string) (v : A) (props : list (string * A)) :
  lookup x (props ++ [(k, v)])
  = match lookup x props with
    | Some y => Some y
    | None => if k =? x then Some v else None
    end.
Proof.
  induction props as [|[k' v'] props IH]; cbn [lookup app]; [reflexivity|].
  now destruct (k' =? x).
Qed.

Lemma lookup_assign (k x : string) (v : sval) (props : list (string * sval)) :
  lookup x (assign props k v) = if x =? k then Some v else lookup x props.
Proof.
  unfold assign. destruct (has_own k props) eqn:H.
  - now rewrite lookup_replace_prop, H, andb_true_r.
  - rewrite lookup_append_prop, (String.eqb_sym k x).
    destruct (String.eqb_spec x k) as [->|Hx]; [|now destruct (lookup x props)].
    unfold has_own in H. now destruct (lookup k props).
Qed.

Lemma write_elsewhere (st : store) (l l' : loc) (k : string) (v : sval) :
  l' <> l -> write st l k v l' = st l'.
Proof. intros H. unfold write. apply Nat.eqb_neq in H. now rewrite H. Qed.

Lemma write_frozen (st : store) (l : loc) (k : string) (v : sval)
      (props : list (string * sval)) :
  st l = Some (Obj true props) -> forall l', write st l k v l' = st l'.
Proof.
  intros H l'. unfold write. destruct (Nat.eqb_spec l' l) as [->|_]; [|reflexivity].
  now rewrite H.
Qed.

Lemma write_here (st : store) (l : loc) (k : string) (v : sval)
      (props : list (string * sval)) :
  st l = Some (Obj false props) ->
  write st l k v l = Some (Obj false (assign props k v)).
Proof. intros H. unfold write. now rewrite Nat.eqb_refl, H. Qed.

Lemma field_write (st : store) (l : loc) (k x : string) (v : sval)
      (props : list (string * sval)) :
  st l = Some (Obj false props) ->
  field (write st l k v) l x = if x =? k then v else field st l x.
Proof.
  intros H. unfold field. rewrite (write_here st l k v props H), H, lookup_assign.
  now destruct (x =? k).
Qed.

Lemma omap_ext {A B : Type} (f g : A -> option B) (l : list A) :
  Forall (fun x => f x = g x) l -> omap f l = omap g l.
Proof.
  induction 1 as [|x l Hx _ IH]; [reflexivity|]. cbn [omap]. now rewrite Hx, IH.
Qed.

Lemma avoids_write (fuel : nat) :
  forall (st : store) (l : loc) (k : string) (x v : sval),
    avoids fuel st l v = true -> avoids fuel (write st l k x) l v = true.
Proof.
  induction fuel as [|fuel IH]; intros st l k x v H; destruct v; try reflexivity;
    cbn [avoids] in *; apply andb_true_iff in H as [Hl Hc]; rewrite Hl;
    [reflexivity|]. cbn [andb].
  rewrite write_elsewhere by (apply Nat.eqb_neq; now apply negb_true_iff in Hl).
  destruct (st l0) as [[elems|frozen props]|]; [| |reflexivity];
    rewrite forallb_forall in *; intros y Hy; apply IH; now apply Hc.
Qed.

(** A write to the object at [l] does not change the tree of a value on
    whose walk that object is not met. *)
Lemma read_write (fuel : nat) :
  forall (st : store) (l : loc) (k : string) (x v : sval),
    avoids fuel st l v = true -> read fuel (write st l k x) v = read fuel st v.
Proof.
  induction fuel as [|fuel IH]; intros st l k x v H; destruct v; try reflexivity.
  cbn [avoids] in H. apply andb_true_iff in H as [Hl Hc]. cbn [read].
  rewrite write_elsewhere by (apply Nat.eqb_neq; now apply negb_true_iff in Hl).
  destruct (st l0) as [[elems|frozen props]|]; [| |reflexivity]; f_equal;
    apply omap_ext, Forall_forall; intros y Hy; rewrite forallb_forall in Hc.
  - apply IH. now apply Hc.
  - rewrite IH; [reflexivity|]. now apply Hc.
Qed.

Lemma options_read_total (e q p : sval) :
  match prim (eol_written e), prim (singleQuote_written q), prim (spaces_written p) with
  | Some e', Some q', Some p' =>
      if kept_spaces p' || negb (truthy p') then Some (mkOptions e' q' p') else None
  | _, _, _ => None
  end = Some (normalize (mkOptions (kind_of e) (kind_of q) (kind_of p))).
Proof. destruct e, q, p; reflexivity. Qed.

(** The claim of C10 fails where the options object is the value, or a
    part of it: after [const o = {}; format(o, o)] the value is not what
    it was, and the text is that of the overwritten object. *)
Lemma options_inside_value :
  let st : store := fun l => if Nat.eqb l 0 then Some (Obj false []) else None in
  read 1 st (SRef 0) = Some (JObj [])
  /\ option_map snd (format_in_store 1 st (SRef 0) 0)
     = Some (Ok ("return {" ++ str1 newline
                 ++ "  eol = '" ++ str1 newline ++ "'," ++ str1 newline
                 ++ "  singleQuote = true," ++ str1 newline
                 ++ "  spaces = 2," ++ str1 newline ++ "}"))
  /\ option_map (fun r => read 1 (fst r) (SRef 0)) (format_in_store 1 st (SRef 0) 0)
     = Some (Some (JObj [("eol", JStr (str1 newline)); ("singleQuote", JBool true);
                         ("spaces", JNum (Int 2))])).
Proof. repeat split. Qed.

(** C10, amended.  The store a call with an options object leaves is the
    one after the three assignments of lines 10 to 12, whatever becomes of
    the rendering.  Every other object is as it was.  An options object
    that takes writes is overwritten in place: its [eol], [singleQuote]
    and [spaces] hold their normalized values, its other properties are as
    before; a frozen one stays as it was.  The tree of the value is what
    it was before the call when the options object is not met on its walk.
    The text is rendered after the writes: when the walk of the value in
    the store they leave ends, the call on an options object that took
    them returns what [format] gives on that tree. *)
Theorem options_overwritten (fuel : nat) (st : store) (value : sval) (l : loc)
        (frozen : bool) (props : list (string * sval)) :
  st l = Some (Obj frozen props) ->
  (forall st' out, format_in_store fuel st value l = Some (st', out) ->
                   st' = options_written st l)
  /\ (forall l', l' <> l -> options_written st l l' = st l')
  /\ (frozen = true -> options_written st l l = st l)
  /\ (frozen = false ->
      exists props',
        options_written st l l = Some (Obj false props')
        /\ lookup "eol" props' = Some (eol_written (field st l "eol"))
        /\ lookup "singleQuote" props'
           = Some (singleQuote_written (field st l "singleQuote"))
        /\ lookup "spaces" props' = Some (spaces_written (field st l "spaces"))
        /\ forall k, k <> "eol" -> k <> "singleQuote" -> k <> "spaces" ->
                     lookup k props' = lookup k props)
  /\ (avoids fuel st l value = true ->
      read fuel (options_written st l) value = read fuel st value)
  /\ (frozen = false ->
      forall tree, read fuel (options_written st l) value = Some tree ->
                   format_in_store fuel st value l
                   = Some (options_written st l,
                           format tree (Some (options_given st l)))).
Proof.
  intros Hl.
  assert (Hf : format_in_store fuel st value l
               = match options_read (options_written st l) l
                         (eol_written (field st l "eol")),
                       read fuel (options_written st l) value with
                 | Some o, Some tree =>
                     Some (options_written st l,
                           do r <- rec o tree 0; Ok ("return" ++ lead o ++ r))
                 | _, _ => None
                 end)
    by (unfold format_in_store; now rewrite Hl).
  rewrite Hf. clear Hf. unfold options_written. cbv zeta.
  set (e := eol_written (field st l "eol")) in *.
  set (st1 := write st l "eol" e) in *.
  set (q := singleQuote_written (field st1 l "singleQuote")) in *.
  set (st2 := write st1 l "singleQuote" q) in *.
  set (p := spaces_written (field st2 l "spaces")) in *.
  set (st3 := write st2 l "spaces" p) in *.
  split; [|split; [|split; [|split; [|split]]]].
  - intros st' out H.
    destruct (options_read st3 l e) as [o|]; [|discriminate].
    destruct (read fuel st3 value) as [tree|]; [|discriminate].
    now injection H as <- _.
  - intros l' Hne. unfold st3, st2, st1. now rewrite !write_elsewhere.
  - intros ->.
    assert (F1 : forall l', st1 l' = st l')
      by (intros l'; apply (write_frozen st l _ _ props Hl)).
    assert (F2 : forall l', st2 l' = st l').
    { intros l'. unfold st2. rewrite (write_frozen st1 l _ _ props); [apply F1|].
      now rewrite F1. }
    unfold st3. rewrite (write_frozen st2 l _ _ props); [apply F2|]. now rewrite F2.
  - intros ->.
    pose proof (write_here st l "eol" e props Hl) as H1. fold st1 in H1.
    pose proof (write_here st1 l "singleQuote" q _ H1) as H2. fold st2 in H2.
    pose proof (write_here st2 l "spaces" p _ H2) as H3. fold st3 in H3.
    eexists. split; [exact H3|].
    assert (Hq : q = singleQuote_written (field st l "singleQuote")).
    { unfold q, st1. now rewrite (field_write st l _ _ _ props Hl). }
    assert (Hp : p = spaces_written (field st l "spaces")).
    { unfold p, st2. rewrite (field_write st1 l _ _ _ _ H1). cbn [String.eqb Ascii.eqb Bool.eqb].
      unfold st1. now rewrite (field_write st l _ _ _ props Hl). }
    rewrite !lookup_assign. cbn [String.eqb Ascii.eqb Bool.eqb].
    rewrite <- Hq, <- Hp. repeat split.
    intros k Hk1 Hk2 Hk3. rewrite !lookup_assign.
    apply String.eqb_neq in Hk1, Hk2, Hk3. now rewrite Hk1, Hk2, Hk3.
  - intros Ha. unfold st3, st2, st1.
    rewrite !read_write; try reflexivity; try assumption.
    + now apply avoids_write.
    + now apply avoids_write, avoids_write.
  - intros -> tree Ht. rewrite Ht.
    pose proof (write_here st l "eol" e props Hl) as H1. fold st1 in H1.
    pose proof (write_here st1 l "singleQuote" q _ H1) as H2. fold st2 in H2.
    assert (Hq : field st3 l "singleQuote"
                 = singleQuote_written (field st l "singleQuote")).
    { unfold st3. rewrite (field_write st2 l _ _ _ _ H2). cbn [String.eqb Ascii.eqb Bool.eqb].
      unfold st2. rewrite (field_write st1 l _ _ _ _ H1). cbn [String.eqb Ascii.eqb Bool.eqb].
      unfold q, st1. now rewrite (field_write st l _ _ _ props Hl). }
    assert (Hp : field st3 l "spaces" = spaces_written (field st l "spaces")).
    { unfold st3. rewrite (field_write st2 l _ _ _ _ H2). cbn [String.eqb Ascii.eqb Bool.eqb].
      unfold p, st2. rewrite (field_write st1 l _ _ _ _ H1). cbn [String.eqb Ascii.eqb Bool.eqb].
      unfold st1. now rewrite (field_write st l _ _ _ props Hl). }
    unfold options_read. rewrite Hq, Hp. unfold e.
    rewrite (options_read_total (field st l "eol") (field st l "singleQuote")
                                (field st l "spaces")).
    rewrite format_unfold. reflexivity.
Qed.

Lemma options_overwritten_witness :
  let st : store :=
    fun l => match l with
             | 0 => Some (Obj false [("spaces", SBool false); ("tag", SRef 1)])
             | 1 => Some (Arr [SNum (Int 1); SRef 2])
             | 2 => Some (Obj false [("a", SStr "x")])
             | _ => None
             end in
  options_written st 0 1 = st 1 /\ options_written st 0 2 = st 2
  /\ (exists props',
         options_written st 0 0 = Some (Obj false props')
         /\ lookup "eol" props' = Some (SStr (str1 newline))
         /\ lookup "singleQuote" props' = Some (SBool true)
         /\ lookup "spaces" props' = Some (SNum (Int 2))
         /\ lookup "tag" props' = Some (SRef 1))
  /\ read 3 (options_written st 0) (SRef 1) = read 3 st (SRef 1)
  /\ format_in_store 3 st (SRef 1) 0
     = Some (options_written st 0,
             format (JArr [JNum (Int 1); JObj [("a", JStr "x")]])
                    (Some (mkOptions JUndefined JUndefined (JBool false)))).
Proof.
  intros st.
  destruct (options_overwritten 3 st (SRef 1) 0 false
              [("spaces", SBool false); ("tag", SRef 1)] eq_refl)
    as (_ & Hframe & _ & Hin & Hsame & Hout).
  split; [apply Hframe; discriminate|]. split; [apply Hframe; discriminate|].
  destruct (Hin eq_refl) as (props' & Hp & He & Hq & Hs & Hk).
  split.
  - exists props'. repeat split; try assumption.
    rewrite Hk by discriminate. reflexivity.
  - specialize (Hsame eq_refl). split; [exact Hsame|].
    apply (Hout eq_refl). rewrite Hsame. reflexivity.
Defined.
